(** * lektor-i18n-plugin: the content parser, the reconstructor and the POT
      formatter of [lektor_i18n.py], embedded in Rocq.

    Python [str] values are sequences of Unicode code points; they are
    modelled as lists of code points ([N]).  The two regular expressions of
    the module and the one of [split_paragraphs] are interpreted by a small
    backtracking matcher with the priorities of Python's [re] engine. *)

From Stdlib Require Import String Ascii.
From Stdlib Require Import List NArith ZArith Arith Bool Lia.
From Stdlib Require Import Sorting.Sorted Sorting.Permutation.
Import ListNotations.
Open Scope list_scope.

Set Implicit Arguments.

(* ================================================================== *)
(** ** Python strings *)
(* ================================================================== *)

Definition char := N.
Definition str := list char.

(** [py "..."] is the Python literal with the same (ASCII) characters. *)
Definition py (s : string) : str :=
  map N_of_ascii (list_ascii_of_string s).

Definition NL : char := 10%N.     (* "\n" *)
Definition CR : char := 13%N.     (* "\r" *)
Definition TAB : char := 9%N.     (* "\t" *)
Definition SPACE : char := 32%N.  (* " " *)
Definition DASH : char := 45%N.   (* "-" *)
Definition HASH : char := 35%N.   (* "#" *)
Definition COLON : char := 58%N.  (* ":" *)
Definition QUOTE : char := 34%N.  (* the double quote *)
Definition BSLASH : char := 92%N. (* the backslash *)

Fixpoint str_eqb (a b : str) : bool :=
  match a, b with
  | [], [] => true
  | x :: a', y :: b' => N.eqb x y && str_eqb a' b'
  | _, _ => false
  end.

(** [Py_UNICODE_ISSPACE]: the characters removed by [str.strip()] and
    matched by [\s] in a [str] pattern. *)
Definition isspace (c : char) : bool :=
  ((9 <=? c) && (c <=? 13) || (28 <=? c) && (c <=? 32)
   || (c =? 133) || (c =? 160) || (c =? 5760)
   || (8192 <=? c) && (c <=? 8202)
   || (c =? 8232) || (c =? 8233) || (c =? 8239) || (c =? 8287)
   || (c =? 12288))%N.

Fixpoint lstrip_by (p : char -> bool) (s : str) : str :=
  match s with
  | [] => []
  | c :: s' => if p c then lstrip_by p s' else s
  end.

Definition rstrip_by (p : char -> bool) (s : str) : str :=
  rev (lstrip_by p (rev s)).

Definition strip_by (p : char -> bool) (s : str) : str :=
  rstrip_by p (lstrip_by p s).

(** [s.strip()] *)
Definition strip (s : str) : str := strip_by isspace s.

(** [s.strip(chars)] *)
Definition strip_chars (chars : str) (s : str) : str :=
  strip_by (fun c => existsb (N.eqb c) chars) s.

(** [c in s] for a one-character [c]. *)
Definition contains (c : char) (s : str) : bool := existsb (N.eqb c) s.

(** [c * n] *)
Definition times (c : char) (n : nat) : str := repeat c n.

(** [s.split(sep)] for a one-character separator. *)
Fixpoint split_on (sep : char) (s : str) : list str :=
  match s with
  | [] => [[]]
  | c :: s' =>
      if N.eqb c sep then [] :: split_on sep s'
      else match split_on sep s' with
           | [] => [[c]]
           | p :: ps => (c :: p) :: ps
           end
  end.

(** [sep.join(parts)] *)
Fixpoint join (sep : str) (parts : list str) : str :=
  match parts with
  | [] => []
  | [p] => p
  | p :: ps => p ++ sep ++ join sep ps
  end.

Fixpoint is_prefix (p s : str) : bool :=
  match p, s with
  | [], _ => true
  | x :: p', y :: s' => N.eqb x y && is_prefix p' s'
  | _ :: _, [] => false
  end.

(** [s.replace(old, new, count)]; [count = None] is the two-argument call
    (every occurrence).  Occurrences are taken left to right and do not
    overlap; an empty [old] matches before every character and at the end.
    [skip] counts the characters of the occurrence just replaced that are
    still to be passed over. *)
Fixpoint replace_scan (old new : str) (count : option nat) (skip : nat)
    (s : str) : str :=
  match s with
  | [] => []
  | c :: s' =>
      match skip with
      | S k => replace_scan old new count k s'
      | O =>
          match count with
          | Some O => s
          | _ =>
              if is_prefix old s
              then new ++ replace_scan old new (option_map pred count)
                                       (pred (length old)) s'
              else c :: replace_scan old new count 0 s'
          end
      end
  end.

Fixpoint replace_empty (new : str) (count : option nat) (s : str) : str :=
  match count with
  | Some O => s
  | _ =>
      match s with
      | [] => new
      | c :: s' => new ++ c :: replace_empty new (option_map pred count) s'
      end
  end.

Definition replace (old new : str) (count : option nat) (s : str) : str :=
  match old with
  | [] => replace_empty new count s
  | _ :: _ => replace_scan old new count 0 s
  end.

(* ================================================================== *)
(** ** Regular expressions *)
(* ================================================================== *)

Module Re.

(** The constructs that occur in the three patterns of the module. *)
Inductive regex :=
| Lit (c : char)                 (* one literal character *)
| Class (p : char -> bool)       (* [...], \s and . *)
| Bol                            (* ^ *)
| Eol                            (* $ *)
| Seq (r1 r2 : regex)
| Star (greedy : bool) (r : regex)   (* r* and r*? *)
| Opt (greedy : bool) (r : regex)    (* r? and r?? *)
| Group (n : nat) (r : regex).       (* the n-th capturing group *)

(** [r+] and [r{1,}] *)
Definition Plus (greedy : bool) (r : regex) : regex :=
  Seq r (Star greedy r).

Fixpoint Lits (s : str) (k : regex) : regex :=
  match s with
  | [] => k
  | c :: s' => Seq (Lit c) (Lits s' k)
  end.

(** Captured groups, most recent first. *)
Definition captures := list (nat * str).

Definition orelse {A} (a b : option A) : option A :=
  match a with Some x => Some x | None => b end.

Section Matcher.
Variable A : Type.

(** The continuation of a match: the offset reached, the rest of the
    subject and the groups captured so far. *)
Definition cont := nat -> str -> captures -> option A.

(** The iterations of a repetition whose body is matched by [body]:
    greedy tries one more iteration before the continuation, lazy the
    continuation first.  An iteration that consumes nothing is not
    repeated, so [fuel = length s] iterations are all there can be. *)
Fixpoint star_loop (body : nat -> str -> captures -> cont -> option A)
    (greedy : bool) (k : cont) (fuel : nat) (pos : nat) (s : str)
    (caps : captures) {struct fuel} : option A :=
  match fuel with
  | O => k pos s caps
  | S fuel' =>
      let again :=
        body pos s caps
          (fun pos' s' caps' =>
             if Nat.ltb (length s') (length s)
             then star_loop body greedy k fuel' pos' s' caps'
             else None) in
      if greedy then orelse again (k pos s caps)
      else orelse (k pos s caps) again
  end.

(** [run r pos s caps k]: match [r] at offset [pos] of the subject, [s]
    being the rest of the subject from there, then continue with [k];
    alternatives are tried in the order of Python's backtracking engine
    and the first success wins. *)
Fixpoint run (r : regex) (pos : nat) (s : str) (caps : captures)
    (k : cont) {struct r} : option A :=
  match r with
  | Lit c =>
      match s with
      | x :: s' => if N.eqb x c then k (S pos) s' caps else None
      | [] => None
      end
  | Class p =>
      match s with
      | x :: s' => if p x then k (S pos) s' caps else None
      | [] => None
      end
  | Bol => if Nat.eqb pos 0 then k pos s caps else None
  | Eol =>
      (* the end of the subject, or just before a final newline *)
      match s with
      | [] => k pos s caps
      | [x] => if N.eqb x NL then k pos s caps else None
      | _ => None
      end
  | Seq r1 r2 =>
      run r1 pos s caps (fun pos' s' caps' => run r2 pos' s' caps' k)
  | Opt greedy r1 =>
      if greedy then orelse (run r1 pos s caps k) (k pos s caps)
      else orelse (k pos s caps) (run r1 pos s caps k)
  | Star greedy r1 =>
      star_loop (run r1) greedy k (length s) pos s caps
  | Group n r1 =>
      run r1 pos s caps
        (fun pos' s' caps' => k pos' s' ((n, firstn (pos' - pos) s) :: caps'))
  end.
End Matcher.

(** A match object: [start()], [end()] and the groups. *)
Record rmatch := { m_start : nat; m_end : nat; m_caps : captures }.

(** [m.group(n)]: [None] when the group did not take part in the match. *)
Fixpoint lookup (n : nat) (caps : captures) : option str :=
  match caps with
  | [] => None
  | (i, t) :: caps' => if Nat.eqb i n then Some t else lookup n caps'
  end.

Definition group (n : nat) (m : rmatch) : option str := lookup n (m_caps m).

Definition match_at (r : regex) (pos : nat) (s : str) : option rmatch :=
  run r pos s [] (fun pos' _ caps => Some {| m_start := pos; m_end := pos'; m_caps := caps |}).

(** [search_from r pos s]: the leftmost match starting at offset [pos] or
    later, [s] being the subject from [pos] on. *)
Fixpoint search_from (r : regex) (pos : nat) (s : str) : option rmatch :=
  match match_at r pos s with
  | Some m => Some m
  | None =>
      match s with
      | [] => None
      | _ :: s' => search_from r (S pos) s'
      end
  end.

(** [pattern.search(s)] *)
Definition search (r : regex) (s : str) : option rmatch := search_from r 0 s.

(** [re.split(pattern, s)] for a pattern without capturing groups whose
    matches are never empty (the only use in the module). *)
Fixpoint split_from (fuel : nat) (r : regex) (pos : nat) (s : str) : list str :=
  match fuel with
  | O => [s]
  | S fuel' =>
      match search_from r pos s with
      | None => [s]
      | Some m =>
          firstn (m_start m - pos) s
            :: split_from fuel' r (m_end m) (skipn (m_end m - pos) s)
      end
  end.

Definition split (r : regex) (s : str) : list str :=
  split_from (S (length s)) r 0 s.

(** *** What a pattern matches

    [matches r pos w rest]: at offset [pos] the pattern can consume the
    word [w] when [rest] follows it.  This is the language of the pattern,
    without the priorities of the engine; it tells whether [search] finds
    a match, not which one. *)
Inductive star_of (P : nat -> str -> str -> Prop) : nat -> str -> str -> Prop :=
| star_nil : forall pos rest, star_of P pos [] rest
| star_cons : forall pos w1 w2 rest,
    w1 <> [] ->
    P pos w1 (w2 ++ rest) ->
    star_of P (pos + length w1) w2 rest ->
    star_of P pos (w1 ++ w2) rest.

Fixpoint matches (r : regex) (pos : nat) (w rest : str) {struct r} : Prop :=
  match r with
  | Lit c => w = [c]
  | Class p => exists x, w = [x] /\ p x = true
  | Bol => w = [] /\ pos = 0
  | Eol => w = [] /\ (rest = [] \/ rest = [NL])
  | Seq r1 r2 =>
      exists w1 w2, w = w1 ++ w2 /\ matches r1 pos w1 (w2 ++ rest)
                    /\ matches r2 (pos + length w1) w2 rest
  | Star _ r1 => star_of (matches r1) pos w rest
  | Opt _ r1 => w = [] \/ matches r1 pos w rest
  | Group _ r1 => matches r1 pos w rest
  end.

(** The answer of [k] after [r] consumed a word. *)
Definition reaches {A} (r : regex) (k : cont A) (pos : nat) (s : str) (a : A) : Prop :=
  exists w rest caps',
    s = w ++ rest /\ matches r pos w rest
    /\ k (pos + length w) rest caps' = Some a.

(** [k] answers whatever groups it is given. *)
Definition accepts {A} (k : cont A) (pos : nat) (s : str) : Prop :=
  forall caps, k pos s caps <> None.

(** The next character of [v], if any, is not in the set [p]. *)
Definition stops (p : char -> bool) (v : str) : Prop :=
  match v with [] => True | x :: _ => p x = false end.

End Re.

Import Re.

(* ================================================================== *)
(** ** The patterns of the module *)
(* ================================================================== *)

Definition in_range (lo hi c : char) : bool := ((lo <=? c) && (c <=? hi))%N.

(** The set [[a-zA-Z0-9.-_]] of [command_re]: the three ranges [a-z], [A-Z]
    and [0-9], and the range from "." (46) to "_" (95) that [.-_] denotes
    inside a character set. *)
Definition key_char (c : char) : bool :=
  (in_range 97 122 c || in_range 65 90 c || in_range 48 57 c
   || in_range 46 95 c)%N.

(** [.] matches every character but the newline. *)
Definition dot (c : char) : bool := negb (N.eqb c NL).

(** [[^#]] *)
Definition not_hash (c : char) : bool := negb (N.eqb c HASH).

Definition ws : regex := Star true (Class isspace).   (* \s* *)

(** [command_re = re.compile(r"([a-zA-Z0-9.-_]+):\s*(.*?)?\s*$")] *)
Definition command_re : regex :=
  Seq (Group 1 (Plus true (Class key_char)))
 (Seq (Lit COLON)
 (Seq ws
 (Seq (Opt true (Group 2 (Star false (Class dot))))
 (Seq ws Eol)))).

(** [block2re = re.compile(r"^###(#+)\s*([^#]*?)\s*###(#+)\s*$")] *)
Definition block2re : regex :=
  Seq Bol
 (Lits [HASH; HASH; HASH]
 (Seq (Group 1 (Plus true (Lit HASH)))
 (Seq ws
 (Seq (Group 2 (Star false (Class not_hash)))
 (Seq ws
 (Lits [HASH; HASH; HASH]
 (Seq (Group 3 (Plus true (Lit HASH)))
 (Seq ws Eol)))))))).

(** The pattern ["\n(?:\\s*\n){1,}"] of [split_paragraphs]. *)
Definition paragraph_re : regex :=
  Seq (Lit NL) (Plus true (Seq ws (Lit NL))).

(* ================================================================== *)
(** ** Block boundaries and paragraphs *)
(* ================================================================== *)

(** [line_starts_new_block(line, prev_line)] *)
Definition line_starts_new_block (line : str) (prev_line : option str) : bool :=
  match prev_line with
  | None => false
  | Some p =>
      if match p with [] => true | _ => negb (contains COLON p) end
      then false
      else
        let line := strip line in
        str_eqb line (times DASH (length line)) && (3 <=? length line)
  end.

(** [split_paragraphs(document)] for a [str] argument (a list of lines is
    joined first by the source). *)
Definition split_paragraphs (document : str) : list str :=
  Re.split paragraph_re document.

(* ================================================================== *)
(** ** The structure parser *)
(* ================================================================== *)

(** A chunk is a pair of a kind (a Python string) and its text. *)
Definition span := (str * str)%type.

Definition raw : str := py "raw".
Definition translatable : str := py "translatable".

(** The local variables of [__parse_source_structure] during its first
    loop. *)
Record pstate := {
  blocks : list span;
  count_lines_block : nat;
  is_content : bool;
  prev_line : option str
}.

Definition init : pstate :=
  {| blocks := []; count_lines_block := 0; is_content := false;
     prev_line := None |}.

Definition is_some {A} (o : option A) : bool :=
  match o with Some _ => true | None => false end.

(** Python truthiness of a [str]-or-[None] value. *)
Definition truthy (o : option str) : bool :=
  match o with Some (_ :: _) => true | _ => false end.

Definition text_of (o : option str) : str :=
  match o with Some t => t | None => [] end.

(** One iteration of [for line in lines]. *)
Definition step (st : pstate) (line : str) : pstate :=
  let stripped_line := strip line in
  match stripped_line with
  | [] =>
      (* empty line: append and [continue], [prev_line] is left as it is *)
      {| blocks := blocks st ++ [(raw, [NL])];
         count_lines_block := count_lines_block st;
         is_content := is_content st;
         prev_line := prev_line st |}
  | _ :: _ =>
      let st1 :=
        if line_starts_new_block stripped_line (prev_line st)
           || is_some (search block2re stripped_line)
        then
          {| blocks := blocks st ++ [(raw, line)];
             count_lines_block := 0;
             is_content := false;
             prev_line := prev_line st |}
        else
          let count := S (count_lines_block st) in
          let match_ := search command_re stripped_line in
          match (count =? 1) && negb (is_content st), match_ with
          | true, Some m =>
              let key := text_of (group 1 m) in
              let value := group 2 m in
              {| blocks :=
                   blocks st ++ [(raw, key ++ [COLON])]
                     ++ (if truthy value
                         then [(raw, [SPACE]); (translatable, text_of value)]
                         else [])
                     ++ [(raw, [NL])];
                 count_lines_block := count;
                 is_content := is_content st;
                 prev_line := prev_line st |}
          | _, _ =>
              {| blocks := blocks st;
                 count_lines_block := count;
                 is_content := true;
                 prev_line := prev_line st |}
          end in
      {| blocks :=
           if is_content st1 then blocks st1 ++ [(translatable, line)]
           else blocks st1;
         count_lines_block := count_lines_block st1;
         is_content := is_content st1;
         prev_line := Some line |}
  end.

(** The first loop: the state after all [lines]. *)
Definition scan (st : pstate) (lines : list str) : pstate :=
  fold_left step lines st.

(** The body of the second loop: [newblocks[-1][1] += data] when the last
    chunk has the same type, [newblocks.append([type, data])] otherwise. *)
Fixpoint merge_into (newblocks : list span) (type data : str) : list span :=
  match newblocks with
  | [] => [(type, data)]
  | [(t, d)] =>
      if str_eqb t type then [(t, d ++ data)] else [(t, d); (type, data)]
  | b :: rest => b :: merge_into rest type data
  end.

(** The second loop: join neighbour blocks of same type. *)
Definition merge (blocks : list span) : list span :=
  fold_left (fun newblocks b => merge_into newblocks (fst b) (snd b)) blocks [].

(** [I18NPlugin.__parse_source_structure(lines)] *)
Definition parse_source_structure (lines : list str) : list span :=
  merge (blocks (scan init lines)).

(** The text of a chunk sequence, in order. *)
Definition concat_text (l : list span) : str := concat (map snd l).

(* ================================================================== *)
(** ** The reconstructor *)
(* ================================================================== *)

Section Reconstructor.
(** [translator.gettext] *)
Variable gettext : str -> str.

(** [__trans_linewise(content, translator)] *)
Definition trans_linewise (content : str) : str :=
  join [NL]
    (map (fun line =>
            let line_stripped := strip line in
            let trans_stripline :=
              match line_stripped with
              | [] => []
              | _ :: _ => gettext line_stripped
              end in
            replace line_stripped trans_stripline (Some 1) line)
         (split_on NL content)).

(** [__trans_parwise(content, translator)] *)
Definition trans_parwise (content : str) : str :=
  join [NL; NL]
    (map (fun paragraph =>
            let stripped := strip_chars [NL; CR] paragraph in
            replace stripped (gettext stripped) None paragraph)
         (split_paragraphs content)).

(** What has been written to the output file, and the exception that
    ended the loop, if any. *)
Record written := { file : str; raised : option str }.

Definition unknown_chunk : str :=
  py "Unknown chunk type detected, this is a bug".

(** The loop [for content_type, content in chunks] of
    [translate_contents], [f] being the text written so far. *)
Fixpoint write_chunks (trans_parwise_mode : bool) (f : str)
    (chunks : list span) : written :=
  match chunks with
  | [] => {| file := f; raised := None |}
  | (content_type, content) :: rest =>
      if str_eqb content_type raw then
        write_chunks trans_parwise_mode (f ++ content) rest
      else if str_eqb content_type translatable then
        write_chunks trans_parwise_mode
          (f ++ (if trans_parwise_mode then trans_parwise content
                 else trans_linewise content)) rest
      else {| file := f; raised := Some unknown_chunk |}
  end.

(** One output file of [translate_contents]: [lines] is
    [file.readlines()] of the source document. *)
Definition translate_document (trans_parwise_mode : bool)
    (lines : list str) : written :=
  write_chunks trans_parwise_mode [] (parse_source_structure lines).
End Reconstructor.

(* ================================================================== *)
(** ** The translation memory and its POT serialization *)
(* ================================================================== *)

(** Python's [<] on sequences: the first position where the two differ
    decides, a proper prefix is smaller. *)
Fixpoint lex_ltb {A} (eqb ltb : A -> A -> bool) (a b : list A) : bool :=
  match a, b with
  | [], [] => false
  | [], _ :: _ => true
  | _ :: _, [] => false
  | x :: a', y :: b' => if eqb x y then lex_ltb eqb ltb a' b' else ltb x y
  end.

Fixpoint list_eqb {A} (eqb : A -> A -> bool) (a b : list A) : bool :=
  match a, b with
  | [], [] => true
  | x :: a', y :: b' => eqb x y && list_eqb eqb a' b'
  | _, _ => false
  end.

(** [<] on [str] compares code points. *)
Definition str_ltb : str -> str -> bool := lex_ltb N.eqb N.ltb.

(** [<] on lists of [str]. *)
Definition paths_ltb : list str -> list str -> bool := lex_ltb str_eqb str_ltb.

(** [<] on the tuples [(sorted(paths), msg)]. *)
Definition entry_ltb (a b : list str * str) : bool :=
  if list_eqb str_eqb (fst a) (fst b) then str_ltb (snd a) (snd b)
  else paths_ltb (fst a) (fst b).

(** [sorted(l)]: the stable ascending sort by [<]. *)
Fixpoint insert_sorted {A} (ltb : A -> A -> bool) (x : A) (l : list A) : list A :=
  match l with
  | [] => [x]
  | y :: l' => if ltb x y then x :: l else y :: insert_sorted ltb x l'
  end.

Definition sorted {A} (ltb : A -> A -> bool) (l : list A) : list A :=
  fold_left (fun acc x => insert_sorted ltb x acc) l [].

Module Translations.

(** [self.translations]: the items of the ordered dictionary, a text and
    the list of its sources. *)
Definition t := list (str * list str).

(** [add(text, source)] *)
Fixpoint add (text source : str) (tr : t) : t :=
  match tr with
  | [] => [(text, [source])]
  | (msg, paths) :: tr' =>
      if str_eqb msg text
      then (msg, if existsb (str_eqb source) paths then paths
                 else paths ++ [source]) :: tr'
      else (msg, paths) :: add text source tr'
  end.

Definition quoted (s : str) : str := [QUOTE] ++ s ++ [QUOTE].
Definition backslash_n : str := [BSLASH; 110%N].
Definition backslash_t : str := [BSLASH; 116%N].

(** The header of [as_pot] after [dedent], which removes nothing here: the
    first line of the literal has no indentation, so the common margin is
    empty; only the last, blank line loses its spaces.  [now] is the clock
    string of lines 91-92. *)
Definition pot_header (now content_language : str) : str :=
  let ind := times SPACE 12 in
  py "msgid " ++ quoted [] ++ [NL]
  ++ ind ++ py "msgstr " ++ quoted [] ++ [NL]
  ++ ind ++ quoted (py "Project-Id-Version: PACKAGE VERSION" ++ backslash_n) ++ [NL]
  ++ ind ++ quoted (py "Report-Msgid-Bugs-To: " ++ backslash_n) ++ [NL]
  ++ ind ++ quoted (py "POT-Creation-Date: " ++ now ++ backslash_n) ++ [NL]
  ++ ind ++ quoted (py "PO-Revision-Date: YEAR-MO-DA HO:MI+ZONE" ++ backslash_n) ++ [NL]
  ++ ind ++ quoted (py "Last-Translator: FULL NAME <EMAIL@ADDRESS>" ++ backslash_n) ++ [NL]
  ++ ind ++ quoted (py "Language-Team: " ++ content_language ++ py " <LL@li.org>" ++ backslash_n) ++ [NL]
  ++ ind ++ quoted (py "Language: " ++ content_language ++ backslash_n) ++ [NL]
  ++ ind ++ quoted (py "MIME-Version: 1.0" ++ backslash_n) ++ [NL]
  ++ ind ++ quoted (py "Content-Type: text/plain; charset=UTF-8" ++ backslash_n) ++ [NL]
  ++ ind ++ quoted (py "Content-Transfer-Encoding: 8bit" ++ backslash_n) ++ [NL]
  ++ [NL].

(** The items of the dictionary of replacements, in its order. *)
Definition escapes : list (str * str) :=
  [ ([BSLASH], [BSLASH; BSLASH]);
    ([NL], backslash_n);
    ([TAB], backslash_t);
    ([QUOTE], [BSLASH; QUOTE]) ].

(** The inner loop: [msg = msg.replace(token, repl)] for each item. *)
Definition escape (msg : str) : str :=
  fold_left (fun msg tr => replace (fst tr) (snd tr) None msg) escapes msg.

(** [translations_by_path] *)
Definition translations_by_path (tr : t) : list (list str * str) :=
  map (fun it => (sorted str_ltb (snd it), fst it))
      (filter (fun it => match fst it with [] => false | _ :: _ => true end) tr).

(** One appended element of [pot_elements]. *)
Definition pot_element (e : list str * str) : str :=
  py "#: " ++ join [SPACE] (fst e) ++ [NL]
  ++ py "msgid " ++ quoted (escape (snd e)) ++ [NL]
  ++ py "msgstr " ++ quoted [] ++ [NL; NL].

(** [as_pot(content_language, header)]; the [header] argument is
    overwritten before any use. *)
Definition as_pot (tr : t) (now content_language : str) : str :=
  concat (pot_header now content_language
          :: map pot_element (sorted entry_ltb (translations_by_path tr))).

End Translations.

(* ================================================================== *)
(** ** Reading the header of a POT file *)
(* ================================================================== *)

(** [Translations.read_pot_header]: [rest] is what is left of the file, of
    which [f.readline()] gives the next line, and the empty string once
    the end is reached; [header_lines] is the list built so far.  The
    [while] loop has no bound of its own, [fuel] counts its iterations:
    [None] when they run out before a line is the bare newline. *)
Fixpoint read_pot_header_loop (fuel : nat) (rest : list str)
    (header_lines : list str) : option str :=
  match fuel with
  | O => None
  | S fuel' =>
      let line := match rest with [] => [] | l :: _ => l end in
      let header_lines := header_lines ++ [line] in
      if str_eqb line [NL] then Some (concat header_lines)
      else read_pot_header_loop fuel' (tl rest) header_lines
  end.

Definition read_pot_header (fuel : nat) (file_lines : list str) : option str :=
  read_pot_header_loop fuel file_lines [].

(* ================================================================== *)
(** ** Emptying and filling the translations of a catalog *)
(* ================================================================== *)

(** The attributes of a catalog entry that the two functions read and
    write; [msgstr_plural] is the dictionary from plural index to text. *)
Record POEntry := {
  msgid : str;
  msgid_plural : str;
  msgstr : str;
  msgstr_plural : list (Z * str)
}.

(** The body of the loop of [clear_translations]. *)
Definition clear_entry (entry : POEntry) : POEntry :=
  {| msgid := msgid entry;
     msgid_plural := msgid_plural entry;
     msgstr := [];
     msgstr_plural :=
       match msgstr_plural entry with
       | [] => []
       | _ :: _ => map (fun it => (fst it, [])) (msgstr_plural entry)
       end |}.

(** The body of the loop of [fill_translations]. *)
Definition fill_entry (entry : POEntry) : POEntry :=
  {| msgid := msgid entry;
     msgid_plural := msgid_plural entry;
     msgstr := msgid entry;
     msgstr_plural :=
       match msgstr_plural entry with
       | [] => []
       | _ :: _ =>
           map (fun it => (fst it, if Z.eqb (fst it) 0 then msgid entry
                                   else msgid_plural entry))
               (msgstr_plural entry)
       end |}.

(** [clear_translations] and [fill_translations] on the entries of the
    catalog: the entries that [po.save] writes. *)
Definition clear_translations (po : list POEntry) : list POEntry :=
  map clear_entry po.

Definition fill_translations (po : list POEntry) : list POEntry :=
  map fill_entry po.

(* ================================================================== *)
(** ** Choosing an element by language *)
(* ================================================================== *)

(** An element of [element_list]: a mapping from attribute names to
    texts. *)
Definition element := list (str * str).

(** [item[attribute]]: [None] stands for the [KeyError]. *)
Fixpoint getitem (item : element) (attribute : str) : option str :=
  match item with
  | [] => None
  | (k, v) :: item' => if str_eqb k attribute then Some v else getitem item' attribute
  end.

(** What a call returns: an element, [None], or the [KeyError] of an
    element without the attribute. *)
Inductive chosen :=
| Item (item : element)
| NoItem
| KeyError.

Section ChooseLanguage.
(** [str.lower] *)
Variable lower : str -> str.

(** One loop of [choose_language]: the first element whose attribute,
    stripped and lowered, is [wanted]. *)
Fixpoint first_with (element_list : list element) (attribute wanted : str)
    : chosen :=
  match element_list with
  | [] => NoItem
  | item :: rest =>
      match getitem item attribute with
      | None => KeyError
      | Some v =>
          if str_eqb (lower (strip v)) wanted then Item item
          else first_with rest attribute wanted
      end
  end.

(** [I18NPlugin.choose_language(element_list, language, fallback, attribute)] *)
Definition choose_language (element_list : list element)
    (language fallback attribute : str) : chosen :=
  let language := lower (strip language) in
  let fallback := lower (strip fallback) in
  match first_with element_list attribute language with
  | NoItem => first_with element_list attribute fallback
  | found => found
  end.
End ChooseLanguage.

(* ================================================================== *)
(** ** Reading the configuration *)
(* ================================================================== *)

(** The options of [configs/i18n.ini]. *)
Definition config := list (str * str).

(** [get_config().get(key, default)] *)
Definition config_get (cfg : config) (key default : str) : str :=
  match getitem cfg key with Some v => v | None => default end.

(** [x in ("true", "True", "1")] *)
Definition is_true (x : str) : bool :=
  existsb (str_eqb x) [py "true"; py "True"; py "1"].

(** The attributes that [on_setup_env] sets from the configuration. *)
Record settings := {
  enabled : bool;
  i18npath : str;
  url_prefix : str;
  trans_parwise_setting : bool;
  content_language : str;
  translations_languages : list str
}.

Definition missing_translations : str :=
  py "Please specify the 'translations' configuration option in configs/i18n.ini".

(** [I18NPlugin.on_setup_env]: the settings read, or the message of the
    [RuntimeError].  (The registrations with the template engine are not
    part of the model.) *)
Definition on_setup_env (cfg : config) : settings + str :=
  let enabled := is_true (config_get cfg (py "enable") (py "true")) in
  let i18npath := config_get cfg (py "i18npath") (py "i18n") in
  let url_prefix := config_get cfg (py "url_prefix") (py "http://localhost/") in
  let trans_parwise :=
    is_true (config_get cfg (py "translate_paragraphwise") (py "false")) in
  let content_language := config_get cfg (py "content") (py "en") in
  match getitem cfg (py "translations") with
  | None => inr missing_translations
  | Some v =>
      let translations_languages :=
        split_on 44%N (replace [SPACE] [] None v) in
      inl {| enabled := enabled;
             i18npath := i18npath;
             url_prefix := url_prefix;
             trans_parwise_setting := trans_parwise;
             content_language := content_language;
             translations_languages :=
               if existsb (str_eqb content_language) translations_languages
               then translations_languages
               else translations_languages ++ [content_language] |}
  end.

(* ================================================================== *)
(** ** Recording the texts of a section *)
(* ================================================================== *)

(** The [chunks] of [process_node] for the lines of one section. *)
Definition section_chunks (trans_parwise_mode : bool) (section : list str)
    : list str :=
  if trans_parwise_mode then split_paragraphs (concat section)
  else map strip
         (filter (fun x => match strip x with [] => false | _ :: _ => true end)
                 section).

(** The loop [for chunk in chunks: translations.add(...)] of
    [process_node]; [source] is the provenance text built from the page
    and the field. *)
Definition add_section (trans_parwise_mode : bool) (section : list str)
    (source : str) (tr : Translations.t) : Translations.t :=
  fold_left (fun tr chunk => Translations.add (strip_chars [CR; NL] chunk) source tr)
            (section_chunks trans_parwise_mode section) tr.

(* ================================================================== *)
(** ** Vocabulary of the statements *)
(* ================================================================== *)

(** No two neighbours of a chunk sequence have the same kind. *)
Fixpoint no_adjacent_same (l : list span) : Prop :=
  match l with
  | a :: (b :: _) as l' => fst a <> fst b /\ no_adjacent_same l'
  | _ => True
  end.

(** A chunk of one of the two kinds the parser knows. *)
Definition known_kind (b : span) : Prop :=
  fst b = raw \/ fst b = translatable.

(** The test of the branch of [step] that starts a new block. *)
Definition boundary (st : pstate) (line : str) : bool :=
  line_starts_new_block (strip line) (prev_line st)
  || is_some (search block2re (strip line)).

(** The key and the value that a first line of a block is split into,
    whatever the previous line was: [None] when the line is blank, is a
    row of dashes or a block tag, or has no header. *)
Definition header_of (line : str) : option (str * option str) :=
  match strip line with
  | [] => None
  | _ :: _ =>
      if str_eqb (strip (strip line)) (times DASH (length (strip (strip line))))
         && (3 <=? length (strip (strip line)))
         || is_some (search block2re (strip line))
      then None
      else match search command_re (strip line) with
           | Some m => Some (text_of (group 1 m), group 2 m)
           | None => None
           end
  end.

(** The last line of [lines] that is not blank, if any. *)
Fixpoint last_nonblank (lines : list str) : option str :=
  match lines with
  | [] => None
  | l :: rest =>
      match last_nonblank rest with
      | Some p => Some p
      | None => match strip l with [] => None | _ :: _ => Some l end
      end
  end.

(** Whether the last non-blank line of [lines] has a colon. *)
Definition colon_before (lines : list str) : bool :=
  match last_nonblank lines with
  | Some p => contains COLON p
  | None => false
  end.

(** The header [key: value] as the parser writes it back. *)
Definition header_text (m : rmatch) : str :=
  text_of (group 1 m) ++ [COLON]
  ++ (if truthy (group 2 m) then SPACE :: text_of (group 2 m) else [])
  ++ [NL].

(** The line comes back from the parser in the state [st] as it is: a
    blank line is the bare newline, and a line that is taken as a header
    (the first line of a block, no block start, on which [command_re] finds
    a match) is that header in the parser's own layout. *)
Definition laid_out (st : pstate) (line : str) : bool :=
  match strip line with
  | [] => str_eqb line [NL]
  | _ :: _ =>
      if boundary st line then true
      else if (count_lines_block st =? 0) && negb (is_content st)
      then match search command_re (strip line) with
           | Some m => str_eqb line (header_text m)
           | None => true
           end
      else true
  end.

(** Every line of the document is laid out so, each in the state in which
    the parser meets it. *)
Fixpoint laid_out_from (st : pstate) (lines : list str) : bool :=
  match lines with
  | [] => true
  | l :: rest => laid_out st l && laid_out_from (step st l) rest
  end.

(** A line as [readlines()] gives it: no newline but, possibly, its last
    character. *)
Definition one_line (line : str) : bool :=
  negb (contains NL (removelast line)).

(** No newline of [t] is followed by another with only white space in
    between, nor is the first newline when [seen] is false and only white
    space precedes it: [seen] tells whether a character other than white
    space was met since the last newline. *)
Fixpoint par_free (seen : bool) (t : str) : bool :=
  match t with
  | [] => true
  | c :: t' =>
      if N.eqb c NL then seen && par_free false t'
      else par_free (seen || negb (isspace c)) t'
  end.

(** A translatable chunk whose text has no paragraph break. *)
Definition unbroken (b : span) : Prop :=
  fst b = translatable -> par_free false (snd b) = true.

(** The escape of one character in a [msgid]. *)
Definition escape_char (c : char) : str :=
  if N.eqb c BSLASH then [BSLASH; BSLASH]
  else if N.eqb c NL then Translations.backslash_n
  else if N.eqb c TAB then Translations.backslash_t
  else if N.eqb c QUOTE then [BSLASH; QUOTE]
  else [c].

(** [a] does not come after [b] in Python's order of the entries. *)
Definition entry_le (a b : list str * str) : Prop := entry_ltb b a = false.

(** [self.translations[text]], [None] when [text] is no key. *)
Fixpoint sources_of (text : str) (tr : Translations.t) : option (list str) :=
  match tr with
  | [] => None
  | (msg, paths) :: tr' =>
      if str_eqb msg text then Some paths else sources_of text tr'
  end.

(** The memory after the calls [add(text, source)] of [calls], in order,
    from the empty memory. *)
Definition added (calls : list (str * str)) : Translations.t :=
  fold_left (fun tr c => Translations.add (fst c) (snd c) tr) calls [].

(** A memory without a repeated text, in which no text has a repeated
    source or no source at all. *)
Definition deduplicated (tr : Translations.t) : Prop :=
  NoDup (map fst tr)
  /\ Forall (fun it => NoDup (snd it) /\ snd it <> []) tr.

(** The memory holds [source] among the sources of [text]. *)
Definition recorded (text source : str) (tr : Translations.t) : Prop :=
  exists paths, In (text, paths) tr /\ In source paths.

(** The previous line, if any, has no colon. *)
Definition no_colon_before (st : pstate) : Prop :=
  match prev_line st with
  | None => True
  | Some p => contains COLON p = false
  end.

(** Two items with the same text and the same sources, in any order. *)
Definition same_item (a b : str * list str) : Prop :=
  fst a = fst b /\ Permutation (snd a) (snd b).

(** The elements that [choose_language] passes over and the one it stops
    at: an element [differs] when it has the attribute and its value,
    stripped and lowered, is not the wanted one; it [agrees] when the value
    is the wanted one. *)
Definition differs (lower : str -> str) (attribute wanted : str)
    (item : element) : Prop :=
  exists v, getitem item attribute = Some v /\ lower (strip v) <> wanted.

Definition agrees (lower : str -> str) (attribute wanted : str)
    (item : element) : Prop :=
  exists v, getitem item attribute = Some v /\ lower (strip v) = wanted.

(** [item] is the first element of the list that agrees, and every element
    before it has the attribute. *)
Definition first_agreeing (lower : str -> str) (element_list : list element)
    (attribute wanted : str) (item : element) : Prop :=
  exists pre post,
    element_list = pre ++ item :: post
    /\ Forall (differs lower attribute wanted) pre
    /\ agrees lower attribute wanted item.

(** An element without the attribute comes before any that agrees. *)
Definition first_lacking (lower : str -> str) (element_list : list element)
    (attribute wanted : str) : Prop :=
  exists pre item post,
    element_list = pre ++ item :: post
    /\ Forall (differs lower attribute wanted) pre
    /\ getitem item attribute = None.

(** The list of paths after [source] was recorded for a text. *)
Definition with_source (source : str) (paths : option (list str)) : list str :=
  match paths with
  | None => [source]
  | Some paths =>
      if existsb (str_eqb source) paths then paths else paths ++ [source]
  end.

(** The texts that [process_node] records for a section. *)
Definition section_texts (trans_parwise_mode : bool) (section : list str)
    : list str :=
  map (strip_chars [CR; NL]) (section_chunks trans_parwise_mode section).

(** What [translate_contents] writes for one chunk of the parser. *)
Definition chunk_output (gettext : str -> str) (trans_parwise_mode : bool)
    (b : span) : str :=
  if str_eqb (fst b) raw then snd b
  else if trans_parwise_mode then trans_parwise gettext (snd b)
       else trans_linewise gettext (snd b).

(** A pattern without [^] and [$]: what it matches does not depend on
    where the word stands. *)
Fixpoint anchor_free (r : regex) : bool :=
  match r with
  | Lit _ | Class _ => true
  | Bol | Eol => false
  | Seq r1 r2 => anchor_free r1 && anchor_free r2
  | Star _ r1 | Opt _ r1 | Group _ r1 => anchor_free r1
  end.

(** The characters that a strip removes before the text that is left,
    and those it removes after it (none when nothing is left). *)
Fixpoint leading (p : char -> bool) (s : str) : str :=
  match s with
  | [] => []
  | c :: s' => if p c then c :: leading p s' else []
  end.

Definition trailing (p : char -> bool) (s : str) : str :=
  rev (leading p (rev (lstrip_by p s))).

(** One line of a translatable chunk, translated by [gettext]: the white
    space around its stripped text is kept, a blank line is left alone. *)
Definition translated_line (gettext : str -> str) (line : str) : str :=
  leading isspace line
  ++ match strip line with [] => [] | _ :: _ => gettext (strip line) end
  ++ trailing isspace line.

(** The characters that [strip("\n\r")] removes. *)
Definition is_newline (c : char) : bool := existsb (N.eqb c) [NL; CR].

(** One paragraph of a translatable chunk, translated by [gettext]: the
    newlines around its stripped text are kept; of a paragraph that is
    newlines only, every gap between two characters and both ends receive
    the translation of the empty text. *)
Definition translated_paragraph (gettext : str -> str) (paragraph : str) : str :=
  match strip_chars [NL; CR] paragraph with
  | [] => replace [] (gettext []) None paragraph
  | _ :: _ =>
      leading is_newline paragraph
      ++ gettext (strip_chars [NL; CR] paragraph)
      ++ trailing is_newline paragraph
  end.

(** The chunk that one line adds to the parser's list when it is neither
    a header nor a block start. *)
Definition plain_chunk (line : str) : span :=
  match strip line with
  | [] => (raw, [NL])
  | _ :: _ => (translatable, line)
  end.

(* ================================================================== *)
(** * Properties *)
(* ================================================================== *)

(** ** The matcher finds a match exactly when the pattern has one *)

Section MatcherFacts.
Variable A : Type.
Implicit Types (k : cont A) (r : regex).

Lemma orelse_some (a b : option A) x :
  orelse a b = Some x -> a = Some x \/ b = Some x.
Proof. destruct a; simpl; intros H; [left | right]; assumption. Qed.

Lemma orelse_not_none (a b : option A) :
  a <> None \/ b <> None -> orelse a b <> None.
Proof.
  destruct a; simpl; intros [H | H]; try discriminate; try assumption.
  now elim H.
Qed.

Lemma star_loop_sound r greedy k :
  (forall pos s caps k' a,
      run r pos s caps k' = Some a -> reaches r k' pos s a) ->
  forall fuel pos s caps a,
    star_loop (run (A:=A) r) greedy k fuel pos s caps = Some a ->
    reaches (Star greedy r) k pos s a.
Proof.
  intros IHr. induction fuel as [|fuel IH]; intros pos s caps a H.
  - simpl in H. exists [], s, caps. rewrite Nat.add_0_r.
    repeat split; [constructor | assumption].
  - simpl in H.
    assert (Hk : k pos s caps = Some a -> reaches (Star greedy r) k pos s a).
    { intros Hk. exists [], s, caps. rewrite Nat.add_0_r.
      repeat split; [constructor | assumption]. }
    assert (Hagain :
      run r pos s caps
        (fun pos' s' caps' =>
           if length s' <? length s
           then star_loop (run (A:=A) r) greedy k fuel pos' s' caps'
           else None) = Some a -> reaches (Star greedy r) k pos s a).
    { intros Hr. apply IHr in Hr.
      destruct Hr as (w1 & rest1 & caps1 & Hs & Hm & Hc).
      destruct (length rest1 <? length s) eqn:Hlt; [|discriminate].
      apply Nat.ltb_lt in Hlt.
      apply IH in Hc. destruct Hc as (w2 & rest & caps2 & Hs2 & Hm2 & Hc2).
      exists (w1 ++ w2), rest, caps2. subst.
      rewrite <- app_assoc, length_app, Nat.add_assoc.
      repeat split; [|assumption].
      simpl. constructor; [|assumption|assumption].
      intros ->. simpl in Hlt. lia. }
    destruct greedy; apply orelse_some in H; destruct H; auto.
Qed.

Lemma run_sound r :
  forall pos s caps k a,
    run r pos s caps k = Some a -> reaches r k pos s a.
Proof.
  induction r as [c | p | | | r1 IH1 r2 IH2 | g r1 IH1 | g r1 IH1 | n r1 IH1];
    intros pos s caps k a H; simpl in H.
  - destruct s as [|x s']; [discriminate|].
    destruct (N.eqb x c) eqn:E; [|discriminate].
    apply N.eqb_eq in E; subst x.
    exists [c], s', caps. simpl. rewrite Nat.add_1_r. auto.
  - destruct s as [|x s']; [discriminate|].
    destruct (p x) eqn:E; [|discriminate].
    exists [x], s', caps. simpl. rewrite Nat.add_1_r. eauto 6.
  - destruct (Nat.eqb pos 0) eqn:E; [|discriminate].
    apply Nat.eqb_eq in E.
    exists [], s, caps. simpl. rewrite Nat.add_0_r. auto.
  - exists [], s, caps. simpl. rewrite Nat.add_0_r.
    destruct s as [|x [|y s']]; try discriminate; auto.
    destruct (N.eqb x NL) eqn:E; [|discriminate].
    apply N.eqb_eq in E; subst. auto.
  - apply IH1 in H. destruct H as (w1 & rest1 & caps1 & -> & Hm1 & H).
    apply IH2 in H. destruct H as (w2 & rest & caps2 & -> & Hm2 & H).
    exists (w1 ++ w2), rest, caps2.
    rewrite <- app_assoc, length_app, Nat.add_assoc.
    repeat split; [|assumption].
    simpl. exists w1, w2. auto.
  - eapply star_loop_sound; eauto.
  - assert (Hk : k pos s caps = Some a -> reaches (Opt g r1) k pos s a).
    { intros Hk. exists [], s, caps. simpl. rewrite Nat.add_0_r. auto. }
    assert (Hr : run r1 pos s caps k = Some a -> reaches (Opt g r1) k pos s a).
    { intros Hr. apply IH1 in Hr.
      destruct Hr as (w & rest & caps' & -> & Hm & Hr).
      exists w, rest, caps'. simpl. auto. }
    destruct g; apply orelse_some in H; destruct H; auto.
  - apply IH1 in H. destruct H as (w & rest & caps' & -> & Hm & H).
    exists w, rest, ((n, firstn (pos + length w - pos) (w ++ rest)) :: caps').
    simpl. auto.
Qed.

Lemma star_loop_complete r greedy k :
  (forall pos w rest caps k',
      matches r pos w rest -> accepts k' (pos + length w) rest ->
      run r pos (w ++ rest) caps k' <> None) ->
  forall pos w rest,
    star_of (matches r) pos w rest ->
    accepts k (pos + length w) rest ->
    forall fuel caps, length (w ++ rest) <= fuel ->
    star_loop (run (A:=A) r) greedy k fuel pos (w ++ rest) caps <> None.
Proof.
  intros IHr pos w rest Hstar.
  induction Hstar as [pos rest | pos w1 w2 rest Hne Hm Hstar IH];
    intros Hk fuel caps Hfuel.
  - simpl in *. rewrite Nat.add_0_r in Hk.
    destruct fuel; simpl; [apply Hk|].
    destruct greedy; apply orelse_not_none; auto.
  - destruct fuel as [|fuel].
    { destruct w1; [congruence | simpl in Hfuel; lia]. }
    simpl.
    assert (Hagain :
      run r pos ((w1 ++ w2) ++ rest) caps
        (fun pos' s' caps' =>
           if length s' <? length ((w1 ++ w2) ++ rest)
           then star_loop (run (A:=A) r) greedy k fuel pos' s' caps'
           else None) <> None).
    { rewrite <- app_assoc. apply IHr; [assumption|].
      intros caps'.
      assert (Hlt : length (w2 ++ rest) < length (w1 ++ w2 ++ rest)).
      { rewrite (length_app w1). destruct w1; [congruence | simpl; lia]. }
      apply Nat.ltb_lt in Hlt. rewrite Hlt.
      apply IH.
      - rewrite length_app, Nat.add_assoc in Hk. assumption.
      - apply Nat.ltb_lt in Hlt. rewrite <- app_assoc in Hfuel. lia. }
    destruct greedy; apply orelse_not_none; auto.
Qed.

Lemma run_complete r :
  forall pos w rest caps k,
    matches r pos w rest -> accepts k (pos + length w) rest ->
    run r pos (w ++ rest) caps k <> None.
Proof.
  induction r as [c | p | | | r1 IH1 r2 IH2 | g r1 IH1 | g r1 IH1 | n r1 IH1];
    intros pos w rest caps k Hm Hk; simpl in Hm.
  - subst w. simpl. rewrite N.eqb_refl.
    simpl in Hk. rewrite Nat.add_1_r in Hk. apply Hk.
  - destruct Hm as (x & -> & Hp). simpl. rewrite Hp.
    simpl in Hk. rewrite Nat.add_1_r in Hk. apply Hk.
  - destruct Hm as (-> & ->). simpl. apply Hk.
  - destruct Hm as (-> & Hrest). simpl in *. rewrite Nat.add_0_r in Hk.
    destruct Hrest as [-> | ->]; simpl; apply Hk.
  - destruct Hm as (w1 & w2 & -> & Hm1 & Hm2).
    simpl. rewrite <- app_assoc. apply IH1; [assumption|].
    intros caps'. apply IH2; [assumption|].
    rewrite length_app, Nat.add_assoc in Hk. assumption.
  - simpl. apply star_loop_complete; auto.
  - simpl. destruct Hm as [-> | Hm].
    + simpl in *. rewrite Nat.add_0_r in Hk.
      destruct g; apply orelse_not_none; auto.
    + specialize (IH1 pos w rest caps k Hm Hk).
      destruct g; apply orelse_not_none; auto.
  - simpl. apply IH1; [assumption|].
    intros caps'. apply Hk.
Qed.
End MatcherFacts.

(** ** [search] *)

Lemma match_at_sound r pos s m :
  match_at r pos s = Some m ->
  exists w rest, s = w ++ rest /\ matches r pos w rest
                 /\ m_start m = pos /\ m_end m = pos + length w.
Proof.
  unfold match_at. intros H. apply run_sound in H.
  destruct H as (w & rest & caps & Hs & Hm & H).
  injection H as <-. exists w, rest. simpl. auto.
Qed.

Lemma search_from_sound r : forall s pos m,
  search_from r pos s = Some m ->
  exists pre w rest,
    s = pre ++ w ++ rest /\ matches r (pos + length pre) w rest
    /\ m_start m = pos + length pre /\ m_end m = pos + length pre + length w.
Proof.
  induction s as [|c s IH]; intros pos m H; simpl in H.
  - destruct (match_at r pos []) eqn:E; [|discriminate].
    injection H as ->. apply match_at_sound in E.
    destruct E as (w & rest & Hs & Hm & H1 & H2).
    exists [], w, rest. simpl. rewrite Nat.add_0_r. auto.
  - destruct (match_at r pos (c :: s)) eqn:E.
    + injection H as ->. apply match_at_sound in E.
      destruct E as (w & rest & Hs & Hm & H1 & H2).
      exists [], w, rest. simpl. rewrite Nat.add_0_r. auto.
    + apply IH in H. destruct H as (pre & w & rest & -> & Hm & H1 & H2).
      exists (c :: pre), w, rest. simpl.
      rewrite <- Nat.add_succ_comm. auto.
Qed.

Lemma search_none r s :
  (forall pre w rest, s = pre ++ w ++ rest -> ~ matches r (length pre) w rest) ->
  search r s = None.
Proof.
  intros H. destruct (search r s) as [m|] eqn:E; [|reflexivity].
  apply search_from_sound in E.
  destruct E as (pre & w & rest & Hs & Hm & _). simpl in Hm.
  elim (H pre w rest Hs Hm).
Qed.

Lemma match_at_complete r pos w rest :
  matches r pos w rest -> match_at r pos (w ++ rest) <> None.
Proof.
  intros H. unfold match_at. apply run_complete; [assumption|].
  intros caps. discriminate.
Qed.

Lemma search_complete r w rest :
  matches r 0 w rest -> is_some (search r (w ++ rest)) = true.
Proof.
  intros H. apply match_at_complete in H.
  unfold search. destruct (w ++ rest); simpl;
    destruct (match_at r 0 _); simpl; congruence.
Qed.

(** ** Strings *)

Lemma str_eqb_eq a : forall b, str_eqb a b = true <-> a = b.
Proof.
  induction a as [|x a IH]; intros [|y b]; simpl; split; try congruence.
  - intros H. apply andb_true_iff in H. destruct H as [H1 H2].
    apply N.eqb_eq in H1. apply IH in H2. congruence.
  - intros H. injection H as -> ->. rewrite N.eqb_refl. now apply IH.
Qed.

Lemma str_eqb_refl a : str_eqb a a = true.
Proof. now apply str_eqb_eq. Qed.

Lemma str_eqb_neq a b : a <> b -> str_eqb a b = false.
Proof.
  intros H. destruct (str_eqb a b) eqn:E; [|reflexivity].
  apply str_eqb_eq in E. contradiction.
Qed.

Lemma contains_app c a b : contains c (a ++ b) = contains c a || contains c b.
Proof. apply existsb_app. Qed.

Lemma contains_false_in c s : contains c s = false -> ~ In c s.
Proof.
  unfold contains. intros H Hin.
  assert (existsb (N.eqb c) s = true).
  { apply existsb_exists. exists c. split; [assumption | apply N.eqb_refl]. }
  congruence.
Qed.

Lemma contains_true_in c s : contains c s = true -> In c s.
Proof.
  unfold contains. intros H. apply existsb_exists in H.
  destruct H as (x & Hin & E). apply N.eqb_eq in E. now subst.
Qed.

Lemma rev_times c n : rev (times c n) = times c n.
Proof.
  unfold times. induction n as [|n IH]; [reflexivity|].
  simpl. rewrite IH. clear IH.
  induction n as [|n IH]; [reflexivity|]. simpl. now rewrite IH.
Qed.

Lemma strip_by_times p c n : p c = false -> strip_by p (times c n) = times c n.
Proof.
  intros Hp. unfold strip_by, rstrip_by.
  assert (H : forall m, lstrip_by p (times c m) = times c m).
  { intros [|m]; simpl; [reflexivity | now rewrite Hp]. }
  now rewrite H, rev_times, H, rev_times.
Qed.

Lemma length_times c n : length (times c n) = n.
Proof. apply repeat_length. Qed.

(** ** The span merger *)

Lemma merge_snoc l b : merge (l ++ [b]) = merge_into (merge l) (fst b) (snd b).
Proof. unfold merge. now rewrite fold_left_app. Qed.

Lemma merge_into_text nb type data :
  concat_text (merge_into nb type data) = concat_text nb ++ data.
Proof.
  unfold concat_text.
  induction nb as [|[t d] nb IH]; simpl; [now rewrite app_nil_r|].
  destruct nb as [|b nb'].
  - destruct (str_eqb t type); simpl; now rewrite ?app_nil_r.
  - change (concat (map snd ((t, d) :: merge_into (b :: nb') type data))
            = (d ++ concat (map snd (b :: nb'))) ++ data).
    simpl concat at 1. simpl map at 1. simpl. simpl in IH.
    rewrite <- app_assoc. f_equal. exact IH.
Qed.

Lemma merge_text l : concat_text (merge l) = concat_text l.
Proof.
  induction l as [|b l IH] using rev_ind; [reflexivity|].
  rewrite merge_snoc, merge_into_text, IH.
  unfold concat_text. rewrite map_app, concat_app. simpl.
  now rewrite app_nil_r.
Qed.

Lemma merge_into_head a nb type data :
  exists d', merge_into (a :: nb) type data = (fst a, d') :: tl (merge_into (a :: nb) type data).
Proof.
  destruct a as [t d]. destruct nb as [|b nb]; simpl.
  - destruct (str_eqb t type); eexists; reflexivity.
  - eexists; reflexivity.
Qed.

Lemma merge_into_no_adjacent nb type data :
  no_adjacent_same nb -> no_adjacent_same (merge_into nb type data).
Proof.
  induction nb as [|a nb IH]; intros H; [exact I|].
  destruct nb as [|b nb].
  - destruct a as [t d]. simpl.
    destruct (str_eqb t type) eqn:E; simpl; [exact I|].
    split; [|exact I]. intros ->. now rewrite str_eqb_refl in E.
  - destruct H as [Hab H]. specialize (IH H).
    destruct (merge_into_head b nb type data) as [d' Hd].
    destruct a as [t d].
    change (merge_into ((t, d) :: b :: nb) type data)
      with ((t, d) :: merge_into (b :: nb) type data).
    rewrite Hd in *. split; assumption.
Qed.

Lemma merge_no_adjacent l : no_adjacent_same (merge l).
Proof.
  induction l as [|b l IH] using rev_ind; [exact I|].
  rewrite merge_snoc. now apply merge_into_no_adjacent.
Qed.

Lemma no_adjacent_snoc l b :
  no_adjacent_same (l ++ [b]) -> no_adjacent_same l.
Proof.
  induction l as [|a l IH]; intros H; [exact I|].
  destruct l as [|a' l]; [exact I|].
  destruct H as [Hne H]. split; [assumption | now apply IH].
Qed.

Lemma merge_into_distinct nb b :
  no_adjacent_same (nb ++ [b]) -> merge_into nb (fst b) (snd b) = nb ++ [b].
Proof.
  induction nb as [|a nb IH]; intros H.
  - now destruct b.
  - destruct nb as [|a' nb].
    + destruct a as [t d], b as [t' d']. simpl in *.
      destruct H as [Hne _]. now rewrite (str_eqb_neq Hne).
    + destruct H as [Hne H]. destruct a as [t d].
      change ((t, d) :: merge_into (a' :: nb) (fst b) (snd b)
              = (t, d) :: (a' :: nb) ++ [b]).
      f_equal. now apply IH.
Qed.

Lemma merge_fixed l : no_adjacent_same l -> merge l = l.
Proof.
  induction l as [|b l IH] using rev_ind; intros H; [reflexivity|].
  rewrite merge_snoc, (IH (no_adjacent_snoc _ _ H)).
  now apply merge_into_distinct.
Qed.

(** C7 (Span Merger): merging an already merged sequence returns it
    unchanged, no two neighbours of a merged sequence have the same kind,
    and merging keeps the concatenation of the texts. *)
Theorem C7_merge_idempotent (l : list span) :
  merge (merge l) = merge l
  /\ no_adjacent_same (merge l)
  /\ concat_text (merge l) = concat_text l.
Proof.
  split; [|split].
  - apply merge_fixed, merge_no_adjacent.
  - apply merge_no_adjacent.
  - apply merge_text.
Qed.

(** ** The four cases of one parser step *)

Lemma step_blank st line :
  strip line = [] ->
  step st line =
    {| blocks := blocks st ++ [(raw, [NL])];
       count_lines_block := count_lines_block st;
       is_content := is_content st;
       prev_line := prev_line st |}.
Proof. intros H. unfold step. now rewrite H. Qed.

Lemma step_new_block st line :
  strip line <> [] -> boundary st line = true ->
  step st line =
    {| blocks := blocks st ++ [(raw, line)];
       count_lines_block := 0;
       is_content := false;
       prev_line := Some line |}.
Proof.
  unfold boundary, step. intros Hne Hb.
  destruct (strip line) as [|c s] eqn:E; [congruence|].
  now rewrite Hb.
Qed.

Lemma step_header st line m :
  strip line <> [] -> boundary st line = false ->
  count_lines_block st = 0 -> is_content st = false ->
  search command_re (strip line) = Some m ->
  step st line =
    {| blocks := blocks st ++ [(raw, text_of (group 1 m) ++ [COLON])]
                   ++ (if truthy (group 2 m)
                       then [(raw, [SPACE]); (translatable, text_of (group 2 m))]
                       else [])
                   ++ [(raw, [NL])];
       count_lines_block := 1;
       is_content := false;
       prev_line := Some line |}.
Proof.
  unfold boundary, step. intros Hne Hb Hc Hi Hm.
  destruct (strip line) as [|c s] eqn:E; [congruence|].
  rewrite Hb, Hc, Hi, Hm. reflexivity.
Qed.

Lemma step_content st line :
  strip line <> [] -> boundary st line = false ->
  count_lines_block st <> 0 \/ is_content st = true
  \/ search command_re (strip line) = None ->
  step st line =
    {| blocks := blocks st ++ [(translatable, line)];
       count_lines_block := S (count_lines_block st);
       is_content := true;
       prev_line := Some line |}.
Proof.
  unfold boundary, step. intros Hne Hb H.
  destruct (strip line) as [|c s] eqn:E; [congruence|].
  rewrite Hb.
  destruct ((S (count_lines_block st) =? 1) && negb (is_content st)) eqn:Ht;
    [|reflexivity].
  destruct (search command_re (c :: s)) eqn:Hs; [|reflexivity].
  apply andb_true_iff in Ht. destruct Ht as [H1 H2].
  apply Nat.eqb_eq in H1. apply negb_true_iff in H2.
  destruct H as [H | [H | H]]; [lia | congruence | congruence].
Qed.

(** One step is one of the four. *)
Lemma step_cases st line :
  (strip line = [] /\
   step st line =
     {| blocks := blocks st ++ [(raw, [NL])];
        count_lines_block := count_lines_block st;
        is_content := is_content st;
        prev_line := prev_line st |})
  \/ (strip line <> [] /\ boundary st line = true /\
      step st line =
        {| blocks := blocks st ++ [(raw, line)];
           count_lines_block := 0;
           is_content := false;
           prev_line := Some line |})
  \/ (exists m,
        strip line <> [] /\ boundary st line = false /\
        count_lines_block st = 0 /\ is_content st = false /\
        search command_re (strip line) = Some m /\
        step st line =
          {| blocks := blocks st ++ [(raw, text_of (group 1 m) ++ [COLON])]
                         ++ (if truthy (group 2 m)
                             then [(raw, [SPACE]);
                                   (translatable, text_of (group 2 m))]
                             else [])
                         ++ [(raw, [NL])];
             count_lines_block := 1;
             is_content := false;
             prev_line := Some line |})
  \/ (strip line <> [] /\ boundary st line = false /\
      step st line =
        {| blocks := blocks st ++ [(translatable, line)];
           count_lines_block := S (count_lines_block st);
           is_content := true;
           prev_line := Some line |}).
Proof.
  destruct (strip line) as [|c s] eqn:E.
  { left. split; [reflexivity | now apply step_blank]. }
  assert (Hne : strip line <> []) by congruence.
  rewrite <- E. right.
  destruct (boundary st line) eqn:Hb.
  { left. repeat split; [assumption | now apply step_new_block]. }
  right.
  destruct (Nat.eq_dec (count_lines_block st) 0) as [Hc | Hc].
  - destruct (is_content st) eqn:Hi.
    + right. repeat split; try assumption. apply step_content; auto.
    + destruct (search command_re (strip line)) as [m|] eqn:Hm.
      * left. exists m. repeat split; try assumption.
        now apply step_header.
      * right. repeat split; try assumption. apply step_content; auto.
  - right. repeat split; try assumption. apply step_content; auto.
Qed.

Lemma line_starts_new_block_dashes line prev :
  line_starts_new_block line prev = true ->
  str_eqb (strip line) (times DASH (length (strip line)))
  && (3 <=? length (strip line)) = true.
Proof.
  unfold line_starts_new_block. destruct prev as [p|]; [|discriminate].
  destruct (match p with [] => true | _ :: _ => negb (contains COLON p) end);
    [discriminate | auto].
Qed.

Lemma scan_snoc st lines line :
  scan st (lines ++ [line]) = step (scan st lines) line.
Proof. unfold scan. now rewrite fold_left_app. Qed.

(** ** Kinds *)

(** The blocks a header line appends. *)
Lemma header_blocks_known m :
  Forall known_kind
    ([(raw, text_of (group 1 m) ++ [COLON])]
       ++ (if truthy (group 2 m)
           then [(raw, [SPACE]); (translatable, text_of (group 2 m))]
           else [])
       ++ [(raw, [NL])]).
Proof.
  destruct (truthy (group 2 m)); repeat constructor;
    (now left) || (now right).
Qed.

Lemma step_known st line :
  Forall known_kind (blocks st) -> Forall known_kind (blocks (step st line)).
Proof.
  intros H.
  destruct (step_cases st line)
    as [(_ & ->) | [(_ & _ & ->) | [(m & _ & _ & _ & _ & _ & ->) | (_ & _ & ->)]]];
    simpl; apply Forall_app; (split; [assumption|]).
  - repeat constructor.
  - repeat constructor.
  - apply header_blocks_known.
  - constructor; [now right | constructor].
Qed.

Lemma scan_known lines : forall st,
  Forall known_kind (blocks st) -> Forall known_kind (blocks (scan st lines)).
Proof.
  induction lines as [|l lines IH]; intros st H; [assumption|].
  simpl. apply IH. now apply step_known.
Qed.

(** Merging keeps what holds of the kinds alone. *)
Lemma merge_into_kinds (K : str -> Prop) nb type data :
  Forall (fun b => K (fst b)) nb -> K type ->
  Forall (fun b => K (fst b)) (merge_into nb type data).
Proof.
  induction nb as [|[t d] nb IH]; intros H Ht.
  - repeat constructor. assumption.
  - inversion H as [|? ? Ha Hnb]; subst. destruct nb as [|b nb].
    + simpl. destruct (str_eqb t type); repeat constructor; assumption.
    + change (merge_into ((t, d) :: b :: nb) type data)
        with ((t, d) :: merge_into (b :: nb) type data).
      constructor; [assumption | now apply IH].
Qed.

Lemma merge_kinds (K : str -> Prop) l :
  Forall (fun b => K (fst b)) l -> Forall (fun b => K (fst b)) (merge l).
Proof.
  induction l as [|b l IH] using rev_ind; intros H; [constructor|].
  apply Forall_app in H. destruct H as [Hl Hb].
  rewrite merge_snoc. apply merge_into_kinds; [now apply IH|].
  now inversion Hb.
Qed.

Lemma parse_known lines : Forall known_kind (parse_source_structure lines).
Proof.
  unfold parse_source_structure.
  apply (merge_kinds (fun k => k = raw \/ k = translatable)).
  apply scan_known. constructor.
Qed.

Lemma write_chunks_app gettext mode pre : forall f post,
  Forall known_kind pre ->
  write_chunks gettext mode f (pre ++ post) =
  write_chunks gettext mode (file (write_chunks gettext mode f pre)) post
  /\ raised (write_chunks gettext mode f pre) = None.
Proof.
  induction pre as [|[k c] pre IH]; intros f post H; [now split|].
  inversion H as [|? ? Hk Hpre]; subst. simpl.
  destruct Hk as [Hk | Hk]; simpl in Hk; subst k.
  - rewrite str_eqb_refl. now apply IH.
  - replace (str_eqb translatable raw) with false by reflexivity.
    rewrite str_eqb_refl. now apply IH.
Qed.

(** C8 (unknown chunk kind): every chunk the parser returns is [raw] or
    [translatable]; and when a chunk of another kind reaches the loop of
    the reconstructor after chunks of these two kinds, the loop stops with
    the [RuntimeError]: the output holds what the chunks before it wrote
    and nothing of this chunk or the later ones. *)
Theorem C8_unknown_kind_aborts
    (gettext : str -> str) (mode : bool) (lines : list str)
    (pre post : list span) (kind content : str) :
  kind <> raw -> kind <> translatable -> Forall known_kind pre ->
  Forall known_kind (parse_source_structure lines)
  /\ raised (write_chunks gettext mode [] (pre ++ (kind, content) :: post))
     = Some unknown_chunk
  /\ file (write_chunks gettext mode [] (pre ++ (kind, content) :: post))
     = file (write_chunks gettext mode [] pre)
  /\ raised (write_chunks gettext mode [] pre) = None.
Proof.
  intros Hr Ht Hpre. split; [apply parse_known|].
  destruct (write_chunks_app gettext mode [] ((kind, content) :: post) Hpre)
    as [-> Hnone].
  simpl. rewrite (str_eqb_neq Hr), (str_eqb_neq Ht). simpl. auto.
Qed.

Lemma C8_unknown_kind_aborts_witness :
  let pre := [(raw, py "a"); (translatable, py "b")] in
  let chunks := pre ++ (py "comment", py "c") :: [(raw, py "d")] in
  raised (write_chunks (fun x => x) false [] chunks) = Some unknown_chunk
  /\ file (write_chunks (fun x => x) false [] chunks) = py "ab".
Proof.
  assert (H1 : py "comment" <> raw) by (vm_compute; discriminate).
  assert (H2 : py "comment" <> translatable) by (vm_compute; discriminate).
  assert (H3 : Forall known_kind [(raw, py "a"); (translatable, py "b")]).
  { constructor; [now left|]. constructor; [now right | constructor]. }
  destruct (C8_unknown_kind_aborts (fun x => x) false [] [(raw, py "d")]
              (py "c") H1 H2 H3) as (_ & Hr & Hf & _).
  split; [exact Hr|]. exact (eq_trans Hf eq_refl).
Defined.

(** ** Header lines *)

Lemma step_header_of st line key value :
  count_lines_block st = 0 -> is_content st = false ->
  header_of line = Some (key, value) ->
  step st line =
    {| blocks := blocks st ++ [(raw, key ++ [COLON])]
                   ++ (if truthy value
                       then [(raw, [SPACE]); (translatable, text_of value)]
                       else [])
                   ++ [(raw, [NL])];
       count_lines_block := 1;
       is_content := false;
       prev_line := Some line |}.
Proof.
  unfold header_of. intros Hc Hi H.
  destruct (strip line) as [|c s] eqn:E; [discriminate|].
  rewrite <- E in *.
  destruct (_ || _) eqn:Hb in H; [discriminate|].
  apply orb_false_iff in Hb. destruct Hb as [Hd Hb].
  destruct (search command_re (strip line)) as [m|] eqn:Hm; [|discriminate].
  injection H as <- <-.
  apply step_header; try assumption; try congruence.
  unfold boundary. rewrite Hb, orb_false_r.
  destruct (line_starts_new_block (strip line) (prev_line st)) eqn:Hl;
    [|reflexivity].
  apply line_starts_new_block_dashes in Hl. congruence.
Qed.

Lemma merge_into_last front t d type data :
  merge_into (front ++ [(t, d)]) type data
  = front ++ (if str_eqb t type then [(t, d ++ data)]
              else [(t, d); (type, data)]).
Proof.
  induction front as [|a front IH]; [reflexivity|].
  cbn [app]. rewrite <- IH.
  destruct a as [ta da]. destruct front as [|b front']; reflexivity.
Qed.

Lemma merge_into_last2 front a t d type data :
  merge_into (front ++ [a; (t, d)]) type data
  = front ++ a :: (if str_eqb t type then [(t, d ++ data)]
                   else [(t, d); (type, data)]).
Proof.
  change (front ++ [a; (t, d)]) with (front ++ [a] ++ [(t, d)]).
  rewrite app_assoc, merge_into_last, <- app_assoc. reflexivity.
Qed.

Lemma merge_ends_raw l d :
  exists front d', merge (l ++ [(raw, d)]) = front ++ [(raw, d')].
Proof.
  rewrite merge_snoc. cbn [fst snd].
  destruct (merge l) as [|a m] eqn:E using rev_ind.
  - exists [], d. reflexivity.
  - clear IHm. destruct a as [t e]. rewrite merge_into_last.
    destruct (str_eqb t raw) eqn:Et.
    + apply str_eqb_eq in Et. subst t. now exists m, (e ++ d).
    + exists (m ++ [(t, e)]), d. now rewrite <- app_assoc.
Qed.

(** At the start of a block the list built so far is empty or ends with a
    raw chunk: the newline of a blank line or the line of a boundary. *)
Lemma block_start_ends_raw pre :
  count_lines_block (scan init pre) = 0 ->
  pre = [] \/ exists l d, blocks (scan init pre) = l ++ [(raw, d)].
Proof.
  destruct pre as [|x pre] using rev_ind; [now left|]. clear IHpre.
  intros Hc. right. rewrite scan_snoc in *.
  destruct (step_cases (scan init pre) x)
    as [[_ E] | [(_ & _ & E) | [(m & _ & _ & _ & _ & _ & E) | (_ & _ & E)]]];
    rewrite E in *; cbn [blocks count_lines_block] in *; try discriminate.
  - now exists (blocks (scan init pre)), [NL].
  - now exists (blocks (scan init pre)), x.
Qed.

(** C6 (key:value extraction), amended: the line "title: Hello World\n",
    met as the first line of a block (no line counted since the last
    boundary, content not entered), makes the line-by-line pass append
    exactly the chunks (raw,"title:"), (raw," "),
    (translatable,"Hello World"), (raw,"\n").  The list that the parser
    returns is the merged one, in which the key and the space are one raw
    chunk: for the document of this one line it is (raw,"title: "),
    (translatable,"Hello World"), (raw,"\n"); after other lines the text
    "title: " is the end of the raw chunk that closes what was parsed
    before. *)
Theorem C6_title_hello_world (st : pstate) (pre : list str) :
  count_lines_block st = 0 -> is_content st = false ->
  blocks (step st (py "title: Hello World" ++ [NL]))
  = blocks st ++ [ (raw, py "title:"); (raw, py " ");
                   (translatable, py "Hello World"); (raw, [NL]) ]
  /\ parse_source_structure [py "title: Hello World" ++ [NL]]
     = [ (raw, py "title: "); (translatable, py "Hello World"); (raw, [NL]) ]
  /\ (scan init pre = st ->
      (pre = []
       /\ parse_source_structure (pre ++ [py "title: Hello World" ++ [NL]])
          = [ (raw, py "title: "); (translatable, py "Hello World");
              (raw, [NL]) ])
      \/ exists front d,
           parse_source_structure pre = front ++ [(raw, d)]
           /\ parse_source_structure (pre ++ [py "title: Hello World" ++ [NL]])
              = front ++ [ (raw, d ++ py "title: ");
                           (translatable, py "Hello World"); (raw, [NL]) ]).
Proof.
  intros Hc Hi.
  assert (Hstep : blocks (step st (py "title: Hello World" ++ [NL]))
            = blocks st ++ [ (raw, py "title:"); (raw, py " ");
                             (translatable, py "Hello World"); (raw, [NL]) ]).
  { rewrite (@step_header_of st _ (py "title") (Some (py "Hello World")) Hc Hi);
      reflexivity. }
  split; [exact Hstep|]. split; [reflexivity|].
  intros <-. destruct (block_start_ends_raw pre Hc) as [-> | (l & d & El)].
  - left. split; reflexivity.
  - right. unfold parse_source_structure.
    rewrite scan_snoc, Hstep, El.
    destruct (merge_ends_raw l d) as (front & d' & Em).
    exists front, d'. split; [exact Em|].
    change [(raw, py "title:"); (raw, py " ");
            (translatable, py "Hello World"); (raw, [NL])]
      with ([(raw, py "title:")] ++ [(raw, py " ")]
            ++ [(translatable, py "Hello World")] ++ [(raw, [NL])]).
    rewrite !app_assoc. do 4 rewrite merge_snoc. cbn [fst snd].
    rewrite Em, merge_into_last.
    rewrite str_eqb_refl. rewrite merge_into_last, str_eqb_refl.
    rewrite merge_into_last.
    replace (str_eqb raw translatable) with false by reflexivity.
    rewrite <- app_assoc. cbn [app].
    rewrite merge_into_last2.
    replace (str_eqb translatable raw) with false by reflexivity.
    reflexivity.
Qed.

Lemma C6_title_hello_world_witness :
  blocks (step (scan init [py "a: b" ++ [NL]; py "---" ++ [NL]])
               (py "title: Hello World" ++ [NL]))
  = blocks (scan init [py "a: b" ++ [NL]; py "---" ++ [NL]])
      ++ [ (raw, py "title:"); (raw, py " ");
           (translatable, py "Hello World"); (raw, [NL]) ]
  /\ parse_source_structure [py "title: Hello World" ++ [NL]]
     = [ (raw, py "title: "); (translatable, py "Hello World"); (raw, [NL]) ]
  /\ exists front d,
       parse_source_structure [py "a: b" ++ [NL]; py "---" ++ [NL]]
       = front ++ [(raw, d)]
       /\ parse_source_structure
            ([py "a: b" ++ [NL]; py "---" ++ [NL]]
               ++ [py "title: Hello World" ++ [NL]])
          = front ++ [ (raw, d ++ py "title: ");
                       (translatable, py "Hello World"); (raw, [NL]) ].
Proof.
  destruct (@C6_title_hello_world
              (scan init [py "a: b" ++ [NL]; py "---" ++ [NL]])
              [py "a: b" ++ [NL]; py "---" ++ [NL]] eq_refl eq_refl)
    as (H1 & H2 & H3).
  split; [exact H1|]. split; [exact H2|].
  destruct (H3 eq_refl) as [[E _] | H]; [discriminate E | exact H].
Defined.

(** C6 as stated fails of the list that is returned: the merger has
    joined the key and the space, three chunks are returned and not the
    four of the claim. *)
Lemma C6_counterexample :
  parse_source_structure [py "title: Hello World" ++ [NL]]
  = [ (raw, py "title: "); (translatable, py "Hello World"); (raw, [NL]) ]
  /\ length (parse_source_structure [py "title: Hello World" ++ [NL]]) = 3
  /\ length [ (raw, py "title:"); (raw, py " ");
              (translatable, py "Hello World"); (raw, [NL]) ] = 4.
Proof. split; [|split]; reflexivity. Qed.

(** C5 (key characters), the code at the failing inputs: "/" counts as a
    key character and "-" does not, so "a/b: x" is taken as a header with
    the key "a/b", and of "my-key: x" only "key" is the key. *)
Theorem C5_key_class_evaluated :
  key_char 47%N = true /\ key_char DASH = false
  /\ blocks (scan init [py "a/b: x" ++ [NL]])
     = [ (raw, py "a/b:"); (raw, py " "); (translatable, py "x"); (raw, [NL]) ]
  /\ blocks (scan init [py "my-key: x" ++ [NL]])
     = [ (raw, py "key:"); (raw, py " "); (translatable, py "x"); (raw, [NL]) ].
Proof. split; [|split; [|split]]; vm_compute; reflexivity. Qed.

(** ** Counterexamples to the claims as first stated *)

(** C1 as stated fails on a blank line that holds spaces: its chunk is the
    bare newline, before and after merging; and on a header with two spaces
    after the colon, which comes back with one. *)
Lemma C1_counterexample :
  concat_text (blocks (scan init [py "  " ++ [NL]])) = [NL]
  /\ concat_text (parse_source_structure [py "  " ++ [NL]]) = [NL]
  /\ concat [py "  " ++ [NL]] <> [NL]
  /\ concat_text (parse_source_structure [py "a:  b" ++ [NL]])
     = py "a: b" ++ [NL].
Proof.
  split; [|split; [|split]]; vm_compute;
    [reflexivity | reflexivity | discriminate | reflexivity].
Qed.

(** C2 as stated fails on the same documents, in both modes. *)
Lemma C2_counterexample :
  translate_document (fun x => x) false [py "  " ++ [NL]]
  = {| file := [NL]; raised := None |}
  /\ translate_document (fun x => x) true [py "  " ++ [NL]]
     = {| file := [NL]; raised := None |}
  /\ concat [py "  " ++ [NL]] <> [NL]
  /\ translate_document (fun x => x) false [py "a:  b" ++ [NL]]
     = {| file := py "a: b" ++ [NL]; raised := None |}
  /\ translate_document (fun x => x) true [py "a:  b" ++ [NL]]
     = {| file := py "a: b" ++ [NL]; raised := None |}.
Proof.
  split; [|split; [|split; [|split]]]; vm_compute;
    [reflexivity | reflexivity | discriminate | reflexivity | reflexivity].
Qed.

(** C3 as stated fails with three hash signs on each side: the line is no
    block tag, it becomes content; and so does a tag whose label holds a
    hash sign. *)
Lemma C3_counterexample :
  strip (py "### name ###" ++ [NL]) = times HASH 3 ++ py " name " ++ times HASH 3
  /\ step init (py "### name ###" ++ [NL])
     = {| blocks := [(translatable, py "### name ###" ++ [NL])];
          count_lines_block := 1;
          is_content := true;
          prev_line := Some (py "### name ###" ++ [NL]) |}
  /\ step init (py "#### a#b ####" ++ [NL])
     = {| blocks := [(translatable, py "#### a#b ####" ++ [NL])];
          count_lines_block := 1;
          is_content := true;
          prev_line := Some (py "#### a#b ####" ++ [NL]) |}.
Proof. split; [|split]; vm_compute; reflexivity. Qed.

(** C4 as stated fails when a blank line stands between a line with a
    colon and the dashes: the line just before the dashes has no colon, yet
    they start a new block. *)
Lemma C4_counterexample :
  contains COLON [NL] = false
  /\ step (scan init [py "a: b" ++ [NL]; [NL]]) (py "---" ++ [NL])
     = {| blocks := blocks (scan init [py "a: b" ++ [NL]; [NL]])
                      ++ [(raw, py "---" ++ [NL])];
          count_lines_block := 0;
          is_content := false;
          prev_line := Some (py "---" ++ [NL]) |}.
Proof. split; vm_compute; reflexivity. Qed.

(** ** What the two line patterns need of a line *)

Lemma matches_lits s k pos w rest :
  matches (Lits s k) pos w rest ->
  exists w', w = s ++ w' /\ matches k (pos + length s) w' rest.
Proof.
  revert pos w. induction s as [|c s IH]; intros pos w H; simpl in *.
  - exists w. rewrite Nat.add_0_r. auto.
  - destruct H as (w1 & w2 & -> & -> & H). apply IH in H.
    destruct H as (w' & -> & H). exists w'.
    split; [reflexivity|].
    replace (pos + S (length s)) with (pos + length [c] + length s)
      by (simpl; lia).
    exact H.
Qed.

Lemma block2re_matches pos w rest :
  matches block2re pos w rest -> pos = 0 /\ exists w', w = HASH :: w'.
Proof.
  unfold block2re. intros (w1 & w2 & -> & (-> & ->) & H).
  apply matches_lits in H. destruct H as (w' & -> & _).
  split; [reflexivity|]. simpl. eauto.
Qed.

Lemma command_re_matches pos w rest :
  matches command_re pos w rest -> In COLON w.
Proof.
  unfold command_re. intros (w1 & w2 & -> & _ & (w3 & w4 & -> & -> & _)).
  apply in_or_app. right. now left.
Qed.

Lemma search_block2re_some s m :
  search block2re s = Some m -> exists s', s = HASH :: s'.
Proof.
  intros H. apply search_from_sound in H.
  destruct H as (pre & w & rest & -> & Hm & _).
  apply block2re_matches in Hm. destruct Hm as (Hpos & w' & ->).
  simpl in Hpos. destruct pre; [|discriminate]. simpl. eauto.
Qed.

Lemma search_command_re_some s m :
  search command_re s = Some m -> In COLON s.
Proof.
  intros H. apply search_from_sound in H.
  destruct H as (pre & w & rest & -> & Hm & _).
  apply command_re_matches in Hm.
  apply in_or_app. right. apply in_or_app. now left.
Qed.

Lemma search_command_re_no_colon s :
  contains COLON s = false -> search command_re s = None.
Proof.
  intros H. destruct (search command_re s) as [m|] eqn:E; [|reflexivity].
  apply search_command_re_some in E. now apply contains_false_in in H.
Qed.

(** ** Rows of dashes *)

Lemma search_block2re_dashes n : search block2re (times DASH n) = None.
Proof.
  destruct (search block2re (times DASH n)) as [m|] eqn:E; [|reflexivity].
  apply search_block2re_some in E. destruct E as [s' E].
  destruct n; discriminate.
Qed.

Lemma search_command_re_dashes n : search command_re (times DASH n) = None.
Proof.
  destruct (search command_re (times DASH n)) as [m|] eqn:E; [|reflexivity].
  apply search_command_re_some in E.
  apply repeat_spec in E. discriminate.
Qed.

Lemma line_starts_new_block_row n prev :
  3 <= n ->
  line_starts_new_block (times DASH n) prev
  = match prev with Some p => contains COLON p | None => false end.
Proof.
  intros Hn. unfold line_starts_new_block.
  destruct prev as [p|]; [|reflexivity].
  unfold strip. rewrite strip_by_times by reflexivity.
  rewrite length_times, str_eqb_refl.
  replace (3 <=? n) with true by (symmetry; now apply Nat.leb_le).
  destruct p as [|c p]; [reflexivity|].
  now destruct (contains COLON (c :: p)).
Qed.

Lemma prev_line_step st line :
  prev_line (step st line)
  = match strip line with [] => prev_line st | _ :: _ => Some line end.
Proof.
  destruct (step_cases st line)
    as [(E & ->) | [(E & _ & ->) | [(m & E & _ & _ & _ & _ & ->) | (E & _ & ->)]]];
    simpl; destruct (strip line); congruence.
Qed.

Lemma prev_line_scan lines : forall st,
  prev_line (scan st lines)
  = match last_nonblank lines with Some p => Some p | None => prev_line st end.
Proof.
  induction lines as [|l lines IH]; intros st; [reflexivity|].
  simpl. rewrite IH, prev_line_step.
  destruct (last_nonblank lines); [reflexivity|].
  now destruct (strip l).
Qed.

(** C4 (rows of dashes), amended: a line that is, once stripped, three or
    more dashes starts a new block (a raw chunk, the counters reset) exactly
    when the last line before it that is not blank has a colon; blank lines
    in between are passed over.  Otherwise, also when no such line exists,
    the row is ordinary content: a translatable chunk. *)
Theorem C4_dash_row (pre : list str) (line : str) (n : nat) :
  3 <= n -> strip line = times DASH n ->
  step (scan init pre) line
  = if colon_before pre
    then {| blocks := blocks (scan init pre) ++ [(raw, line)];
            count_lines_block := 0;
            is_content := false;
            prev_line := Some line |}
    else {| blocks := blocks (scan init pre) ++ [(translatable, line)];
            count_lines_block := S (count_lines_block (scan init pre));
            is_content := true;
            prev_line := Some line |}.
Proof.
  intros Hn Hs.
  assert (Hne : strip line <> []).
  { rewrite Hs. destruct n; [lia | discriminate]. }
  assert (Hb : boundary (scan init pre) line = colon_before pre).
  { unfold boundary, colon_before.
    rewrite Hs, search_block2re_dashes, orb_false_r.
    rewrite line_starts_new_block_row by assumption.
    rewrite prev_line_scan. simpl.
    now destruct (last_nonblank pre). }
  destruct (colon_before pre).
  - now apply step_new_block.
  - apply step_content; try assumption.
    right. right. rewrite Hs. apply search_command_re_dashes.
Qed.

Lemma C4_dash_row_witness :
  step (scan init [py "a: b" ++ [NL]; [NL]]) (py "---" ++ [NL])
  = {| blocks := blocks (scan init [py "a: b" ++ [NL]; [NL]])
                   ++ [(raw, py "---" ++ [NL])];
       count_lines_block := 0;
       is_content := false;
       prev_line := Some (py "---" ++ [NL]) |}
  /\ step (scan init [py "Heading" ++ [NL]]) (py "---" ++ [NL])
     = {| blocks := blocks (scan init [py "Heading" ++ [NL]])
                      ++ [(translatable, py "---" ++ [NL])];
          count_lines_block :=
            S (count_lines_block (scan init [py "Heading" ++ [NL]]));
          is_content := true;
          prev_line := Some (py "---" ++ [NL]) |}.
Proof.
  split.
  - apply (@C4_dash_row [py "a: b" ++ [NL]; [NL]] (py "---" ++ [NL]) 3);
      [lia | reflexivity].
  - apply (@C4_dash_row [py "Heading" ++ [NL]] (py "---" ++ [NL]) 3);
      [lia | reflexivity].
Defined.

(** ** Block tags *)

Lemma matches_seq r1 r2 pos w1 w2 rest :
  matches r1 pos w1 (w2 ++ rest) ->
  matches r2 (pos + length w1) w2 rest ->
  matches (Seq r1 r2) pos (w1 ++ w2) rest.
Proof. intros H1 H2. simpl. exists w1, w2. auto. Qed.

Lemma matches_star_class g p u : forall pos rest,
  forallb p u = true -> matches (Star g (Class p)) pos u rest.
Proof.
  induction u as [|c u IH]; intros pos rest H.
  - constructor.
  - simpl in H. apply andb_true_iff in H. destruct H as [Hc Hu].
    apply (@star_cons (matches (Class p)) pos [c] u); [discriminate | | ].
    + simpl. eauto.
    + apply (IH (pos + length [c]) rest Hu).
Qed.

Lemma matches_plus_hash n pos rest :
  matches (Plus true (Lit HASH)) pos (times HASH (S n)) rest.
Proof.
  apply (matches_seq (Lit HASH) (Star true (Lit HASH)) pos [HASH] (times HASH n));
    [reflexivity|].
  generalize (pos + length [HASH]). clear pos.
  induction n as [|n IH]; intros pos; simpl.
  - constructor.
  - apply (@star_cons (matches (Lit HASH)) pos [HASH] (times HASH n));
      [discriminate | reflexivity | apply IH].
Qed.

Lemma matches_lits_intro s k pos w rest :
  matches k (pos + length s) w rest -> matches (Lits s k) pos (s ++ w) rest.
Proof.
  revert pos. induction s as [|c s IH]; intros pos H; simpl in *.
  - now rewrite Nat.add_0_r in H.
  - exists [c], (s ++ w). repeat split. apply IH.
    now rewrite <- Nat.add_assoc.
Qed.

Lemma matches_ws_nil pos rest : matches ws pos [] rest.
Proof. constructor. Qed.

Lemma not_hash_label label :
  contains HASH label = false -> forallb not_hash label = true.
Proof.
  unfold contains, not_hash. induction label as [|c l IH]; [reflexivity|].
  intros H. cbn [existsb] in H. cbn [forallb].
  apply orb_false_iff in H. destruct H as [Hc Hl].
  rewrite (IH Hl), andb_true_r, N.eqb_sym, Hc. reflexivity.
Qed.

Lemma block2re_tag a b label :
  contains HASH label = false ->
  matches block2re 0 (times HASH (4 + a) ++ label ++ times HASH (4 + b)) [].
Proof.
  intros Hl. unfold block2re.
  rewrite <- (app_nil_r (times HASH (4 + b))).
  pose (h3 := [HASH; HASH; HASH]).
  pose (t3 := times HASH (S b) ++ [] ++ []).
  pose (t2 := [] ++ h3 ++ t3).
  pose (t1 := [] ++ label ++ t2).
  refine (@matches_seq Bol _ 0 [] (h3 ++ times HASH (S a) ++ t1) [] _ _);
    [now split|].
  refine (@matches_lits_intro h3 _ _ (times HASH (S a) ++ t1) [] _).
  refine (@matches_seq _ _ _ (times HASH (S a)) t1 [] _ _);
    [apply matches_plus_hash|].
  refine (@matches_seq ws _ _ [] (label ++ t2) [] _ _);
    [apply matches_ws_nil|].
  refine (@matches_seq _ _ _ label t2 [] _ _);
    [apply (matches_star_class false), not_hash_label, Hl|].
  refine (@matches_seq ws _ _ [] (h3 ++ t3) [] _ _);
    [apply matches_ws_nil|].
  refine (@matches_lits_intro h3 _ _ t3 [] _).
  refine (@matches_seq _ _ _ (times HASH (S b)) ([] ++ []) [] _ _);
    [apply matches_plus_hash|].
  refine (@matches_seq ws _ _ [] [] [] _ _); [apply matches_ws_nil|].
  simpl. auto.
Qed.

Lemma star_class_word g p pos w rest :
  matches (Star g (Class p)) pos w rest -> forallb p w = true.
Proof.
  simpl. induction 1 as [|pos w1 w2 rest Hne (x & -> & Hp) _ IH];
    [reflexivity|].
  simpl. now rewrite Hp.
Qed.

Lemma star_lit_word g c pos w rest :
  matches (Star g (Lit c)) pos w rest -> exists n, w = times c n.
Proof.
  simpl. induction 1 as [|pos w1 w2 rest Hne Hm _ (n & ->)]; [now exists 0|].
  simpl in Hm. subst w1. now exists (S n).
Qed.

(** A text that [block2re] matches begins with four hash signs and ends
    with four hash signs, after which only white space may come. *)
Lemma block2re_shape pos w rest :
  matches block2re pos w rest ->
  (exists mid, w = HASH :: HASH :: HASH :: HASH :: mid)
  /\ exists front b u3,
       w = front ++ [HASH; HASH; HASH] ++ times HASH (S b) ++ u3
       /\ forallb isspace u3 = true
       /\ (rest = [] \/ rest = [NL]).
Proof.
  unfold block2re. intros (w1 & w2 & -> & (-> & ->) & H).
  apply matches_lits in H. destruct H as (x & -> & H).
  destruct H as (g1 & r1 & -> & Hg1 & H).
  destruct Hg1 as (h & hs & -> & -> & _).
  destruct H as (u1 & r2 & -> & _ & H).
  destruct H as (L & r3 & -> & _ & H).
  destruct H as (u2 & r4 & -> & _ & H).
  apply matches_lits in H. destruct H as (y & -> & H).
  destruct H as (g3 & r5 & -> & Hg3 & H).
  destruct Hg3 as (h' & hs' & -> & -> & Hs').
  apply star_lit_word in Hs'. destruct Hs' as (b & ->).
  destruct H as (u3 & e & -> & Hu3 & -> & He).
  apply star_class_word in Hu3. split.
  - eexists. reflexivity.
  - exists ([HASH; HASH; HASH] ++ ([HASH] ++ hs) ++ u1 ++ L ++ u2), b, u3.
    split; [|split; assumption].
    cbn [app]. rewrite app_nil_r, <- !app_assoc. reflexivity.
Qed.

Lemma lstrip_by_keeps p s c :
  p c = false -> In c s -> In c (lstrip_by p s).
Proof.
  intros Hp. induction s as [|x s IH]; [intros []|].
  intros H. simpl. destruct (p x) eqn:E; [|exact H].
  destruct H as [<- | H]; [congruence | now apply IH].
Qed.

Lemma strip_by_keeps p s c :
  p c = false -> In c s -> In c (strip_by p s).
Proof.
  intros Hp H. unfold strip_by, rstrip_by. apply in_rev.
  rewrite rev_involutive. apply lstrip_by_keeps; [assumption|].
  apply -> in_rev. now apply lstrip_by_keeps.
Qed.

Lemma contains_times c d n : N.eqb c d = false -> contains c (times d n) = false.
Proof.
  intros H. induction n as [|n IH]; [reflexivity|].
  unfold contains in *. simpl. now rewrite H.
Qed.

(** Three hash signs on a side of a label are not a block tag. *)
Lemma search_block2re_three label n1 n2 :
  label <> [] -> contains HASH label = false -> n1 = 3 \/ n2 = 3 ->
  search block2re (times HASH n1 ++ label ++ times HASH n2) = None.
Proof.
  intros Hne Hl Hn.
  destruct (search block2re (times HASH n1 ++ label ++ times HASH n2))
    as [m|] eqn:E; [|reflexivity].
  exfalso. apply search_from_sound in E.
  destruct E as (pre & w & rest & Es & Hm & _).
  destruct (block2re_matches Hm) as [Hpos _].
  destruct pre as [|x pre]; [|discriminate]. cbn [app] in Es.
  apply block2re_shape in Hm.
  destruct Hm as [(mid & Ew) (front & b & u3 & Ew' & Hu3 & Hrest)].
  destruct Hn as [-> | ->].
  - destruct label as [|c l]; [congruence|].
    rewrite Ew in Es. cbn in Es. injection Es as Ec _.
    unfold contains in Hl. cbn [existsb] in Hl.
    rewrite Ec, N.eqb_refl in Hl. discriminate.
  - destruct (exists_last Hne) as (l & c & ->).
    assert (Hc : c <> HASH).
    { intros ->. rewrite contains_app in Hl. apply orb_false_iff in Hl.
      destruct Hl as [_ Hl]. discriminate. }
    apply (f_equal (@rev char)) in Es. rewrite Ew' in Es.
    rewrite !rev_app_distr, !rev_times in Es. cbn [rev app times repeat] in Es.
    destruct Hrest as [-> | ->]; [|discriminate Es].
    cbn [rev app] in Es.
    destruct (rev u3) as [|y ys] eqn:Eu.
    + cbn [app] in Es.
      destruct b as [|[|[|b]]]; cbn in Es; injection Es; intros; congruence.
    + cbn [app] in Es. injection Es as Ey _.
      assert (Hy : In y u3) by (apply in_rev; rewrite Eu; now left).
      rewrite forallb_forall in Hu3. apply Hu3 in Hy. rewrite <- Ey in Hy.
      discriminate.
Qed.

(** C3 (fenced block tags), amended: a line whose stripped text is four or
    more hash signs, a label without a hash sign, and again four or more
    hash signs starts a new block: the line count and the content flag are
    reset and the line itself is appended as a raw chunk.  Three hash
    signs on a side of a label are not enough: such a line is no block tag
    and starts no block, whatever the line before it; it falls under the
    ordinary rule, and is content when it is not the first line of a block
    or holds no colon. *)
Theorem C3_block_tag (st : pstate) (line label : str) (n1 n2 : nat) :
  contains HASH label = false ->
  strip line = times HASH n1 ++ label ++ times HASH n2 ->
  (4 <= n1 -> 4 <= n2 ->
   step st line
   = {| blocks := blocks st ++ [(raw, line)];
        count_lines_block := 0;
        is_content := false;
        prev_line := Some line |})
  /\ (label <> [] -> n1 = 3 \/ n2 = 3 ->
      search block2re (strip line) = None
      /\ boundary st line = false
      /\ (count_lines_block st <> 0 \/ is_content st = true
          \/ contains COLON label = false ->
          step st line
          = {| blocks := blocks st ++ [(translatable, line)];
               count_lines_block := S (count_lines_block st);
               is_content := true;
               prev_line := Some line |})).
Proof.
  intros Hl Hs. split.
  - intros H1 H2.
    replace n1 with (4 + (n1 - 4)) in Hs by lia.
    replace n2 with (4 + (n2 - 4)) in Hs by lia.
    apply step_new_block.
    + rewrite Hs. discriminate.
    + unfold boundary. rewrite Hs.
      pose proof (search_complete _ _ _ (block2re_tag (n1 - 4) (n2 - 4) _ Hl)) as H.
      rewrite app_nil_r in H. rewrite H. apply orb_true_r.
  - intros Hne Hn.
    assert (Hb : search block2re (strip line) = None)
      by (rewrite Hs; now apply search_block2re_three).
    assert (Hh : In HASH (strip line)).
    { rewrite Hs. destruct Hn as [-> | ->].
      - now left.
      - apply in_or_app. right. apply in_or_app. right. now left. }
    assert (Hbd : boundary st line = false).
    { unfold boundary. rewrite Hb, orb_false_r.
      destruct (line_starts_new_block (strip line) (prev_line st)) eqn:Hd;
        [|reflexivity].
      apply line_starts_new_block_dashes in Hd.
      apply andb_true_iff in Hd. destruct Hd as [Hd _].
      apply str_eqb_eq in Hd.
      apply (@strip_by_keeps isspace) in Hh; [|reflexivity].
      fold (strip (strip line)) in Hh. rewrite Hd in Hh.
      apply repeat_spec in Hh. discriminate. }
    split; [exact Hb|]. split; [exact Hbd|].
    intros H. apply step_content; [| exact Hbd |].
    + intros E. now rewrite E in Hh.
    + destruct H as [H | [H | H]]; [now left | right; now left |].
      right. right. apply search_command_re_no_colon.
      rewrite Hs, !contains_app, H.
      now rewrite !contains_times.
Qed.

Lemma C3_block_tag_witness :
  step init (py "#### name #####" ++ [NL])
  = {| blocks := [(raw, py "#### name #####" ++ [NL])];
       count_lines_block := 0;
       is_content := false;
       prev_line := Some (py "#### name #####" ++ [NL]) |}
  /\ boundary (scan init [py "a: b" ++ [NL]]) (py "### name ###" ++ [NL])
     = false
  /\ step (scan init [py "a: b" ++ [NL]]) (py "### name ###" ++ [NL])
     = {| blocks := blocks (scan init [py "a: b" ++ [NL]])
                      ++ [(translatable, py "### name ###" ++ [NL])];
          count_lines_block := 2;
          is_content := true;
          prev_line := Some (py "### name ###" ++ [NL]) |}.
Proof.
  split.
  - apply (@C3_block_tag init (py "#### name #####" ++ [NL]) (py " name ") 4 5);
      [reflexivity | reflexivity | lia | lia].
  - destruct (@C3_block_tag (scan init [py "a: b" ++ [NL]])
                (py "### name ###" ++ [NL]) (py " name ") 3 3
                eq_refl eq_refl) as [_ H].
    destruct H as (_ & Hb & Hc); [discriminate | now left |].
    split; [exact Hb|]. apply Hc. right. right. reflexivity.
Defined.

(** ** The text of the chunks *)

Lemma concat_text_app a b : concat_text (a ++ b) = concat_text a ++ concat_text b.
Proof. unfold concat_text. now rewrite map_app, concat_app. Qed.

Lemma concat_text_header m :
  concat_text
    ([(raw, text_of (group 1 m) ++ [COLON])]
       ++ (if truthy (group 2 m)
           then [(raw, [SPACE]); (translatable, text_of (group 2 m))]
           else [])
       ++ [(raw, [NL])])
  = header_text m.
Proof.
  unfold header_text, concat_text.
  destruct (truthy (group 2 m)); simpl; now rewrite <- ?app_assoc, ?app_nil_r.
Qed.

(** A line in the parser's own layout comes back as it is. *)
Lemma laid_out_header st line m :
  laid_out st line = true -> strip line <> [] -> boundary st line = false ->
  count_lines_block st = 0 -> is_content st = false ->
  search command_re (strip line) = Some m ->
  line = header_text m.
Proof.
  unfold laid_out. intros H Hne Hb Hc Hi Hm.
  destruct (strip line) as [|c s] eqn:Es; [congruence|].
  rewrite Hb, Hc, Hi, Hm in H. simpl in H. now apply str_eqb_eq in H.
Qed.

Lemma step_text st line :
  laid_out st line = true ->
  concat_text (blocks (step st line)) = concat_text (blocks st) ++ line.
Proof.
  intros Hl.
  destruct (step_cases st line)
    as [(E & ->) | [(E & _ & ->) | [(m & E & Hb & Hc & Hi & Hm & ->) | (E & _ & ->)]]];
    cbn [blocks]; rewrite concat_text_app; f_equal.
  - unfold laid_out in Hl. rewrite E in Hl. apply str_eqb_eq in Hl. now subst.
  - unfold concat_text. simpl. apply app_nil_r.
  - rewrite concat_text_header. symmetry.
    now apply (@laid_out_header st).
  - unfold concat_text. simpl. apply app_nil_r.
Qed.

Lemma scan_text lines : forall st,
  laid_out_from st lines = true ->
  concat_text (blocks (scan st lines)) = concat_text (blocks st) ++ concat lines.
Proof.
  induction lines as [|l lines IH]; intros st H; simpl.
  - now rewrite app_nil_r.
  - simpl in H. apply andb_true_iff in H. destruct H as [Hl Hrest].
    rewrite IH by assumption. rewrite step_text by assumption.
    now rewrite <- app_assoc.
Qed.

(** C1 (round trip), amended: merging never changes the concatenated text;
    and the concatenation of the chunk texts, before as after merging, is
    the document itself when every blank line is the bare newline and every
    line that the parser takes as a key:value header is written the way
    the parser writes a header back: the key, a colon, one space and the
    value if there is one, and the newline. *)
Theorem C1_round_trip (lines : list str) :
  laid_out_from init lines = true ->
  concat_text (merge (blocks (scan init lines)))
  = concat_text (blocks (scan init lines))
  /\ concat_text (blocks (scan init lines)) = concat lines
  /\ concat_text (parse_source_structure lines) = concat lines.
Proof.
  intros H. pose proof (scan_text _ _ H) as Ht. simpl in Ht.
  split; [apply merge_text|]. split; [assumption|].
  unfold parse_source_structure. now rewrite merge_text.
Qed.

Lemma C1_round_trip_witness :
  let doc := [ py "title: Hello World" ++ [NL]; py "---" ++ [NL];
               py "body:" ++ [NL]; [NL]; py "  Some text" ++ [NL];
               py "see: http://example.org/  there" ++ [NL];
               py "#### block ####" ++ [NL]; py "more text" ++ [NL] ] in
  concat_text (merge (blocks (scan init doc)))
  = concat_text (blocks (scan init doc))
  /\ concat_text (blocks (scan init doc)) = concat doc
  /\ concat_text (parse_source_structure doc) = concat doc.
Proof.
  apply C1_round_trip. vm_compute. reflexivity.
Defined.

(** ** Replacing a text by itself, splitting and joining *)

Lemma is_prefix_app p : forall s,
  is_prefix p s = true -> s = p ++ skipn (length p) s.
Proof.
  induction p as [|x p IH]; intros [|y s] H; simpl in *;
    try reflexivity; try discriminate.
  apply andb_true_iff in H. destruct H as [Hx Hp].
  apply N.eqb_eq in Hx. subst y. f_equal. now apply IH.
Qed.

Lemma replace_scan_same old : old <> [] ->
  forall s count skip, replace_scan old old count skip s = skipn skip s.
Proof.
  intros Hold. induction s as [|c s IH]; intros count skip.
  - now destruct skip.
  - simpl. destruct skip as [|k]; [|apply IH].
    assert (H : (if is_prefix old (c :: s)
                 then old ++ replace_scan old old (option_map pred count)
                                (pred (length old)) s
                 else c :: replace_scan old old count 0 s) = c :: s).
    { destruct (is_prefix old (c :: s)) eqn:E.
      - rewrite IH. apply is_prefix_app in E.
        destruct old as [|x old]; [congruence|].
        simpl in *. injection E as -> E. now f_equal.
      - now rewrite IH. }
    destruct count as [[|n]|]; [reflexivity | exact H | exact H].
Qed.

Lemma replace_empty_same s : forall count, replace_empty [] count s = s.
Proof.
  induction s as [|c s IH]; intros [[|n]|]; simpl; try reflexivity;
    now rewrite IH.
Qed.

Lemma replace_same old count s : replace old old count s = s.
Proof.
  destruct old as [|x old]; simpl.
  - apply replace_empty_same.
  - now rewrite replace_scan_same.
Qed.

Lemma join_cons_head sep c p ps :
  join sep ((c :: p) :: ps) = c :: join sep (p :: ps).
Proof. now destruct ps. Qed.

Lemma split_on_nonempty sep s : split_on sep s <> [].
Proof.
  destruct s as [|c s]; simpl; [discriminate|].
  destruct (N.eqb c sep); [discriminate|].
  destruct (split_on sep s); discriminate.
Qed.

Lemma join_split_on sep s : join [sep] (split_on sep s) = s.
Proof.
  induction s as [|c s IH]; [reflexivity|].
  pose proof (split_on_nonempty sep s) as Hne.
  cbn [split_on]. destruct (split_on sep s) as [|p ps]; [congruence|].
  destruct (N.eqb c sep) eqn:E.
  - apply N.eqb_eq in E. subst c.
    change (join [sep] ([] :: p :: ps))
      with (sep :: join [sep] (p :: ps)).
    f_equal. exact IH.
  - rewrite join_cons_head. f_equal. exact IH.
Qed.

(** ** Translating with the identity *)

Lemma trans_linewise_id content : trans_linewise (fun x => x) content = content.
Proof.
  unfold trans_linewise.
  rewrite (map_ext _ (fun line => line)).
  - rewrite map_id. apply join_split_on.
  - intros line. destruct (strip line); apply replace_same.
Qed.

Lemma trans_parwise_id content :
  search paragraph_re content = None ->
  trans_parwise (fun x => x) content = content.
Proof.
  intros H. unfold trans_parwise, split_paragraphs, Re.split.
  simpl split_from. unfold search in H. rewrite H.
  simpl. apply replace_same.
Qed.

(** ** Texts without a paragraph break *)

Lemma par_free_mono t : forall b b' : bool,
  (b = true -> b' = true) -> par_free b t = true -> par_free b' t = true.
Proof.
  induction t as [|c t IH]; intros b b' Hb H; [reflexivity|].
  simpl in *. destruct (N.eqb c NL).
  - apply andb_true_iff in H. destruct H as [H1 H2].
    now rewrite (Hb H1), H2.
  - apply (IH (b || negb (isspace c)) _); [|assumption].
    intros H'. apply orb_true_iff in H'. apply orb_true_iff.
    destruct H' as [H' | H']; auto.
Qed.

Lemma par_free_app t1 : forall b t2,
  par_free b t1 = true -> par_free false t2 = true ->
  par_free b (t1 ++ t2) = true.
Proof.
  induction t1 as [|c t1 IH]; intros b t2 H1 H2; simpl in *.
  - apply (par_free_mono t2 (b := false)); [discriminate | assumption].
  - destruct (N.eqb c NL).
    + apply andb_true_iff in H1. destruct H1 as [Hb H1].
      rewrite Hb. simpl. now apply IH.
    + now apply IH.
Qed.

Lemma par_free_no_newline t : forall b,
  contains NL t = false -> par_free b t = true.
Proof.
  unfold contains. induction t as [|c t IH]; intros b H; [reflexivity|].
  cbn [existsb] in H. apply orb_false_iff in H. destruct H as [Hc Ht].
  cbn [par_free]. rewrite N.eqb_sym, Hc. now apply IH.
Qed.

Lemma par_free_body body : forall b,
  contains NL body = false ->
  par_free b (body ++ [NL]) = b || existsb (fun c => negb (isspace c)) body.
Proof.
  unfold contains. induction body as [|c body IH]; intros b H.
  - simpl. now rewrite andb_true_r, orb_false_r.
  - cbn [existsb] in H. apply orb_false_iff in H. destruct H as [Hc Ht].
    cbn [par_free app existsb]. rewrite N.eqb_sym, Hc, IH by assumption.
    now rewrite orb_assoc.
Qed.

Lemma par_free_blank_break u : forall x,
  forallb isspace u = true -> par_free false (u ++ NL :: x) = false.
Proof.
  induction u as [|c u IH]; intros x H; [reflexivity|].
  cbn [forallb] in H. apply andb_true_iff in H. destruct H as [Hc Hu].
  cbn [par_free app]. destruct (N.eqb c NL); [reflexivity|].
  rewrite Hc. simpl. now apply IH.
Qed.

Lemma lstrip_by_all p s : forallb p s = true -> lstrip_by p s = [].
Proof.
  induction s as [|c s IH]; [reflexivity|].
  simpl. intros H. apply andb_true_iff in H. destruct H as [Hc Hs].
  rewrite Hc. now apply IH.
Qed.

Lemma strip_by_nonempty p s :
  strip_by p s <> [] -> existsb (fun c => negb (p c)) s = true.
Proof.
  intros H. destruct (existsb (fun c => negb (p c)) s) eqn:E; [reflexivity|].
  elim H. unfold strip_by, rstrip_by.
  assert (Hall : forallb p s = true).
  { clear H. induction s as [|c s IH]; [reflexivity|].
    simpl in *. apply orb_false_iff in E. destruct E as [Hc Hs].
    apply negb_false_iff in Hc. rewrite Hc. now apply IH. }
  now rewrite (lstrip_by_all _ _ Hall).
Qed.

Lemma removelast_last_eq (s : str) :
  s = [] \/ exists body c, s = body ++ [c] /\ removelast s = body.
Proof.
  destruct s as [|x s] using rev_ind; [now left|].
  right. exists s, x. split; [reflexivity|]. apply removelast_last.
Qed.

(** A line of a file that is not blank has no paragraph break. *)
Lemma par_free_line line :
  one_line line = true -> strip line <> [] -> par_free false line = true.
Proof.
  unfold one_line. intros Ho Hs. apply negb_true_iff in Ho.
  destruct (removelast_last_eq line) as [-> | (body & c & -> & Hr)].
  - now elim Hs.
  - rewrite Hr in Ho. destruct (N.eqb c NL) eqn:Ec.
    + apply N.eqb_eq in Ec. subst c. rewrite par_free_body by assumption.
      simpl. apply strip_by_nonempty in Hs.
      rewrite existsb_app in Hs. simpl in Hs.
      now rewrite orb_false_r in Hs.
    + apply par_free_no_newline. rewrite contains_app, Ho.
      unfold contains. cbn [existsb orb]. rewrite N.eqb_sym, Ec. reflexivity.
Qed.

Lemma paragraph_re_matches pos w rest :
  matches paragraph_re pos w rest ->
  exists u x, w = NL :: u ++ NL :: x /\ forallb isspace u = true.
Proof.
  unfold paragraph_re, Plus.
  intros (w1 & w2 & -> & -> & (w3 & w4 & -> & (u & w5 & -> & Hu & ->) & _)).
  apply star_class_word in Hu.
  exists u, w4. split; [|assumption].
  simpl. now rewrite <- app_assoc.
Qed.

Lemma par_free_search t : forall b pos,
  par_free b t = true -> search_from paragraph_re pos t = None.
Proof.
  induction t as [|c t IH]; intros b pos H; [reflexivity|].
  cbn [search_from].
  destruct (match_at paragraph_re pos (c :: t)) as [m|] eqn:E.
  - apply match_at_sound in E. destruct E as (w & rest & Hw & Hm & _).
    apply paragraph_re_matches in Hm. destruct Hm as (u & x & -> & Hu).
    simpl in Hw. injection Hw as -> ->.
    simpl in H. apply andb_true_iff in H. destruct H as [_ H].
    rewrite <- app_assoc in H. simpl in H.
    now rewrite par_free_blank_break in H.
  - cbn [par_free] in H. destruct (N.eqb c NL).
    + apply andb_true_iff in H. destruct H as [_ H]. now apply (IH false).
    + now apply (IH _ _ H).
Qed.

Lemma raw_unbroken text : unbroken (raw, text).
Proof. intros H. discriminate H. Qed.

Lemma header_value_one_line m :
  one_line (header_text m) = true -> truthy (group 2 m) = true ->
  contains NL (text_of (group 2 m)) = false.
Proof.
  unfold one_line, header_text. intros H Ht. rewrite Ht in H.
  apply negb_true_iff in H.
  replace (text_of (group 1 m) ++ [COLON]
             ++ (SPACE :: text_of (group 2 m)) ++ [NL])
    with ((text_of (group 1 m) ++ [COLON] ++ SPACE :: text_of (group 2 m))
            ++ [NL]) in H
    by (now rewrite <- !app_assoc).
  rewrite removelast_last, !contains_app in H.
  apply orb_false_iff in H. destruct H as [_ H].
  apply orb_false_iff in H. destruct H as [_ H].
  unfold contains in *. cbn [existsb] in H.
  apply orb_false_iff in H. now destruct H.
Qed.

Lemma step_unbroken st line :
  laid_out st line = true -> one_line line = true ->
  Forall unbroken (blocks st) -> Forall unbroken (blocks (step st line)).
Proof.
  intros Hl Ho H.
  destruct (step_cases st line)
    as [(E & ->) | [(E & _ & ->) | [(m & E & Hb & Hc & Hi & Hm & ->) | (E & _ & ->)]]];
    cbn [blocks]; apply Forall_app; (split; [assumption|]).
  - constructor; [apply raw_unbroken | constructor].
  - constructor; [apply raw_unbroken | constructor].
  - pose proof (laid_out_header st line Hl E Hb Hc Hi Hm) as El.
    rewrite El in Ho.
    constructor; [apply raw_unbroken|].
    apply Forall_app. split; [|constructor; [apply raw_unbroken | constructor]].
    destruct (truthy (group 2 m)) eqn:Ht; [|constructor].
    constructor; [apply raw_unbroken|].
    constructor; [|constructor].
    intros _. apply par_free_no_newline. now apply header_value_one_line.
  - constructor; [|constructor]. intros _. now apply par_free_line.
Qed.

Lemma scan_unbroken lines : forall st,
  laid_out_from st lines = true ->
  Forall (fun l => one_line l = true) lines ->
  Forall unbroken (blocks st) -> Forall unbroken (blocks (scan st lines)).
Proof.
  induction lines as [|l lines IH]; intros st Hc Ho H; [assumption|].
  simpl in Hc. apply andb_true_iff in Hc. destruct Hc as [Hl Hc].
  inversion Ho; subst. simpl.
  apply IH; try assumption. now apply step_unbroken.
Qed.

Lemma merge_into_unbroken nb type data :
  Forall unbroken nb -> unbroken (type, data) ->
  Forall unbroken (merge_into nb type data).
Proof.
  induction nb as [|[t d] nb IH]; intros H Hb.
  - now repeat constructor.
  - inversion H as [|? ? Ha Hnb]; subst. destruct nb as [|b nb].
    + simpl. destruct (str_eqb t type) eqn:E.
      * apply str_eqb_eq in E. subst type.
        constructor; [|constructor].
        intros Ht. simpl in *. apply par_free_app; auto.
      * now repeat constructor.
    + change (merge_into ((t, d) :: b :: nb) type data)
        with ((t, d) :: merge_into (b :: nb) type data).
      constructor; [assumption | now apply IH].
Qed.

Lemma merge_unbroken l : Forall unbroken l -> Forall unbroken (merge l).
Proof.
  induction l as [|b l IH] using rev_ind; intros H; [constructor|].
  apply Forall_app in H. destruct H as [Hl Hb].
  rewrite merge_snoc. apply merge_into_unbroken; [now apply IH|].
  inversion Hb. now destruct b.
Qed.

Lemma write_chunks_same mode chunks : forall f,
  Forall known_kind chunks -> (mode = true -> Forall unbroken chunks) ->
  write_chunks (fun x => x) mode f chunks
  = {| file := f ++ concat_text chunks; raised := None |}.
Proof.
  induction chunks as [|[k c] chunks IH]; intros f Hk Hu.
  - simpl. now rewrite app_nil_r.
  - inversion Hk as [|? ? Hk1 Hk2]; subst.
    assert (Hu' : mode = true -> Forall unbroken chunks).
    { intros Hm. specialize (Hu Hm). now inversion Hu. }
    change (concat_text ((k, c) :: chunks)) with (c ++ concat_text chunks).
    rewrite app_assoc. cbn [write_chunks].
    unfold known_kind in Hk1. cbn [fst] in Hk1. destruct Hk1 as [-> | ->].
    + rewrite str_eqb_refl. now apply IH.
    + replace (str_eqb translatable raw) with false by reflexivity.
      rewrite str_eqb_refl.
      assert (Hc : (if mode then trans_parwise (fun x => x) c
                    else trans_linewise (fun x => x) c) = c).
      { destruct mode; [|apply trans_linewise_id].
        specialize (Hu eq_refl). inversion Hu as [|? ? Hb _]; subst.
        apply trans_parwise_id. unfold search.
        apply (par_free_search _ false). now apply Hb. }
      rewrite <- (IH (f ++ c) Hk2 Hu'). f_equal. f_equal. exact Hc.
Qed.

(** C2 (untranslated fallback), amended: with a lookup that returns its
    input, the reconstruction writes the source document byte for byte, and
    raises nothing, when every blank line is the bare newline and every
    line that the parser takes as a key:value header is written the way
    the parser writes a header back; in paragraph mode the lines are
    moreover those of a file: none holds a newline before its last
    character. *)
Theorem C2_identity_lookup (mode : bool) (lines : list str) :
  laid_out_from init lines = true ->
  (mode = true -> Forall (fun l => one_line l = true) lines) ->
  translate_document (fun x => x) mode lines
  = {| file := concat lines; raised := None |}.
Proof.
  intros Hc Ho. unfold translate_document.
  rewrite write_chunks_same.
  - unfold parse_source_structure. rewrite merge_text.
    pose proof (scan_text _ _ Hc) as Ht. simpl in Ht. now rewrite Ht.
  - apply parse_known.
  - intros Hm. apply merge_unbroken, scan_unbroken; auto.
Qed.

Lemma C2_identity_lookup_witness :
  let doc := [ py "title: Hello World" ++ [NL]; py "---" ++ [NL];
               py "body:" ++ [NL]; [NL]; py "  Some text" ++ [NL];
               py "see: http://example.org/  there  " ++ [NL]; [NL];
               py "a last one" ] in
  translate_document (fun x => x) false doc
  = {| file := concat doc; raised := None |}
  /\ translate_document (fun x => x) true doc
     = {| file := concat doc; raised := None |}.
Proof.
  split; apply C2_identity_lookup;
    try (vm_compute; reflexivity);
    intros _; repeat (constructor; [vm_compute; reflexivity|]); constructor.
Defined.

(** ** Python's order on sequences *)

Section Lexicographic.
Variable A : Type.
Variables eqb ltb : A -> A -> bool.
Hypothesis eqb_eq : forall x y, eqb x y = true <-> x = y.
Hypothesis ltb_irrefl : forall x, ltb x x = false.
Hypothesis ltb_trans : forall x y z, ltb x y = true -> ltb y z = true -> ltb x z = true.
Hypothesis ltb_total : forall x y, ltb x y = true \/ x = y \/ ltb y x = true.

Lemma eqb_refl' x : eqb x x = true.
Proof. now apply eqb_eq. Qed.

Lemma list_eqb_eq a : forall b, list_eqb eqb a b = true <-> a = b.
Proof.
  induction a as [|x a IH]; intros [|y b]; simpl; split; try congruence.
  - intros H. apply andb_true_iff in H. destruct H as [H1 H2].
    apply eqb_eq in H1. apply IH in H2. congruence.
  - intros H. injection H as -> ->. rewrite eqb_refl'. now apply IH.
Qed.

Lemma lex_ltb_irrefl a : lex_ltb eqb ltb a a = false.
Proof.
  induction a as [|x a IH]; [reflexivity|].
  simpl. now rewrite eqb_refl'.
Qed.

Lemma lex_ltb_trans a : forall b c,
  lex_ltb eqb ltb a b = true -> lex_ltb eqb ltb b c = true ->
  lex_ltb eqb ltb a c = true.
Proof.
  induction a as [|x a IH]; intros [|y b] [|z c] H1 H2; simpl in *;
    try congruence.
  destruct (eqb x y) eqn:Exy.
  - apply eqb_eq in Exy. subst y.
    destruct (eqb x z) eqn:Exz; [now apply (IH b) | assumption].
  - destruct (eqb y z) eqn:Eyz.
    + apply eqb_eq in Eyz. subst z. now rewrite Exy.
    + destruct (eqb x z) eqn:Exz.
      * apply eqb_eq in Exz. subst z.
        pose proof (ltb_trans H1 H2) as H. now rewrite ltb_irrefl in H.
      * now apply (@ltb_trans _ y).
Qed.

Lemma lex_ltb_total a : forall b,
  lex_ltb eqb ltb a b = true \/ a = b \/ lex_ltb eqb ltb b a = true.
Proof.
  induction a as [|x a IH]; intros [|y b]; simpl; auto.
  destruct (eqb x y) eqn:Exy.
  - apply eqb_eq in Exy. subst y. rewrite eqb_refl'.
    destruct (IH b) as [H | [-> | H]]; auto.
  - destruct (eqb y x) eqn:Eyx.
    + apply eqb_eq in Eyx. subst y. now rewrite eqb_refl' in Exy.
    + destruct (ltb_total x y) as [H | [-> | H]]; auto.
      now rewrite eqb_refl' in Exy.
Qed.
End Lexicographic.

Section InsertionSort.
Variable A : Type.
Variable ltb : A -> A -> bool.
Hypothesis ltb_irrefl : forall x, ltb x x = false.
Hypothesis ltb_trans : forall x y z, ltb x y = true -> ltb y z = true -> ltb x z = true.
Hypothesis ltb_total : forall x y, ltb x y = true \/ x = y \/ ltb y x = true.

(** [x] does not come after [y]. *)
Let le (x y : A) : Prop := ltb y x = false.

Lemma le_of_ltb x y : ltb x y = true -> le x y.
Proof.
  unfold le. intros H. destruct (ltb y x) eqn:E; [|reflexivity].
  pose proof (ltb_trans H E) as H'. now rewrite ltb_irrefl in H'.
Qed.

Lemma le_trans x y z : le x y -> le y z -> le x z.
Proof.
  unfold le. intros H1 H2. destruct (ltb z x) eqn:E; [|reflexivity].
  destruct (ltb_total x y) as [H | [-> | H]]; [|congruence|congruence].
  pose proof (ltb_trans E H). congruence.
Qed.

Lemma insert_sorted_perm x l : Permutation (insert_sorted ltb x l) (x :: l).
Proof.
  induction l as [|y l IH]; simpl; [reflexivity|].
  destruct (ltb x y); [reflexivity|].
  rewrite IH. apply perm_swap.
Qed.

Lemma insert_sorted_sorted x l :
  StronglySorted le l -> StronglySorted le (insert_sorted ltb x l).
Proof.
  induction l as [|y l IH]; intros H; simpl.
  - repeat constructor.
  - inversion H as [|? ? Hl Hy]; subst.
    destruct (ltb x y) eqn:E.
    + constructor; [assumption|].
      constructor; [now apply le_of_ltb|].
      apply Forall_forall. intros z Hz.
      apply (@le_trans x y z); [now apply le_of_ltb|].
      now apply (proj1 (Forall_forall _ _) Hy).
    + constructor; [now apply IH|].
      apply Forall_forall. intros z Hz.
      apply (Permutation_in _ (insert_sorted_perm x l)) in Hz.
      destruct Hz as [<- | Hz]; [exact E|].
      now apply (proj1 (Forall_forall _ _) Hy).
Qed.

Lemma sorted_from acc : forall l,
  StronglySorted le acc ->
  Permutation (fold_left (fun acc x => insert_sorted ltb x acc) l acc) (acc ++ l)
  /\ StronglySorted le (fold_left (fun acc x => insert_sorted ltb x acc) l acc).
Proof.
  intros l. revert acc. induction l as [|x l IH]; intros acc H; simpl.
  - now rewrite app_nil_r.
  - destruct (IH (insert_sorted ltb x acc) (insert_sorted_sorted x H)) as [Hp Hs].
    split; [|assumption].
    rewrite Hp, insert_sorted_perm. apply Permutation_middle.
Qed.

Lemma sorted_spec l :
  Permutation (sorted ltb l) l /\ StronglySorted le (sorted ltb l).
Proof. apply (@sorted_from [] l). constructor. Qed.
End InsertionSort.

(** The orders of the POT serialization are strict and total. *)

Lemma N_ltb_trans x y z : N.ltb x y = true -> N.ltb y z = true -> N.ltb x z = true.
Proof. rewrite !N.ltb_lt. lia. Qed.

Lemma N_ltb_total x y : N.ltb x y = true \/ x = y \/ N.ltb y x = true.
Proof. rewrite !N.ltb_lt. lia. Qed.

Lemma str_eqb_list_eqb a b : list_eqb N.eqb a b = str_eqb a b.
Proof. revert b. induction a as [|x a IH]; intros [|y b]; simpl; congruence. Qed.

Lemma str_ltb_irrefl a : str_ltb a a = false.
Proof. apply lex_ltb_irrefl. apply N.eqb_eq. Qed.

Lemma str_ltb_trans a b c :
  str_ltb a b = true -> str_ltb b c = true -> str_ltb a c = true.
Proof.
  apply lex_ltb_trans;
    [apply N.eqb_eq | apply N.ltb_irrefl | apply N_ltb_trans].
Qed.

Lemma str_ltb_total a b : str_ltb a b = true \/ a = b \/ str_ltb b a = true.
Proof. apply lex_ltb_total; [apply N.eqb_eq | apply N_ltb_total]. Qed.

Lemma paths_ltb_irrefl a : paths_ltb a a = false.
Proof. apply lex_ltb_irrefl. apply str_eqb_eq. Qed.

Lemma paths_ltb_trans a b c :
  paths_ltb a b = true -> paths_ltb b c = true -> paths_ltb a c = true.
Proof.
  apply lex_ltb_trans;
    [apply str_eqb_eq | apply str_ltb_irrefl | apply str_ltb_trans].
Qed.

Lemma paths_ltb_total a b :
  paths_ltb a b = true \/ a = b \/ paths_ltb b a = true.
Proof. apply lex_ltb_total; [apply str_eqb_eq | apply str_ltb_total]. Qed.

Lemma paths_eqb_eq a b : list_eqb str_eqb a b = true <-> a = b.
Proof. apply list_eqb_eq. apply str_eqb_eq. Qed.

Lemma paths_eqb_neq a b : a <> b -> list_eqb str_eqb a b = false.
Proof.
  intros H. destruct (list_eqb str_eqb a b) eqn:E; [|reflexivity].
  apply paths_eqb_eq in E. contradiction.
Qed.

Lemma paths_eq_dec (a b : list str) : a = b \/ a <> b.
Proof.
  destruct (list_eqb str_eqb a b) eqn:E.
  - left. now apply paths_eqb_eq.
  - right. intros H. apply paths_eqb_eq in H. congruence.
Qed.

Lemma entry_ltb_irrefl e : entry_ltb e e = false.
Proof.
  unfold entry_ltb. rewrite (proj2 (paths_eqb_eq _ _) eq_refl).
  apply str_ltb_irrefl.
Qed.

Lemma entry_ltb_trans a b c :
  entry_ltb a b = true -> entry_ltb b c = true -> entry_ltb a c = true.
Proof.
  destruct a as [pa ma], b as [pb mb], c as [pc mc]. unfold entry_ltb. simpl.
  destruct (paths_eq_dec pa pb) as [-> | Hab].
  - rewrite (proj2 (paths_eqb_eq _ _) eq_refl).
    destruct (list_eqb str_eqb pb pc); [apply str_ltb_trans | auto].
  - rewrite (paths_eqb_neq Hab).
    destruct (paths_eq_dec pb pc) as [-> | Hbc].
    + rewrite (proj2 (paths_eqb_eq _ _) eq_refl), (paths_eqb_neq Hab). auto.
    + rewrite (paths_eqb_neq Hbc). intros H1 H2.
      pose proof (paths_ltb_trans _ _ _ H1 H2) as H.
      destruct (paths_eq_dec pa pc) as [-> | Hac].
      * now rewrite paths_ltb_irrefl in H.
      * now rewrite (paths_eqb_neq Hac).
Qed.

Lemma entry_ltb_total a b : entry_ltb a b = true \/ a = b \/ entry_ltb b a = true.
Proof.
  destruct a as [pa ma], b as [pb mb]. unfold entry_ltb. simpl.
  destruct (paths_eq_dec pa pb) as [-> | Hab].
  - rewrite (proj2 (paths_eqb_eq _ _) eq_refl).
    destruct (str_ltb_total ma mb) as [H | [-> | H]]; auto.
  - rewrite (paths_eqb_neq Hab).
    assert (Hba : pb <> pa) by congruence. rewrite (paths_eqb_neq Hba).
    destruct (paths_ltb_total pa pb) as [H | [-> | H]]; auto; congruence.
Qed.

(** ** Escaping *)

Lemma replace_char c new s :
  replace [c] new None s = flat_map (fun x => if N.eqb x c then new else [x]) s.
Proof.
  unfold replace. induction s as [|x s IH]; [reflexivity|].
  cbn [replace_scan is_prefix flat_map length pred option_map].
  rewrite andb_true_r, (N.eqb_sym c x).
  destruct (N.eqb x c); now rewrite IH.
Qed.

Lemma flat_map_twice (f g : char -> str) s :
  flat_map g (flat_map f s) = flat_map (fun x => flat_map g (f x)) s.
Proof.
  induction s as [|c s IH]; [reflexivity|].
  cbn [flat_map]. now rewrite flat_map_app, IH.
Qed.

Lemma escape_flat_map msg : Translations.escape msg = flat_map escape_char msg.
Proof.
  unfold Translations.escape, Translations.escapes.
  cbn [fold_left fst snd]. rewrite !replace_char, !flat_map_twice.
  apply flat_map_ext. intros c. unfold escape_char.
  destruct (N.eqb c BSLASH) eqn:E1; [reflexivity|].
  cbn [flat_map app]. rewrite app_nil_r.
  destruct (N.eqb c NL) eqn:E2; [reflexivity|].
  cbn [flat_map app]. rewrite app_nil_r.
  destruct (N.eqb c TAB) eqn:E3; [reflexivity|].
  cbn [flat_map app]. rewrite app_nil_r.
  reflexivity.
Qed.

Lemma escape_char_clean c :
  contains NL (escape_char c) = false /\ contains TAB (escape_char c) = false.
Proof.
  unfold escape_char.
  destruct (N.eqb c BSLASH) eqn:E1; [now split|].
  destruct (N.eqb c NL) eqn:E2; [now split|].
  destruct (N.eqb c TAB) eqn:E3; [now split|].
  destruct (N.eqb c QUOTE) eqn:E4; [now split|].
  unfold contains. cbn [existsb].
  rewrite (N.eqb_sym NL c), (N.eqb_sym TAB c), E2, E3. now split.
Qed.

Lemma escaped_clean msg :
  contains NL (flat_map escape_char msg) = false
  /\ contains TAB (flat_map escape_char msg) = false.
Proof.
  induction msg as [|c msg [IH1 IH2]]; [now split|].
  cbn [flat_map]. rewrite !contains_app, IH1, IH2.
  destruct (escape_char_clean c) as [-> ->]. now split.
Qed.

(** C9 (POT serialization): after the header, [as_pot] emits the entries of
    the texts of the memory that are not empty, one entry for each, in
    ascending order of the pair (sorted list of the sources, text); the
    sources of an entry are those of its text, sorted; and its [msgid] is
    the text with every backslash, newline, tab and double quote replaced
    by its two-character escape, so that no raw newline or tab is left in
    it. *)
Theorem C9_pot_entries (tr : Translations.t) (now content_language : str) :
  exists entries : list (list str * str),
    Translations.as_pot tr now content_language
    = Translations.pot_header now content_language
      ++ concat (map Translations.pot_element entries)
    /\ Permutation entries
         (map (fun it => (sorted str_ltb (snd it), fst it))
              (filter (fun it => match fst it with [] => false | _ :: _ => true end)
                      tr))
    /\ StronglySorted entry_le entries
    /\ (forall paths msg, In (paths, msg) entries ->
          msg <> []
          /\ (exists sources, In (msg, sources) tr
                /\ Permutation paths sources
                /\ StronglySorted (fun a b => str_ltb b a = false) paths)
          /\ Translations.pot_element (paths, msg)
             = py "#: " ++ join [SPACE] paths ++ [NL]
               ++ py "msgid " ++ [QUOTE] ++ flat_map escape_char msg
               ++ [QUOTE; NL] ++ py "msgstr " ++ [QUOTE; QUOTE; NL; NL]
          /\ contains NL (flat_map escape_char msg) = false
          /\ contains TAB (flat_map escape_char msg) = false)
    /\ Translations.escape (py "say " ++ [QUOTE] ++ py "hi" ++ [QUOTE; NL])
       = py "say " ++ [BSLASH; QUOTE] ++ py "hi"
         ++ [BSLASH; QUOTE; BSLASH; 110%N].
Proof.
  exists (sorted entry_ltb (Translations.translations_by_path tr)).
  destruct (@sorted_spec _ entry_ltb entry_ltb_irrefl entry_ltb_trans
              entry_ltb_total (Translations.translations_by_path tr))
    as [Hperm Hsorted].
  split; [reflexivity|]. split; [exact Hperm|]. split; [exact Hsorted|].
  split; [|reflexivity].
  intros paths msg Hin.
  apply (Permutation_in _ Hperm) in Hin.
  unfold Translations.translations_by_path in Hin.
  apply in_map_iff in Hin. destruct Hin as ([m sources] & E & Hin).
  apply filter_In in Hin. destruct Hin as [Hin Hne]. simpl in E, Hne.
  injection E as <- <-.
  destruct (@sorted_spec _ str_ltb str_ltb_irrefl str_ltb_trans
              str_ltb_total sources) as [Hp Hs].
  split; [now destruct m|].
  split; [exists sources; auto|].
  split; [|apply escaped_clean].
  unfold Translations.pot_element, Translations.quoted. cbn [fst snd].
  rewrite escape_flat_map. now rewrite <- !app_assoc.
Qed.

(** ** Which match the engine takes: repetitions of one character set *)

Section ClassStar.
Variable A : Type.
Variable p : char -> bool.
Variable k : cont A.

Lemma star_loop_stop greedy fuel pos v caps :
  stops p v ->
  star_loop (run (Class p)) greedy k fuel pos v caps = k pos v caps.
Proof.
  intros Hv. destruct fuel as [|fuel]; [reflexivity|].
  cbn [star_loop run].
  destruct v as [|x v]; simpl in Hv; [|rewrite Hv];
    destruct greedy; simpl; now destruct (k pos _ caps).
Qed.

Lemma star_loop_next greedy fuel pos c s caps :
  p c = true -> length s <= fuel ->
  star_loop (run (Class p)) greedy k (S fuel) pos (c :: s) caps
  = if greedy
    then orelse (star_loop (run (Class p)) greedy k fuel (S pos) s caps)
                (k pos (c :: s) caps)
    else orelse (k pos (c :: s) caps)
                (star_loop (run (Class p)) greedy k fuel (S pos) s caps).
Proof.
  intros Hc Hf. cbn [star_loop run]. rewrite Hc.
  replace (length s <? length (c :: s)) with true; [reflexivity|].
  symmetry. apply Nat.ltb_lt. simpl. lia.
Qed.

(** Greedy: when the continuation accepts after the whole run, that is the
    match. *)
Lemma star_greedy_all u : forall fuel pos v caps a,
  forallb p u = true -> stops p v -> length (u ++ v) <= fuel ->
  k (pos + length u) v caps = Some a ->
  star_loop (run (Class p)) true k fuel pos (u ++ v) caps = Some a.
Proof.
  induction u as [|c u IH]; intros fuel pos v caps a Hu Hv Hf Hk.
  - simpl in *. rewrite Nat.add_0_r in Hk. now rewrite star_loop_stop.
  - simpl in Hu. apply andb_true_iff in Hu. destruct Hu as [Hc Hu].
    destruct fuel as [|fuel]; [simpl in Hf; lia|].
    simpl in Hf. simpl app. rewrite star_loop_next by (assumption || lia).
    rewrite (IH fuel (S pos) v caps a); try assumption; try lia.
    + reflexivity.
    + replace (S pos + length u) with (pos + length (c :: u))
        by (simpl; lia).
      exact Hk.
Qed.

(** Greedy: when the continuation refuses after the whole run and accepts
    one character earlier, that is the match. *)
Lemma star_greedy_back u : forall fuel pos c v caps a,
  forallb p (u ++ [c]) = true -> stops p v ->
  length ((u ++ [c]) ++ v) <= fuel ->
  k (pos + length u + 1) v caps = None ->
  k (pos + length u) (c :: v) caps = Some a ->
  star_loop (run (Class p)) true k fuel pos ((u ++ [c]) ++ v) caps = Some a.
Proof.
  induction u as [|x u IH]; intros fuel pos c v caps a Hu Hv Hf Hn Hk.
  - simpl in *. rewrite andb_true_r in Hu. rewrite Nat.add_0_r in Hn, Hk.
    destruct fuel as [|fuel]; [lia|].
    rewrite star_loop_next by (assumption || lia).
    rewrite star_loop_stop by assumption.
    rewrite Nat.add_1_r in Hn. now rewrite Hn.
  - simpl in Hu. apply andb_true_iff in Hu. destruct Hu as [Hx Hu].
    destruct fuel as [|fuel]; [simpl in Hf; lia|].
    simpl in Hf. simpl app. rewrite star_loop_next by (assumption || lia).
    rewrite (IH fuel (S pos) c v caps a); try assumption; try lia.
    + reflexivity.
    + replace (S pos + length u + 1) with (pos + length (x :: u) + 1)
        by (simpl; lia).
      exact Hn.
    + replace (S pos + length u) with (pos + length (x :: u))
        by (simpl; lia).
      exact Hk.
Qed.

(** Lazy: when the continuation refuses before every character of the run
    and accepts after the whole run, that is the match. *)
Lemma star_lazy_all u : forall fuel pos v caps a,
  forallb p u = true -> length (u ++ v) <= fuel ->
  (forall u1 u2, u = u1 ++ u2 -> u2 <> [] ->
                 k (pos + length u1) (u2 ++ v) caps = None) ->
  k (pos + length u) v caps = Some a ->
  star_loop (run (Class p)) false k fuel pos (u ++ v) caps = Some a.
Proof.
  induction u as [|c u IH]; intros fuel pos v caps a Hu Hf Hn Hk.
  - simpl in *. rewrite Nat.add_0_r in Hk.
    destruct fuel as [|fuel]; [assumption|].
    cbn [star_loop]. now rewrite Hk.
  - simpl in Hu. apply andb_true_iff in Hu. destruct Hu as [Hc Hu].
    destruct fuel as [|fuel]; [simpl in Hf; lia|].
    simpl in Hf. simpl app. rewrite star_loop_next by (assumption || lia).
    pose proof (Hn [] (c :: u) eq_refl) as H0. simpl in H0.
    rewrite Nat.add_0_r in H0. rewrite H0 by discriminate. simpl.
    apply IH; try assumption; try lia.
    + intros u1 u2 E Hne.
      replace (S pos + length u1) with (pos + length (c :: u1))
        by (simpl; lia).
      apply Hn; [now subst | assumption].
    + replace (S pos + length u) with (pos + length (c :: u))
        by (simpl; lia).
      exact Hk.
Qed.
End ClassStar.

(** ** The header that [command_re] finds inside a line *)

Lemma firstn_exact (a b : str) n : n = length a -> firstn n (a ++ b) = a.
Proof.
  intros ->. rewrite firstn_app, Nat.sub_diag, firstn_all. simpl.
  apply app_nil_r.
Qed.

Lemma space_not_key c : isspace c = true -> key_char c = false.
Proof.
  unfold isspace, key_char, in_range. intros H.
  repeat (apply orb_true_iff in H; destruct H as [H | H]);
    repeat match goal with
           | H : (_ && _) = true |- _ => apply andb_true_iff in H; destruct H
           | H : (_ <=? _)%N = true |- _ => apply N.leb_le in H
           | H : (_ =? _)%N = true |- _ => apply N.eqb_eq in H
           end;
    repeat (apply orb_false_iff; split); apply andb_false_iff;
    rewrite !N.leb_gt; lia.
Qed.

Lemma space_not_colon c : isspace c = true -> N.eqb c COLON = false.
Proof.
  intros H. destruct (N.eqb c COLON) eqn:E; [|reflexivity].
  apply N.eqb_eq in E. subst c. discriminate H.
Qed.

Lemma no_newline_dot s : contains NL s = false -> forallb dot s = true.
Proof.
  unfold contains, dot. induction s as [|c s IH]; [reflexivity|].
  intros H. cbn [existsb] in H. cbn [forallb].
  apply orb_false_iff in H. destruct H as [Hc Hs].
  rewrite (IH Hs), andb_true_r, N.eqb_sym, Hc. reflexivity.
Qed.

Lemma lstrip_by_head p s c t : lstrip_by p s = c :: t -> p c = false.
Proof.
  induction s as [|x s IH]; [discriminate|].
  simpl. destruct (p x) eqn:E; [assumption|].
  intros H. injection H as -> _. assumption.
Qed.

Lemma strip_by_last p s x c : strip_by p s = x ++ [c] -> p c = false.
Proof.
  unfold strip_by, rstrip_by. intros H.
  apply (f_equal (@rev char)) in H.
  rewrite rev_involutive, rev_app_distr in H. simpl in H.
  now apply lstrip_by_head in H.
Qed.

(** After the value nothing but white space may come: the tail [\s*$]
    refuses a text that holds anything else. *)
Lemma tail_refuses (A : Type) pos t caps (k : cont A) :
  existsb (fun c => negb (isspace c)) t = true ->
  run (Seq ws Eol) pos t caps k = None.
Proof.
  intros H. destruct (run (Seq ws Eol) pos t caps k) as [a|] eqn:E;
    [|reflexivity].
  apply run_sound in E. destruct E as (w & rest & caps' & -> & Hm & _).
  destruct Hm as (w1 & w2 & -> & Hw & (-> & Hrest)).
  apply star_class_word in Hw.
  rewrite !existsb_app in H.
  assert (H1 : existsb (fun c => negb (isspace c)) w1 = false).
  { clear - Hw. induction w1 as [|c w1 IH]; [reflexivity|].
    simpl in *. apply andb_true_iff in Hw. destruct Hw as [-> Hw].
    now apply IH. }
  rewrite H1 in H. destruct Hrest as [-> | ->]; discriminate H.
Qed.

(** The optional group of the value, then the tail, on a value that is all
    there is left. *)
Lemma value_group (A : Type) pos value caps (k : cont A) a :
  contains NL value = false ->
  (forall u1 u2, value = u1 ++ u2 -> u2 <> [] ->
                 existsb (fun c => negb (isspace c)) u2 = true) ->
  k (pos + length value) [] ((2, value) :: caps) = Some a ->
  run (Seq (Opt true (Group 2 (Star false (Class dot)))) (Seq ws Eol))
      pos value caps k = Some a.
Proof.
  intros Hnl Hlast Hk. cbn [run].
  rewrite <- (app_nil_r value) at 1 2.
  rewrite (@star_lazy_all A dot _ value (length (value ++ [])) pos [] caps a).
  - reflexivity.
  - now apply no_newline_dot.
  - apply le_n.
  - intros u1 u2 E Hne. apply tail_refuses.
    rewrite app_nil_r. now apply (Hlast u1).
  - unfold ws. cbn [run star_loop length].
    replace (pos + length value - pos) with (length value) by lia.
    rewrite firstn_all. exact Hk.
Qed.

(** The equations of [run] that the next proof unfolds one at a time. *)
Lemma run_Seq (A : Type) r1 r2 pos s caps (k : cont A) :
  run (Seq r1 r2) pos s caps k
  = run r1 pos s caps (fun pos' s' caps' => run r2 pos' s' caps' k).
Proof. reflexivity. Qed.

Lemma run_Group (A : Type) n r pos s caps (k : cont A) :
  run (Group n r) pos s caps k
  = run r pos s caps
      (fun pos' s' caps' => k pos' s' ((n, firstn (pos' - pos) s) :: caps')).
Proof. reflexivity. Qed.

Lemma run_Star (A : Type) g r pos s caps (k : cont A) :
  run (Star g r) pos s caps k = star_loop (run r) g k (length s) pos s caps.
Proof. reflexivity. Qed.

Lemma run_Class_cons (A : Type) p pos x s caps (k : cont A) :
  run (Class p) pos (x :: s) caps k = if p x then k (S pos) s caps else None.
Proof. reflexivity. Qed.

Lemma run_Lit_cons (A : Type) c pos x s caps (k : cont A) :
  run (Lit c) pos (x :: s) caps k
  = if N.eqb x c then k (S pos) s caps else None.
Proof. reflexivity. Qed.

(** The match of [command_re] at the first character of a key that is
    followed by a colon, white space and a value up to the end. *)
Lemma header_at pos key gap value :
  key <> [] -> forallb key_char key = true ->
  gap <> [] -> forallb isspace gap = true ->
  stops isspace value -> contains NL value = false ->
  (forall u1 u2, value = u1 ++ u2 -> u2 <> [] ->
                 existsb (fun c => negb (isspace c)) u2 = true) ->
  match_at command_re pos (key ++ COLON :: gap ++ value)
  = Some {| m_start := pos;
            m_end := pos + length key + 1 + length gap + length value;
            m_caps := [(2, value); (1, key)] |}.
Proof.
  intros Hk Hkey Hg Hgap Hv Hnl Hlast.
  destruct key as [|c0 key]; [congruence|].
  destruct gap as [|g0 gap]; [congruence|].
  cbn [forallb] in Hkey, Hgap.
  apply andb_true_iff in Hkey. destruct Hkey as [Hc0 Hkey].
  apply andb_true_iff in Hgap. destruct Hgap as [Hg0 Hgap].
  unfold match_at, command_re, Plus.
  rewrite run_Seq, run_Group, run_Seq. cbn [app].
  rewrite run_Class_cons, Hc0, run_Star.
  replace (key ++ COLON :: g0 :: gap ++ value)
    with ((key ++ [COLON]) ++ (g0 :: gap ++ value))
    by (now rewrite <- app_assoc).
  apply star_greedy_back.
  - rewrite forallb_app, Hkey. reflexivity.
  - simpl. now apply space_not_key.
  - apply le_n.
  - cbv beta. rewrite run_Seq. cbn [app].
    now rewrite run_Lit_cons, (space_not_colon _ Hg0).
  - cbv beta. rewrite run_Seq, run_Lit_cons, N.eqb_refl, run_Seq.
    unfold ws at 1. rewrite run_Star.
    apply (@star_greedy_all _ isspace _ (g0 :: gap)).
    + cbn [forallb]. now rewrite Hg0, Hgap.
    + assumption.
    + apply le_n.
    + apply value_group; try assumption.
      replace (firstn (S pos + length key - pos)
                 (c0 :: (key ++ [COLON]) ++ g0 :: gap ++ value))
        with (c0 :: key).
      * f_equal. f_equal. simpl. lia.
      * symmetry. rewrite <- app_assoc.
        apply (@firstn_exact (c0 :: key)). cbn [length]. lia.
Qed.

(** No header begins inside a text without a colon that ends with a
    character outside the key set. *)
Lemma no_header_inside p : forall w x y,
  p <> [] -> contains COLON p = false -> key_char (last p COLON) = false ->
  forallb key_char w = true -> p ++ x = w ++ COLON :: y -> False.
Proof.
  induction p as [|c p IH]; intros w x y Hp Hc Hl Hw E; [congruence|].
  unfold contains in Hc. cbn [existsb] in Hc.
  apply orb_false_iff in Hc. destruct Hc as [Hc Hcp].
  destruct w as [|k w].
  - simpl in E. injection E as -> _. now rewrite N.eqb_refl in Hc.
  - simpl in E. injection E as -> E.
    cbn [forallb] in Hw. apply andb_true_iff in Hw. destruct Hw as [Hk Hw].
    destruct p as [|c' p].
    + simpl in Hl. congruence.
    + apply (IH w x y); try assumption; discriminate.
Qed.

Lemma command_re_key pos w rest :
  matches command_re pos w rest ->
  exists k y, w = k ++ COLON :: y /\ forallb key_char k = true.
Proof.
  unfold command_re, Plus.
  intros (w1 & w2 & -> & (k1 & k2 & -> & (c & -> & Hc) & Hk2)
          & (w3 & w4 & -> & -> & _)).
  apply star_class_word in Hk2.
  exists ([c] ++ k2), w4. split; [reflexivity|].
  simpl. now rewrite Hc.
Qed.

Lemma search_from_skip r pre : forall pos rest,
  (forall p1 p2, pre = p1 ++ p2 -> p2 <> [] ->
                 match_at r (pos + length p1) (p2 ++ rest) = None) ->
  search_from r pos (pre ++ rest) = search_from r (pos + length pre) rest.
Proof.
  induction pre as [|c pre IH]; intros pos rest H.
  - simpl. now rewrite Nat.add_0_r.
  - pose proof (H [] (c :: pre) eq_refl) as H0. simpl in H0.
    rewrite Nat.add_0_r in H0.
    cbn [search_from app]. rewrite H0 by discriminate.
    rewrite IH.
    + f_equal. simpl. lia.
    + intros p1 p2 E Hne.
      replace (S pos + length p1) with (pos + length (c :: p1))
        by (simpl; lia).
      apply H; [now subst | assumption].
Qed.

Lemma search_from_here r pos s m :
  match_at r pos s = Some m -> search_from r pos s = Some m.
Proof. intros H. destruct s; simpl; now rewrite H. Qed.

Lemma last_suffix (p1 p2 : str) d : p2 <> [] -> last (p1 ++ p2) d = last p2 d.
Proof.
  intros H. induction p1 as [|c p1 IH]; [reflexivity|].
  simpl. destruct (p1 ++ p2) eqn:E; [|assumption].
  apply app_eq_nil in E. destruct E. congruence.
Qed.

(** The header found in a line of the shape [pre key: value]. *)
Lemma search_header pre key gap value :
  contains COLON pre = false -> key_char (last pre COLON) = false ->
  key <> [] -> forallb key_char key = true ->
  gap <> [] -> forallb isspace gap = true ->
  stops isspace value -> contains NL value = false ->
  (forall u1 u2, value = u1 ++ u2 -> u2 <> [] ->
                 existsb (fun c => negb (isspace c)) u2 = true) ->
  search command_re (pre ++ key ++ COLON :: gap ++ value)
  = Some {| m_start := length pre;
            m_end := length pre + length key + 1 + length gap + length value;
            m_caps := [(2, value); (1, key)] |}.
Proof.
  intros Hc Hl Hk Hkey Hg Hgap Hv Hnl Hlast.
  unfold search. rewrite search_from_skip.
  - apply search_from_here. now apply header_at.
  - intros p1 p2 E Hne.
    destruct (match_at command_re (0 + length p1)
                (p2 ++ key ++ COLON :: gap ++ value)) as [m|] eqn:Em;
      [|reflexivity].
    apply match_at_sound in Em. destruct Em as (w & rest & Ew & Hm & _).
    apply command_re_key in Hm. destruct Hm as (k & y & -> & Hkk).
    rewrite <- app_assoc in Ew. simpl in Ew.
    exfalso.
    apply (@no_header_inside p2 k (key ++ COLON :: gap ++ value) (y ++ rest));
      try assumption.
    + subst pre. rewrite contains_app in Hc.
      apply orb_false_iff in Hc. now destruct Hc.
    + subst pre. now rewrite last_suffix in Hl.
Qed.

Lemma strip_suffix_nonspace line x value u1 u2 :
  strip line = x ++ value -> value = u1 ++ u2 -> u2 <> [] ->
  existsb (fun c => negb (isspace c)) u2 = true.
Proof.
  intros Hs -> Hne.
  destruct (removelast_last_eq u2) as [-> | (body & z & -> & _)];
    [congruence|].
  rewrite !app_assoc in Hs. apply strip_by_last in Hs.
  rewrite existsb_app. simpl. rewrite Hs. simpl. apply orb_true_r.
Qed.

(** C10 (header inside a line): when the stripped first line of a block is
    some text [pre] without a colon that ends outside the key set, then a
    key, a colon, white space and a value up to the end (as in
    "foo bar: baz"), and the line starts no new block, the pattern is found
    at the key and the parser appends the chunks of that header alone,
    (raw, key ":"), (raw, " "), (translatable, value), (raw, "\n"): the
    text [pre] before the key is in none of them. *)
Theorem C10_interior_header (st : pstate) (line pre key gap value : str) :
  count_lines_block st = 0 -> is_content st = false ->
  boundary st line = false ->
  strip line = pre ++ key ++ COLON :: gap ++ value ->
  pre <> [] -> contains COLON pre = false ->
  key_char (last pre COLON) = false ->
  key <> [] -> forallb key_char key = true ->
  gap <> [] -> forallb isspace gap = true ->
  value <> [] -> isspace (hd SPACE value) = false ->
  contains NL value = false ->
  step st line
  = {| blocks := blocks st ++ [ (raw, key ++ [COLON]); (raw, [SPACE]);
                                (translatable, value); (raw, [NL]) ];
       count_lines_block := 1;
       is_content := false;
       prev_line := Some line |}.
Proof.
  intros Hc Hi Hb Hs Hpre Hcol Hlast Hk Hkey Hg Hgap Hv Hv0 Hnl.
  assert (Hm : search command_re (strip line)
               = Some {| m_start := length pre;
                         m_end := length pre + length key + 1 + length gap
                                  + length value;
                         m_caps := [(2, value); (1, key)] |}).
  { rewrite Hs. apply search_header; try assumption.
    - destruct value; [congruence | exact Hv0].
    - intros u1 u2 E Hne.
      apply (@strip_suffix_nonspace line (pre ++ key ++ COLON :: gap) value u1 u2);
        try assumption.
      rewrite Hs, <- !app_assoc. reflexivity. }
  assert (Hne : strip line <> []).
  { rewrite Hs. destruct pre; [congruence | discriminate]. }
  rewrite (step_header st line Hne Hb Hc Hi Hm).
  unfold group. simpl lookup. simpl text_of.
  destruct value; [congruence | reflexivity].
Qed.

Lemma C10_interior_header_witness :
  step init (py "foo bar: baz" ++ [NL])
  = {| blocks := [ (raw, py "bar:"); (raw, py " ");
                   (translatable, py "baz"); (raw, [NL]) ];
       count_lines_block := 1;
       is_content := false;
       prev_line := Some (py "foo bar: baz" ++ [NL]) |}.
Proof.
  apply (@C10_interior_header init (py "foo bar: baz" ++ [NL])
           (py "foo ") (py "bar") (py " ") (py "baz"));
    try reflexivity; discriminate.
Defined.

(* ================================================================== *)
(** * Further properties of the module *)
(* ================================================================== *)

(** ** The translation memory *)

Lemma str_eqb_sym a b : str_eqb a b = str_eqb b a.
Proof.
  destruct (str_eqb a b) eqn:E1, (str_eqb b a) eqn:E2; try reflexivity.
  - apply str_eqb_eq in E1. subst. now rewrite str_eqb_refl in E2.
  - apply str_eqb_eq in E2. subst. now rewrite str_eqb_refl in E1.
Qed.

Lemma existsb_str_in x l : existsb (str_eqb x) l = true <-> In x l.
Proof.
  rewrite existsb_exists. split.
  - intros (y & Hy & E). apply str_eqb_eq in E. now subst.
  - intros H. exists x. split; [assumption | apply str_eqb_refl].
Qed.

Lemma existsb_str_not_in x l : existsb (str_eqb x) l = false <-> ~ In x l.
Proof.
  rewrite <- existsb_str_in. destruct (existsb (str_eqb x) l); split;
    congruence.
Qed.

Lemma add_sources_of_eq tr text source other :
  sources_of other (Translations.add text source tr)
  = if str_eqb other text
    then Some (with_source source (sources_of text tr))
    else sources_of other tr.
Proof.
  unfold with_source. induction tr as [|[msg paths] tr IH]; simpl.
  - rewrite (str_eqb_sym text other). now destruct (str_eqb other text).
  - destruct (str_eqb msg text) eqn:E; simpl.
    + apply str_eqb_eq in E. subst msg.
      rewrite (str_eqb_sym text other). now destruct (str_eqb other text).
    + destruct (str_eqb msg other) eqn:E'; [|exact IH].
      apply str_eqb_eq in E'. subst other. now rewrite E.
Qed.

(** X2 (what [add] does to the dictionary): after [add(text, source)] the
    sources of [text] are those it had, in their order, followed by
    [source] unless it was among them already, or [source] alone when
    [text] was no key; the sources of every other text are as before. *)
Theorem add_sources_of (tr : Translations.t) (text source other : str) :
  sources_of other (Translations.add text source tr)
  = if str_eqb other text
    then Some (match sources_of text tr with
               | None => [source]
               | Some paths =>
                   if existsb (str_eqb source) paths then paths
                   else paths ++ [source]
               end)
    else sources_of other tr.
Proof. exact (add_sources_of_eq tr text source other). Qed.

Lemma add_keys tr text source :
  map fst (Translations.add text source tr)
  = if existsb (str_eqb text) (map fst tr) then map fst tr
    else map fst tr ++ [text].
Proof.
  induction tr as [|[msg paths] tr IH]; [reflexivity|].
  simpl. rewrite (str_eqb_sym text msg).
  destruct (str_eqb msg text); simpl; [reflexivity|].
  rewrite IH. now destruct (existsb (str_eqb text) (map fst tr)).
Qed.

Lemma add_again tr text source :
  Translations.add text source (Translations.add text source tr)
  = Translations.add text source tr.
Proof.
  induction tr as [|[msg paths] tr IH]; simpl.
  - now rewrite !str_eqb_refl.
  - destruct (str_eqb msg text) eqn:E; simpl; rewrite E; [|now rewrite IH].
    destruct (existsb (str_eqb source) paths) eqn:Es; [now rewrite Es|].
    rewrite existsb_app, Es. simpl. now rewrite str_eqb_refl.
Qed.

(** X3 (first-seen order, idempotence): [add] keeps the texts in the
    order in which they were first added, a new text going to the end, and
    repeating a call changes nothing. *)
Theorem add_order_idempotent (tr : Translations.t) (text source : str) :
  map fst (Translations.add text source tr)
  = (if existsb (str_eqb text) (map fst tr) then map fst tr
     else map fst tr ++ [text])
  /\ Translations.add text source (Translations.add text source tr)
     = Translations.add text source tr.
Proof. split; [apply add_keys | apply add_again]. Qed.

Lemma NoDup_snoc (A : Type) (l : list A) x :
  NoDup l -> ~ In x l -> NoDup (l ++ [x]).
Proof.
  induction l as [|y l IH]; intros Hl Hx; simpl.
  - constructor; [auto | constructor].
  - inversion Hl as [|? ? Hy Hl']; subst. constructor.
    + intros Hin. apply in_app_or in Hin. destruct Hin as [Hin | [-> | []]].
      * contradiction.
      * apply Hx. now left.
    + apply IH; [assumption|]. intros Hin. apply Hx. now right.
Qed.

Lemma add_deduplicated tr text source :
  deduplicated tr -> deduplicated (Translations.add text source tr).
Proof.
  intros [Hk Hs]. split.
  - rewrite add_keys.
    destruct (existsb (str_eqb text) (map fst tr)) eqn:E; [assumption|].
    apply NoDup_snoc; [assumption|]. now apply existsb_str_not_in.
  - clear Hk. induction tr as [|[msg paths] tr IH]; simpl.
    + repeat constructor; [intros [] | discriminate].
    + inversion Hs as [|? ? [Hp Hne] Hs']; subst. simpl in Hp, Hne.
      destruct (str_eqb msg text).
      * constructor; [|assumption]. simpl.
        destruct (existsb (str_eqb source) paths) eqn:E; [now split|].
        split; [|now destruct paths].
        apply NoDup_snoc; [assumption|]. now apply existsb_str_not_in.
      * constructor; [now split | now apply IH].
Qed.

Lemma recorded_cons text source msg paths tr :
  recorded text source ((msg, paths) :: tr)
  <-> (text = msg /\ In source paths) \/ recorded text source tr.
Proof.
  unfold recorded. split.
  - intros (ps & [E | Hin] & Hs).
    + injection E as -> ->. now left.
    + right. now exists ps.
  - intros [[-> Hs] | (ps & Hin & Hs)].
    + exists paths. split; [now left | assumption].
    + exists ps. split; [now right | assumption].
Qed.

Lemma add_recorded tr text source t s :
  recorded t s (Translations.add text source tr)
  <-> (t = text /\ s = source) \/ recorded t s tr.
Proof.
  induction tr as [|[msg paths] tr IH]; cbn [Translations.add].
  - rewrite recorded_cons. split.
    + intros [[-> [-> | []]] | H]; [now left | now right].
    + intros [[-> ->] | (ps & [] & _)]. left. split; [reflexivity | now left].
  - destruct (str_eqb msg text) eqn:E.
    + apply str_eqb_eq in E. subst msg. rewrite !recorded_cons.
      destruct (existsb (str_eqb source) paths) eqn:Es.
      * apply existsb_str_in in Es. split.
        -- intros [H | H]; right; [now left | now right].
        -- intros [[-> ->] | [H | H]]; [left | now left | now right].
           now split.
      * split.
        -- intros [[-> H] | H].
           ++ apply in_app_or in H. destruct H as [H | [<- | []]].
              ** right. left. now split.
              ** now left.
           ++ right. now right.
        -- intros [[-> ->] | [[-> H] | H]].
           ++ left. split; [reflexivity|]. apply in_or_app. right. now left.
           ++ left. split; [reflexivity|]. apply in_or_app. now left.
           ++ now right.
    + rewrite !recorded_cons, IH. tauto.
Qed.

Lemma fold_add_recorded calls : forall tr t s,
  recorded t s
    (fold_left (fun tr c => Translations.add (fst c) (snd c) tr) calls tr)
  <-> In (t, s) calls \/ recorded t s tr.
Proof.
  induction calls as [|[text source] calls IH]; intros tr t s; cbn [fold_left].
  - split; [now right | now intros [[] | H]].
  - rewrite IH, add_recorded. cbn [fst snd In]. split.
    + intros [H | [[-> ->] | H]]; [left; now right | left; now left | now right].
    + intros [[E | H] | H].
      * injection E as -> ->. right. now left.
      * now left.
      * right. now right.
Qed.

(** X1 (what the memory holds): whatever the calls of [add], the memory
    built from the empty one holds a source among the sources of a text
    exactly when [add] was called with this text and this source; it has
    every text once, and for every text at least one source and every
    source once. *)
Theorem added_deduplicated (calls : list (str * str)) :
  deduplicated (added calls)
  /\ forall text source,
       recorded text source (added calls) <-> In (text, source) calls.
Proof.
  unfold added. split.
  - assert (H : forall tr, deduplicated tr ->
              deduplicated (fold_left
                (fun tr c => Translations.add (fst c) (snd c) tr) calls tr)).
    { induction calls as [|c calls IH]; intros tr Htr; [assumption|].
      simpl. apply IH. now apply add_deduplicated. }
    apply H. split; constructor.
  - intros text source. rewrite fold_add_recorded. split.
    + intros [H | (ps & [] & _)]. exact H.
    + intros H. now left.
Qed.

(** ** The order of the POT entries does not depend on the memory's *)

Section SortedUnique.
Variable A : Type.
Variable ltb : A -> A -> bool.
Hypothesis ltb_irrefl : forall x, ltb x x = false.
Hypothesis ltb_trans : forall x y z, ltb x y = true -> ltb y z = true -> ltb x z = true.
Hypothesis ltb_total : forall x y, ltb x y = true \/ x = y \/ ltb y x = true.

Lemma sorted_lists_equal (l1 : list A) : forall l2,
  StronglySorted (fun x y => ltb y x = false) l1 ->
  StronglySorted (fun x y => ltb y x = false) l2 ->
  Permutation l1 l2 -> l1 = l2.
Proof.
  induction l1 as [|a l1 IH]; intros l2 H1 H2 Hp.
  - symmetry. now apply Permutation_nil.
  - destruct l2 as [|b l2].
    { symmetry in Hp. now apply Permutation_nil_cons in Hp. }
    inversion H1 as [|? ? Hs1 Ha]; inversion H2 as [|? ? Hs2 Hb]; subst.
    assert (Hab : ltb b a = false).
    { assert (Hin : In b (a :: l1))
        by (apply (Permutation_in _ (Permutation_sym Hp)); now left).
      destruct Hin as [-> | Hin]; [apply ltb_irrefl|].
      now apply (proj1 (Forall_forall _ _) Ha). }
    assert (Hba : ltb a b = false).
    { assert (Hin : In a (b :: l2)) by (apply (Permutation_in _ Hp); now left).
      destruct Hin as [-> | Hin]; [apply ltb_irrefl|].
      now apply (proj1 (Forall_forall _ _) Hb). }
    assert (E : a = b).
    { destruct (ltb_total a b) as [H | [H | H]]; congruence. }
    subst b. f_equal. apply IH; try assumption.
    now apply Permutation_cons_inv in Hp.
Qed.

Lemma sorted_permutation l l' :
  Permutation l l' -> sorted ltb l = sorted ltb l'.
Proof.
  intros Hp.
  destruct (@sorted_spec _ ltb ltb_irrefl ltb_trans ltb_total l) as [P1 S1].
  destruct (@sorted_spec _ ltb ltb_irrefl ltb_trans ltb_total l') as [P2 S2].
  apply sorted_lists_equal; try assumption.
  rewrite P1, Hp. now symmetry.
Qed.
End SortedUnique.

Lemma Permutation_filter' (A : Type) (f : A -> bool) l l' :
  Permutation l l' -> Permutation (filter f l) (filter f l').
Proof.
  induction 1 as [| x l l' _ IH | x y l | l l' l'' _ IH1 _ IH2]; simpl.
  - constructor.
  - destruct (f x); [now constructor | assumption].
  - destruct (f x), (f y); try reflexivity. apply perm_swap.
  - now transitivity (filter f l').
Qed.

Lemma translations_by_path_same tr mid :
  Forall2 same_item tr mid ->
  Translations.translations_by_path tr = Translations.translations_by_path mid.
Proof.
  unfold Translations.translations_by_path.
  induction 1 as [|[m1 p1] [m2 p2] tr mid [Hm Hp] _ IH]; [reflexivity|].
  simpl in Hm, Hp. subst m2. simpl.
  destruct m1; [assumption|]. simpl. rewrite IH. f_equal. f_equal.
  apply sorted_permutation; try assumption.
  - apply str_ltb_irrefl.
  - apply str_ltb_trans.
  - apply str_ltb_total.
Qed.

(** X4 (the template does not depend on the order of the memory): two
    memories that hold the same texts with the same sources, the texts and
    the sources of each text in any order, serialize to the same POT
    text. *)
Theorem as_pot_order_independent
    (tr mid tr' : Translations.t) (now content_language : str) :
  Forall2 same_item tr mid -> Permutation mid tr' ->
  Translations.as_pot tr now content_language
  = Translations.as_pot tr' now content_language.
Proof.
  intros Hs Hp. unfold Translations.as_pot.
  rewrite (translations_by_path_same Hs).
  do 3 f_equal.
  apply sorted_permutation.
  - apply entry_ltb_irrefl.
  - apply entry_ltb_trans.
  - apply entry_ltb_total.
  - unfold Translations.translations_by_path.
    now apply Permutation_map, Permutation_filter'.
Qed.

Lemma as_pot_order_independent_witness :
  Translations.as_pot
    [(py "Hello", [py "b.lr"; py "a.lr"]); (py "Bye", [py "a.lr"])]
    (py "2024-01-01 00:00+UTC") (py "en")
  = Translations.as_pot
      [(py "Bye", [py "a.lr"]); (py "Hello", [py "a.lr"; py "b.lr"])]
      (py "2024-01-01 00:00+UTC") (py "en").
Proof.
  apply (@as_pot_order_independent _
           [(py "Hello", [py "a.lr"; py "b.lr"]); (py "Bye", [py "a.lr"])]).
  - constructor; [split; [reflexivity | apply perm_swap]|].
    constructor; [split; reflexivity | constructor].
  - apply perm_swap.
Defined.

(** ** Escaping loses nothing *)

Lemma escape_char_cases c :
  (c = BSLASH /\ escape_char c = [BSLASH; BSLASH])
  \/ (c = NL /\ escape_char c = [BSLASH; 110%N])
  \/ (c = TAB /\ escape_char c = [BSLASH; 116%N])
  \/ (c = QUOTE /\ escape_char c = [BSLASH; QUOTE])
  \/ (c <> BSLASH /\ escape_char c = [c]).
Proof.
  unfold escape_char.
  destruct (N.eqb c BSLASH) eqn:E1;
    [apply N.eqb_eq in E1; auto | apply N.eqb_neq in E1].
  destruct (N.eqb c NL) eqn:E2; [apply N.eqb_eq in E2; auto|].
  destruct (N.eqb c TAB) eqn:E3; [apply N.eqb_eq in E3; auto|].
  destruct (N.eqb c QUOTE) eqn:E4; [apply N.eqb_eq in E4; auto 6|].
  auto 6.
Qed.

Lemma escape_char_split c1 c2 r1 r2 :
  escape_char c1 ++ r1 = escape_char c2 ++ r2 -> c1 = c2 /\ r1 = r2.
Proof.
  intros H.
  destruct (escape_char_cases c1)
    as [[-> E1] | [[-> E1] | [[-> E1] | [[-> E1] | [N1 E1]]]]];
  destruct (escape_char_cases c2)
    as [[-> E2] | [[-> E2] | [[-> E2] | [[-> E2] | [N2 E2]]]]];
  rewrite ?E1, ?E2 in H; simpl in H;
    try (injection H as H; try discriminate; now subst);
    try (injection H as H H'; try congruence; try discriminate;
         subst; now elim N2);
    try (injection H as H H'; try congruence; try discriminate;
         subst; now elim N1);
    try (injection H as H H'; now subst).
Qed.

Lemma escaped_injective m1 : forall m2,
  flat_map escape_char m1 = flat_map escape_char m2 -> m1 = m2.
Proof.
  induction m1 as [|c1 m1 IH]; intros [|c2 m2] H; cbn [flat_map] in H.
  - reflexivity.
  - destruct (escape_char_cases c2)
      as [[-> E] | [[-> E] | [[-> E] | [[-> E] | [_ E]]]]];
      rewrite E in H; discriminate H.
  - destruct (escape_char_cases c1)
      as [[-> E] | [[-> E] | [[-> E] | [[-> E] | [_ E]]]]];
      rewrite E in H; discriminate H.
  - apply escape_char_split in H. destruct H as [-> H].
    f_equal. now apply IH.
Qed.

(** X5 (escaping is lossless): two texts with the same escaped [msgid] are
    the same text. *)
Theorem escape_injective (msg1 msg2 : str) :
  Translations.escape msg1 = Translations.escape msg2 -> msg1 = msg2.
Proof. rewrite !escape_flat_map. apply escaped_injective. Qed.

Lemma escape_injective_witness :
  [BSLASH; 110%N] = [BSLASH; 110%N].
Proof.
  exact (@escape_injective [BSLASH; 110%N] [BSLASH; 110%N] eq_refl).
Defined.

(** ** The empty text *)

Lemma translations_by_path_add_empty tr source :
  Translations.translations_by_path (Translations.add [] source tr)
  = Translations.translations_by_path tr.
Proof.
  unfold Translations.translations_by_path.
  induction tr as [|[msg paths] tr IH]; [reflexivity|].
  simpl. destruct (str_eqb msg []) eqn:E.
  - apply str_eqb_eq in E. now subst msg.
  - simpl. destruct msg; [discriminate E|]. simpl. now rewrite IH.
Qed.

(** X6 (the empty text is recorded but never written): [add] accepts the
    empty text like any other, as a new key or with one more source, and
    the POT text is the same as if it had not been added. *)
Theorem as_pot_add_empty
    (tr : Translations.t) (source now content_language : str) :
  sources_of [] (Translations.add [] source tr) <> None
  /\ Translations.as_pot (Translations.add [] source tr) now content_language
     = Translations.as_pot tr now content_language.
Proof.
  split.
  - rewrite add_sources_of_eq, str_eqb_refl. discriminate.
  - unfold Translations.as_pot. now rewrite translations_by_path_add_empty.
Qed.

(** ** Reading the header of a POT file *)

Lemma read_pot_header_found pre : forall fuel acc post,
  Forall (fun l => l <> [NL]) pre -> length pre < fuel ->
  read_pot_header_loop fuel (pre ++ [NL] :: post) acc
  = Some (concat acc ++ concat pre ++ [NL]).
Proof.
  induction pre as [|l pre IH]; intros fuel acc post Hpre Hfuel.
  - destruct fuel as [|fuel]; [simpl in Hfuel; lia|].
    simpl. now rewrite concat_app.
  - destruct fuel as [|fuel]; [simpl in Hfuel; lia|].
    inversion Hpre as [|? ? Hl Hpre']; subst.
    simpl. rewrite (str_eqb_neq Hl).
    rewrite IH by (assumption || (simpl in Hfuel; lia)).
    rewrite concat_app. simpl. now rewrite app_nil_r, <- !app_assoc.
Qed.

Lemma read_pot_header_never lines : forall fuel acc,
  Forall (fun l => l <> [NL]) lines ->
  read_pot_header_loop fuel lines acc = None.
Proof.
  intros fuel. revert lines.
  induction fuel as [|fuel IH]; intros lines acc H; [reflexivity|].
  simpl. destruct lines as [|l lines].
  - simpl. apply IH. constructor.
  - inversion H as [|? ? Hl Hrest]; subst.
    rewrite (str_eqb_neq Hl). now apply IH.
Qed.

(** X7 ([read_pot_header]): when the file has an empty line, the header
    is the text of the file up to and with the first empty line, found as
    soon as the loop may run once more than the lines before it; when it
    has none, the loop ends after no number of iterations: past the end of
    the file [readline()] keeps giving the empty string, which is not the
    newline the loop waits for. *)
Theorem read_pot_header_first_blank (pre post lines : list str) (fuel : nat) :
  Forall (fun l => l <> [NL]) pre -> length pre < fuel ->
  Forall (fun l => l <> [NL]) lines ->
  read_pot_header fuel (pre ++ [NL] :: post) = Some (concat pre ++ [NL])
  /\ (forall n, read_pot_header n lines = None).
Proof.
  intros Hpre Hfuel Hlines. split.
  - unfold read_pot_header. now rewrite read_pot_header_found.
  - intros n. now apply read_pot_header_never.
Qed.

Lemma read_pot_header_first_blank_witness :
  read_pot_header 3
    ([py "msgid" ++ [NL]; py "msgstr" ++ [NL]] ++ [NL] :: [py "#: a" ++ [NL]])
  = Some (concat [py "msgid" ++ [NL]; py "msgstr" ++ [NL]] ++ [NL])
  /\ (forall n, read_pot_header n [py "msgid" ++ [NL]; py "msgstr"] = None).
Proof.
  apply read_pot_header_first_blank.
  - repeat (constructor; [discriminate|]). constructor.
  - simpl. lia.
  - repeat (constructor; [discriminate|]). constructor.
Defined.

(** ** More on the structure parser *)

Lemma merge_into_texts (P : str -> Prop) nb type data :
  (forall a b, P a -> P b -> P (a ++ b)) ->
  Forall (fun b => P (snd b)) nb -> P data ->
  Forall (fun b => P (snd b)) (merge_into nb type data).
Proof.
  intros Happ. induction nb as [|[t d] nb IH]; intros H Hd.
  - now repeat constructor.
  - inversion H as [|? ? Ha Hnb]; subst. simpl in Ha. destruct nb as [|b nb].
    + simpl. destruct (str_eqb t type); repeat constructor; simpl; auto.
    + change (merge_into ((t, d) :: b :: nb) type data)
        with ((t, d) :: merge_into (b :: nb) type data).
      constructor; [assumption | now apply IH].
Qed.

Lemma merge_texts (P : str -> Prop) l :
  (forall a b, P a -> P b -> P (a ++ b)) ->
  Forall (fun b => P (snd b)) l -> Forall (fun b => P (snd b)) (merge l).
Proof.
  intros Happ. induction l as [|b l IH] using rev_ind; intros H; [constructor|].
  apply Forall_app in H. destruct H as [Hl Hb].
  rewrite merge_snoc. apply merge_into_texts; [assumption | now apply IH|].
  now inversion Hb.
Qed.

Lemma strip_nonempty_line line : strip line <> [] -> line <> [].
Proof. intros H ->. now apply H. Qed.

Lemma step_texts_nonempty st line :
  Forall (fun b => snd b <> []) (blocks st) ->
  Forall (fun b => snd b <> []) (blocks (step st line)).
Proof.
  intros H.
  destruct (step_cases st line)
    as [(E & ->) | [(E & _ & ->) | [(m & E & _ & _ & _ & _ & ->) | (E & _ & ->)]]];
    cbn [blocks]; apply Forall_app; (split; [assumption|]).
  - repeat constructor. discriminate.
  - repeat constructor. simpl. now apply strip_nonempty_line.
  - constructor; [simpl; now destruct (text_of (group 1 m))|].
    apply Forall_app. split; [|repeat constructor; discriminate].
    destruct (group 2 m) as [[|c v]|]; simpl; repeat constructor; discriminate.
  - repeat constructor. simpl. now apply strip_nonempty_line.
Qed.

(** X8 (no empty chunk): whatever the lines, no chunk of the parser has an
    empty text, neither in the list built line by line nor in the merged
    list it returns. *)
Theorem parse_texts_nonempty (lines : list str) :
  Forall (fun b => snd b <> []) (blocks (scan init lines))
  /\ Forall (fun b => snd b <> []) (parse_source_structure lines).
Proof.
  assert (H : forall st, Forall (fun b => snd b <> []) (blocks st) ->
              Forall (fun b => snd b <> []) (blocks (scan st lines))).
  { induction lines as [|l lines IH]; intros st Hst; [assumption|].
    simpl. apply IH. now apply step_texts_nonempty. }
  split; [apply H; constructor|].
  apply (merge_texts (fun t => t <> [])).
  - intros a b Ha _ E. apply app_eq_nil in E. now destruct E.
  - apply H. constructor.
Qed.

Lemma skipn_length_app (A : Type) (l r : list A) :
  skipn (length l) (l ++ r) = r.
Proof. induction l as [|x l IH]; [reflexivity | exact IH]. Qed.

(** X9 (blank lines are passed over): a blank line adds the raw newline
    and leaves the count of lines, the content flag and the previous line
    as they are; so the line after it is classified as if the blank line
    were not there, and adds the same chunks. *)
Theorem blank_line_transparent (st : pstate) (blank line : str) :
  strip blank = [] ->
  let st' := step st blank in
  blocks st' = blocks st ++ [(raw, [NL])]
  /\ count_lines_block (step st' line) = count_lines_block (step st line)
  /\ is_content (step st' line) = is_content (step st line)
  /\ prev_line (step st' line) = prev_line (step st line)
  /\ skipn (length (blocks st')) (blocks (step st' line))
     = skipn (length (blocks st)) (blocks (step st line)).
Proof.
  intros Hb st'. subst st'. rewrite (step_blank st blank Hb). cbn [blocks].
  split; [reflexivity|].
  set (st' := {| blocks := blocks st ++ [(raw, [NL])];
                 count_lines_block := count_lines_block st;
                 is_content := is_content st;
                 prev_line := prev_line st |}).
  assert (Hbd : boundary st' line = boundary st line) by reflexivity.
  destruct (step_cases st line)
    as [(E & ->) | [(E & Hbo & ->) | [(m & E & Hbo & Hc & Hi & Hm & ->) | (E & Hbo & Hs)]]].
  - rewrite (step_blank st' line E). cbn.
    repeat split; now rewrite !skipn_length_app.
  - rewrite (step_new_block st' line E) by now rewrite Hbd.
    cbn. repeat split; now rewrite !skipn_length_app.
  - rewrite (@step_header st' line m E) by (assumption || now rewrite Hbd).
    cbn [blocks count_lines_block is_content prev_line].
    repeat split; now rewrite !skipn_length_app.
  - rewrite Hs.
    destruct (Nat.eq_dec (count_lines_block st) 0) as [Hc | Hc].
    + destruct (is_content st) eqn:Hi.
      * rewrite (step_content st' line E) by (assumption || now right; left).
        cbn. repeat split; now rewrite !skipn_length_app.
      * destruct (search command_re (strip line)) as [m|] eqn:Hm.
        -- rewrite (@step_header st line m E Hbo Hc Hi Hm) in Hs.
           discriminate Hs.
        -- rewrite (step_content st' line E)
             by (assumption || now right; right).
           cbn. repeat split;
             now rewrite !skipn_length_app.
    + rewrite (step_content st' line E) by (assumption || now left).
      cbn. repeat split; now rewrite !skipn_length_app.
Qed.

Lemma blank_line_transparent_witness :
  skipn (length (blocks (step (step init (py "a: b" ++ [NL])) [NL])))
        (blocks (step (step (step init (py "a: b" ++ [NL])) [NL])
                      (py "---" ++ [NL])))
  = skipn (length (blocks (step init (py "a: b" ++ [NL]))))
          (blocks (step (step init (py "a: b" ++ [NL])) (py "---" ++ [NL]))).
Proof.
  exact (proj2 (proj2 (proj2 (proj2
    (@blank_line_transparent (step init (py "a: b" ++ [NL])) [NL]
       (py "---" ++ [NL]) eq_refl))))).
Defined.

Lemma lstrip_by_in p s c : In c (lstrip_by p s) -> In c s.
Proof.
  induction s as [|x s IH]; [auto|].
  simpl. destruct (p x); [|auto]. intros H. right. now apply IH.
Qed.

Lemma strip_by_in p s c : In c (strip_by p s) -> In c s.
Proof.
  unfold strip_by, rstrip_by. intros H.
  apply in_rev, lstrip_by_in, in_rev in H. now apply lstrip_by_in in H.
Qed.

Lemma contains_strip c s : contains c s = false -> contains c (strip s) = false.
Proof.
  intros H. destruct (contains c (strip s)) eqn:E; [|reflexivity].
  apply contains_true_in, strip_by_in in E.
  now apply contains_false_in in H.
Qed.

Lemma step_plain st line :
  no_colon_before st ->
  contains COLON line = false -> search block2re (strip line) = None ->
  blocks (step st line) = blocks st ++ [plain_chunk line]
  /\ no_colon_before (step st line).
Proof.
  unfold no_colon_before, plain_chunk. intros Hp Hc Hb.
  destruct (strip line) as [|x s] eqn:Es.
  - rewrite (step_blank st line Es). now split.
  - assert (Hne : strip line <> []) by congruence.
    assert (Hbd : boundary st line = false).
    { unfold boundary. rewrite Es, Hb, orb_false_r.
      unfold line_starts_new_block.
      destruct (prev_line st) as [[|y p]|]; try reflexivity.
      now rewrite Hp. }
    rewrite (step_content st line Hne Hbd).
    + now split.
    + right. right. apply search_command_re_no_colon.
      now apply contains_strip.
Qed.

(** X10 (text without a colon is content throughout): in a document of
    which no line has a colon and none is a block tag, every line that is
    not blank becomes a translatable chunk that is the line itself, a row
    of dashes under a heading included, and every blank line the raw
    newline. *)
Theorem colon_free_document (lines : list str) :
  Forall (fun l => contains COLON l = false
                   /\ search block2re (strip l) = None) lines ->
  blocks (scan init lines) = map plain_chunk lines.
Proof.
  assert (H : forall st, no_colon_before st ->
    Forall (fun l => contains COLON l = false
                     /\ search block2re (strip l) = None) lines ->
    blocks (scan st lines) = blocks st ++ map plain_chunk lines).
  { induction lines as [|l lines IH]; intros st Hst Hl; simpl.
    - now rewrite app_nil_r.
    - inversion Hl as [|? ? [Hc Hb] Hrest]; subst.
      destruct (step_plain st l Hst Hc Hb) as [Hbl Hnc].
      rewrite IH by assumption. rewrite Hbl, <- app_assoc. reflexivity. }
  intros Hl. apply (H init); [exact I | assumption].
Qed.

Lemma colon_free_document_witness :
  blocks (scan init [py "Heading" ++ [NL]; py "-------" ++ [NL]; [NL];
                     py "  Some text." ++ [NL]])
  = [ (translatable, py "Heading" ++ [NL]);
      (translatable, py "-------" ++ [NL]);
      (raw, [NL]);
      (translatable, py "  Some text." ++ [NL]) ].
Proof.
  apply (@colon_free_document
           [py "Heading" ++ [NL]; py "-------" ++ [NL]; [NL];
            py "  Some text." ++ [NL]]).
  repeat (constructor; [split; vm_compute; reflexivity|]). constructor.
Defined.

(** X11 (only the first line of a block can be a header): when two lines
    follow each other and neither is blank nor starts a new block, the
    second one is content, a translatable chunk that is the line itself,
    whatever it looks like and whatever the first one was. *)
Theorem second_line_is_content (st : pstate) (line1 line2 : str) :
  strip line1 <> [] -> boundary st line1 = false ->
  strip line2 <> [] -> boundary (step st line1) line2 = false ->
  blocks (step (step st line1) line2)
  = blocks (step st line1) ++ [(translatable, line2)]
  /\ is_content (step (step st line1) line2) = true.
Proof.
  intros E1 B1 E2 B2.
  assert (Hc : count_lines_block (step st line1) <> 0).
  { destruct (step_cases st line1)
      as [(E & _) | [(_ & Hb & _) | [(m & _ & _ & _ & _ & _ & ->) | (_ & _ & ->)]]];
      try congruence; simpl; discriminate. }
  rewrite (step_content (step st line1) line2 E2 B2) by now left.
  now split.
Qed.

Lemma second_line_is_content_witness :
  blocks (step (step init (py "title: Hello" ++ [NL])) (py "author: me" ++ [NL]))
  = blocks (step init (py "title: Hello" ++ [NL]))
    ++ [(translatable, py "author: me" ++ [NL])]
  /\ is_content (step (step init (py "title: Hello" ++ [NL]))
                      (py "author: me" ++ [NL])) = true.
Proof.
  apply second_line_is_content;
    try (vm_compute; discriminate); vm_compute; reflexivity.
Defined.

(** X12 ([line_starts_new_block]): the function answers [True] exactly
    when the previous line is given and has a colon and the line, stripped,
    is three or more dashes and nothing else; without a previous line, or
    with an empty one, the answer is [False]. *)
Theorem line_starts_new_block_iff (line : str) (prev : option str) :
  line_starts_new_block line prev = true
  <-> exists p n, prev = Some p /\ contains COLON p = true
                  /\ 3 <= n /\ strip line = times DASH n.
Proof.
  unfold line_starts_new_block. split.
  - destruct prev as [p|]; [|discriminate].
    destruct p as [|c p]; [discriminate|].
    destruct (contains COLON (c :: p)) eqn:Ec; [|discriminate].
    simpl negb. cbv iota. intros H.
    apply andb_true_iff in H. destruct H as [H1 H2].
    apply str_eqb_eq in H1. apply Nat.leb_le in H2.
    exists (c :: p), (length (strip line)). auto.
  - intros (p & n & -> & Hc & Hn & Hs).
    destruct p as [|c p]; [discriminate Hc|].
    rewrite Hc, Hs. simpl negb. cbv iota.
    rewrite length_times, str_eqb_refl. cbn [andb].
    now apply Nat.leb_le.
Qed.

(** ** What a translation replaces *)

Lemma leading_lstrip p s : s = leading p s ++ lstrip_by p s.
Proof.
  induction s as [|c s IH]; [reflexivity|].
  simpl. destruct (p c); [|reflexivity]. simpl. now f_equal.
Qed.

Lemma leading_all p s : forallb p (leading p s) = true.
Proof.
  induction s as [|c s IH]; [reflexivity|].
  simpl. destruct (p c) eqn:E; [|reflexivity]. simpl. now rewrite E.
Qed.

Lemma trailing_all p s : forallb p (trailing p s) = true.
Proof.
  unfold trailing. pose proof (leading_all p (rev (lstrip_by p s))) as H.
  rewrite forallb_forall in *. intros x Hx. apply H. now apply in_rev.
Qed.

Lemma lstrip_strip p s : lstrip_by p s = strip_by p s ++ trailing p s.
Proof.
  unfold strip_by, rstrip_by, trailing.
  rewrite <- rev_app_distr, <- leading_lstrip. now rewrite rev_involutive.
Qed.

(** A text is what its strip removes in front, what it leaves, and what
    it removes behind. *)
Lemma strip_by_parts p s : s = leading p s ++ strip_by p s ++ trailing p s.
Proof. rewrite <- lstrip_strip. apply leading_lstrip. Qed.

Lemma strip_by_head p s c t : strip_by p s = c :: t -> p c = false.
Proof.
  intros H. pose proof (lstrip_strip p s) as E. rewrite H in E.
  now apply lstrip_by_head in E.
Qed.

Lemma is_prefix_self old rest : is_prefix old (old ++ rest) = true.
Proof.
  induction old as [|c old IH]; [reflexivity|].
  simpl. now rewrite N.eqb_refl.
Qed.

Lemma replace_scan_skip old new count o : forall rest,
  replace_scan old new count (length o) (o ++ rest)
  = replace_scan old new count 0 rest.
Proof.
  induction o as [|x o IH]; intros rest; [reflexivity|].
  simpl. apply IH.
Qed.

Lemma replace_scan_done old new s : replace_scan old new (Some 0) 0 s = s.
Proof. now destruct s. Qed.

Lemma replace_scan_apart p c o new count s :
  p c = false -> forallb p s = true ->
  replace_scan (c :: o) new count 0 s = s.
Proof.
  intros Hc. induction s as [|x s IH]; intros Hs; [reflexivity|].
  cbn [forallb] in Hs. apply andb_true_iff in Hs. destruct Hs as [Hx Hs].
  cbn [replace_scan is_prefix].
  assert (E : N.eqb c x = false).
  { apply N.eqb_neq. intros ->. congruence. }
  rewrite E. simpl. rewrite (IH Hs).
  now destruct count as [[|n]|].
Qed.

(** The text between the stripped ends is found where it stands, and
    nowhere before: the characters in front are of the stripped kind and
    its first one is not. *)
Lemma replace_scan_middle p c o new count lead trail :
  p c = false -> forallb p lead = true ->
  count = Some 1 \/ (count = None /\ forallb p trail = true) ->
  replace_scan (c :: o) new count 0 (lead ++ (c :: o) ++ trail)
  = lead ++ new ++ trail.
Proof.
  intros Hc. induction lead as [|x lead IH]; intros Hl Hcount.
  - cbn [app replace_scan].
    change (is_prefix (c :: o) (c :: o ++ trail))
      with (is_prefix (c :: o) ((c :: o) ++ trail)).
    rewrite is_prefix_self. cbn [length pred].
    rewrite replace_scan_skip.
    destruct Hcount as [-> | [-> Ht]].
    + simpl. now rewrite replace_scan_done.
    + simpl. now rewrite (@replace_scan_apart p c o new None trail Hc Ht).
  - cbn [forallb] in Hl. apply andb_true_iff in Hl. destruct Hl as [Hx Hl].
    assert (E : N.eqb c x = false).
    { apply N.eqb_neq. intros ->. congruence. }
    pose proof (IH Hl Hcount) as IH'.
    destruct Hcount as [-> | [-> _]];
      cbn [app replace_scan is_prefix]; rewrite E; cbn [andb];
      f_equal; exact IH'.
Qed.

Lemma replace_line gettext line :
  replace (strip line)
    match strip line with [] => [] | _ :: _ => gettext (strip line) end
    (Some 1) line
  = translated_line gettext line.
Proof.
  unfold translated_line.
  destruct (strip line) as [|c o] eqn:E.
  - rewrite replace_same. simpl.
    rewrite (strip_by_parts isspace line) at 1.
    unfold strip in E. now rewrite E.
  - unfold replace.
    pose proof (strip_by_head _ _ E) as Hc.
    rewrite (strip_by_parts isspace line) at 1.
    unfold strip in E. rewrite E.
    apply (@replace_scan_middle isspace); auto using leading_all.
Qed.

(** X13 (line-wise translation keeps the white space): every line of a
    translatable chunk comes back with the white space it had before and
    after its stripped text, this text replaced by what [gettext] gives for
    it; a blank line comes back as it is, without any lookup; and the
    lines are joined by the newlines that separated them. *)
Theorem trans_linewise_lines (gettext : str -> str) (content : str) :
  trans_linewise gettext content
  = join [NL] (map (translated_line gettext) (split_on NL content)).
Proof.
  unfold trans_linewise. f_equal. apply map_ext. intros line.
  apply replace_line.
Qed.

Lemma replace_paragraph gettext paragraph :
  replace (strip_chars [NL; CR] paragraph)
          (gettext (strip_chars [NL; CR] paragraph)) None paragraph
  = translated_paragraph gettext paragraph.
Proof.
  unfold translated_paragraph.
  destruct (strip_chars [NL; CR] paragraph) as [|c o] eqn:E; [reflexivity|].
  unfold replace. unfold strip_chars in E.
  pose proof (strip_by_head _ _ E) as Hc.
  rewrite (strip_by_parts is_newline paragraph) at 1.
  change (strip_by is_newline paragraph)
    with (strip_by (fun c => existsb (N.eqb c) [NL; CR]) paragraph).
  rewrite E.
  apply (@replace_scan_middle is_newline); auto using leading_all.
  right. split; [reflexivity | apply trailing_all].
Qed.

(** X14 (paragraph-wise translation keeps the outer newlines): every
    paragraph of a translatable chunk comes back with the newlines and
    carriage returns it had before and after its stripped text, this text
    replaced by what [gettext] gives for it; the paragraphs are joined by
    one empty line each, whatever separated them. *)
Theorem trans_parwise_paragraphs (gettext : str -> str) (content : str) :
  trans_parwise gettext content
  = join [NL; NL]
      (map (translated_paragraph gettext) (split_paragraphs content)).
Proof.
  unfold trans_parwise. f_equal. apply map_ext. intros paragraph.
  apply replace_paragraph.
Qed.

(** X15 (paragraph mode normalises the separators): with a lookup that
    returns its input, paragraph-wise translation gives back the
    paragraphs joined by one empty line each; wider separators are not
    kept. *)
Theorem trans_parwise_identity (content : str) :
  trans_parwise (fun x => x) content
  = join [NL; NL] (split_paragraphs content)
  /\ trans_parwise (fun x => x) (py "A" ++ [NL; NL; NL] ++ py "B")
     = py "A" ++ [NL; NL] ++ py "B".
Proof.
  split; [|reflexivity].
  unfold trans_parwise. f_equal.
  rewrite (map_ext _ (fun paragraph => paragraph)); [apply map_id|].
  intros paragraph. apply replace_same.
Qed.

(** ** The paragraphs of a text *)

Lemma matches_anywhere r :
  anchor_free r = true ->
  forall pos w rest pos' rest',
    matches r pos w rest -> matches r pos' w rest'.
Proof.
  induction r as [c | p | | | r1 IH1 r2 IH2 | g r1 IH1 | g r1 IH1 | n r1 IH1];
    intros Ha pos w rest pos' rest' H; simpl in Ha; try discriminate.
  - exact H.
  - exact H.
  - apply andb_true_iff in Ha. destruct Ha as [Ha1 Ha2].
    destruct H as (w1 & w2 & -> & H1 & H2).
    exists w1, w2. split; [reflexivity|]. split.
    + now apply (IH1 Ha1 pos w1 (w2 ++ rest)).
    + now apply (IH2 Ha2 (pos + length w1) w2 rest).
  - simpl in *. revert pos'.
    induction H as [pos rest | pos w1 w2 rest Hne Hm _ IH]; intros pos'.
    + constructor.
    + constructor; [assumption | | apply IH].
      now apply (IH1 Ha pos w1 (w2 ++ rest)).
  - destruct H as [-> | H]; [now left | right].
    now apply (IH1 Ha pos w rest).
  - now apply (IH1 Ha pos w rest).
Qed.

Lemma search_from_leftmost r : forall s pos m,
  search_from r pos s = Some m ->
  exists i, i <= length s
    /\ match_at r (pos + i) (skipn i s) = Some m
    /\ forall j, j < i -> match_at r (pos + j) (skipn j s) = None.
Proof.
  induction s as [|c s IH]; intros pos m H; cbn [search_from] in H.
  - destruct (match_at r pos []) eqn:E; [|discriminate].
    injection H as ->. exists 0. rewrite Nat.add_0_r.
    split; [apply le_n|]. split; [assumption|]. intros j Hj. lia.
  - destruct (match_at r pos (c :: s)) eqn:E.
    + injection H as ->. exists 0. rewrite Nat.add_0_r.
      split; [simpl; lia|]. split; [assumption|]. intros j Hj. lia.
    + apply IH in H. destruct H as (i & Hi & Hm & Hnone).
      exists (S i). split; [simpl; lia|]. split.
      * now rewrite <- Nat.add_succ_comm.
      * intros [|j] Hj; [now rewrite Nat.add_0_r|].
        rewrite <- Nat.add_succ_comm. apply Hnone. lia.
Qed.

Lemma paragraph_re_word pos w rest :
  matches paragraph_re pos w rest -> 2 <= length w.
Proof.
  intros H. apply paragraph_re_matches in H. destruct H as (u & x & -> & _).
  simpl. rewrite length_app. simpl. lia.
Qed.

Lemma no_break_at_end i s pre w rest pos :
  i <= length s -> firstn i s = pre ++ w ++ rest ->
  matches paragraph_re (length pre) w rest ->
  (forall j, j < i -> match_at paragraph_re (pos + j) (skipn j s) = None) ->
  False.
Proof.
  intros Hi E Hm Hnone.
  pose proof (@paragraph_re_word _ _ _ Hm) as Hw.
  assert (Hlen : length pre + length w + length rest = i).
  { apply (f_equal (@length char)) in E.
    rewrite length_firstn, !length_app in E. lia. }
  assert (Hs : skipn (length pre) s = w ++ (rest ++ skipn i s)).
  { rewrite <- (firstn_skipn i s) at 1. rewrite E.
    rewrite <- !app_assoc. apply skipn_length_app. }
  specialize (Hnone (length pre)). rewrite Hs in Hnone.
  apply (@match_at_complete paragraph_re (pos + length pre) w
           (rest ++ skipn i s)).
  - now apply (@matches_anywhere paragraph_re eq_refl (length pre) w rest).
  - apply Hnone. lia.
Qed.

Lemma search_from_anywhere s : forall pos pos',
  search_from paragraph_re pos s = None ->
  search_from paragraph_re pos' s = None.
Proof.
  induction s as [|c s IH]; intros pos pos' H; cbn [search_from] in *.
  - reflexivity.
  - destruct (match_at paragraph_re pos (c :: s)) eqn:E; [discriminate|].
    destruct (match_at paragraph_re pos' (c :: s)) as [m|] eqn:E'.
    + apply match_at_sound in E'. destruct E' as (w & rest & Hs & Hm & _).
      exfalso. apply (@match_at_complete paragraph_re pos w rest).
      * now apply (@matches_anywhere paragraph_re eq_refl pos' w rest).
      * now rewrite <- Hs.
    + now apply (IH (S pos)).
Qed.

Lemma split_from_unbroken fuel : forall s pos,
  length s < fuel ->
  Forall (fun p => search paragraph_re p = None)
         (split_from fuel paragraph_re pos s).
Proof.
  induction fuel as [|fuel IH]; intros s pos Hf; [lia|].
  cbn [split_from].
  destruct (search_from paragraph_re pos s) as [m|] eqn:E.
  - apply search_from_leftmost in E. destruct E as (i & Hi & Hm & Hnone).
    apply match_at_sound in Hm.
    destruct Hm as (w & rest & Hs & Hmw & Hstart & Hend).
    pose proof (@paragraph_re_word _ _ _ Hmw) as Hw.
    rewrite Hstart, Hend.
    replace (pos + i - pos) with i by lia.
    constructor.
    + apply search_none. intros pre w' rest' E' Hm'.
      now apply (@no_break_at_end i s pre w' rest' pos).
    + apply IH. rewrite length_skipn.
      assert (length (skipn i s) = length w + length rest)
        by (now rewrite Hs, length_app).
      rewrite length_skipn in *. lia.
  - constructor; [|constructor]. unfold search.
    now apply (search_from_anywhere s pos).
Qed.

Lemma split_paragraphs_nonempty document : split_paragraphs document <> [].
Proof.
  unfold split_paragraphs, Re.split. cbn [split_from].
  destruct (search_from paragraph_re 0 document); discriminate.
Qed.

(** X16 ([split_paragraphs]): a text always has at least one paragraph,
    no paragraph holds a separator of paragraphs (a newline followed by
    lines of white space only), and a text without such a separator is its
    own and only paragraph. *)
Theorem split_paragraphs_unbroken (document : str) :
  split_paragraphs document <> []
  /\ Forall (fun p => search paragraph_re p = None) (split_paragraphs document)
  /\ (search paragraph_re document = None ->
      split_paragraphs document = [document]).
Proof.
  split; [apply split_paragraphs_nonempty|].
  unfold split_paragraphs, Re.split. split.
  - apply split_from_unbroken. lia.
  - intros H. cbn [split_from]. unfold search in H. now rewrite H.
Qed.

(** ** Emptying and filling a catalog *)

Lemma clear_fill_entry e : clear_entry (fill_entry e) = clear_entry e.
Proof.
  destruct e as [i ip s [|x sp]]; [reflexivity|].
  unfold clear_entry, fill_entry. cbn -[Z.eqb]. f_equal. f_equal.
  rewrite map_map. reflexivity.
Qed.

Lemma fill_clear_entry e : fill_entry (clear_entry e) = fill_entry e.
Proof.
  destruct e as [i ip s [|x sp]]; [reflexivity|].
  unfold clear_entry, fill_entry. cbn -[Z.eqb]. f_equal. f_equal.
  rewrite map_map. reflexivity.
Qed.

Lemma fill_fill_entry e : fill_entry (fill_entry e) = fill_entry e.
Proof.
  destruct e as [i ip s [|x sp]]; [reflexivity|].
  unfold fill_entry. cbn -[Z.eqb]. f_equal. f_equal.
  rewrite map_map. reflexivity.
Qed.

(** X17 ([clear_translations], [fill_translations]): filling a catalog does
    not depend on the translations it held, so filling after emptying is
    filling, and filling twice is filling once; emptying after filling is
    emptying.  Neither changes the message ids nor the plural indices of an
    entry. *)
Theorem fill_clear_translations_compose (po : list POEntry) :
  fill_translations (clear_translations po) = fill_translations po
  /\ clear_translations (fill_translations po) = clear_translations po
  /\ fill_translations (fill_translations po) = fill_translations po
  /\ map msgid (fill_translations po) = map msgid po
  /\ map msgid (clear_translations po) = map msgid po
  /\ map (fun e => map fst (msgstr_plural e)) (fill_translations po)
     = map (fun e => map fst (msgstr_plural e)) po
  /\ map (fun e => map fst (msgstr_plural e)) (clear_translations po)
     = map (fun e => map fst (msgstr_plural e)) po.
Proof.
  unfold fill_translations, clear_translations. rewrite !map_map.
  split; [|split; [|split; [|split; [|split; [|split]]]]];
    apply map_ext; intros e.
  - apply fill_clear_entry.
  - apply clear_fill_entry.
  - apply fill_fill_entry.
  - reflexivity.
  - reflexivity.
  - destruct e as [i ip s [|x sp]]; [reflexivity|].
    cbn -[Z.eqb]. f_equal. now rewrite map_map.
  - destruct e as [i ip s [|x sp]]; [reflexivity|].
    cbn. f_equal. now rewrite map_map.
Qed.

(** ** Choosing an element by language *)

Section FirstWith.
Variable lower : str -> str.
Variables attribute wanted : str.

Lemma first_with_cases l :
  match first_with lower l attribute wanted with
  | Item item => first_agreeing lower l attribute wanted item
  | NoItem => Forall (differs lower attribute wanted) l
  | KeyError => first_lacking lower l attribute wanted
  end.
Proof.
  induction l as [|it l IH]; cbn [first_with]; [constructor|].
  destruct (getitem it attribute) as [v|] eqn:Ev.
  - destruct (str_eqb (lower (strip v)) wanted) eqn:Eq.
    + apply str_eqb_eq in Eq. exists [], l.
      split; [reflexivity|]. split; [constructor|]. now exists v.
    + assert (Hd : differs lower attribute wanted it).
      { exists v. split; [assumption|]. intros E.
        apply str_eqb_eq in E. congruence. }
      destruct (first_with lower l attribute wanted) as [item| |].
      * destruct IH as (pre & post & -> & Hpre & Hit).
        exists (it :: pre), post. split; [reflexivity|].
        split; [now constructor | assumption].
      * now constructor.
      * destruct IH as (pre & item & post & -> & Hpre & Hit).
        exists (it :: pre), item, post. split; [reflexivity|].
        split; [now constructor | assumption].
  - exists [], it, l. split; [reflexivity|]. split; [constructor | assumption].
Qed.

Lemma first_with_passes pre : forall rest,
  Forall (differs lower attribute wanted) pre ->
  first_with lower (pre ++ rest) attribute wanted
  = first_with lower rest attribute wanted.
Proof.
  induction pre as [|it pre IH]; intros rest H; [reflexivity|].
  inversion H as [|? ? (v & Ev & Hv) Hpre]; subst.
  cbn [app first_with]. rewrite Ev.
  rewrite (str_eqb_neq Hv). now apply IH.
Qed.

Lemma first_with_item l item :
  first_with lower l attribute wanted = Item item
  <-> first_agreeing lower l attribute wanted item.
Proof.
  split.
  - intros H. pose proof (first_with_cases l) as C. now rewrite H in C.
  - intros (pre & post & -> & Hpre & v & Ev & Hv).
    rewrite (first_with_passes _ Hpre). cbn [first_with]. rewrite Ev.
    apply str_eqb_eq in Hv. now rewrite Hv.
Qed.

Lemma first_with_none l :
  first_with lower l attribute wanted = NoItem
  <-> Forall (differs lower attribute wanted) l.
Proof.
  split.
  - intros H. pose proof (first_with_cases l) as C. now rewrite H in C.
  - intros H. rewrite <- (app_nil_r l). now rewrite (first_with_passes _ H).
Qed.

Lemma first_with_error l :
  first_with lower l attribute wanted = KeyError
  <-> first_lacking lower l attribute wanted.
Proof.
  split.
  - intros H. pose proof (first_with_cases l) as C. now rewrite H in C.
  - intros (pre & item & post & -> & Hpre & Ev).
    rewrite (first_with_passes _ Hpre). cbn [first_with]. now rewrite Ev.
Qed.
End FirstWith.

Lemma lacking_not_differs lower l attribute wanted wanted' :
  first_lacking lower l attribute wanted ->
  Forall (differs lower attribute wanted') l -> False.
Proof.
  intros (pre & item & post & -> & _ & Ev) H.
  apply Forall_app in H. destruct H as [_ H].
  inversion H as [|? ? (v & Ev' & _) _]; subst. congruence.
Qed.

(** X18 ([choose_language], the element returned): the call returns an
    element exactly when it is the first one whose attribute, stripped and
    lowered, is the language asked for (every element before it has the
    attribute), or when no element is in that language, every element has
    the attribute, and it is the first one in the fallback language.  So a
    later element in the language asked for wins over an earlier one in
    the fallback language. *)
Theorem choose_language_item (lower : str -> str)
    (element_list : list element) (language fallback attribute : str)
    (item : element) :
  choose_language lower element_list language fallback attribute = Item item
  <-> first_agreeing lower element_list attribute (lower (strip language)) item
      \/ (Forall (differs lower attribute (lower (strip language))) element_list
          /\ first_agreeing lower element_list attribute
               (lower (strip fallback)) item).
Proof.
  unfold choose_language. split.
  - intros H.
    destruct (first_with lower element_list attribute (lower (strip language)))
      as [it| |] eqn:E.
    + left. apply first_with_item. congruence.
    + right. split; [now apply first_with_none | now apply first_with_item].
    + discriminate.
  - intros [H | [Hn H]].
    + apply first_with_item in H. now rewrite H.
    + apply first_with_none in Hn. rewrite Hn. now apply first_with_item.
Qed.

(** X19 ([choose_language], no element): the call returns [None] exactly
    when every element has the attribute and none is in the language asked
    for nor in the fallback language; it raises the [KeyError] exactly when
    an element without the attribute comes before any element in the
    language asked for.  An element without the attribute that comes after
    one in that language is never looked at. *)
Theorem choose_language_none_or_error (lower : str -> str)
    (element_list : list element) (language fallback attribute : str) :
  (choose_language lower element_list language fallback attribute = NoItem
   <-> Forall (differs lower attribute (lower (strip language))) element_list
       /\ Forall (differs lower attribute (lower (strip fallback))) element_list)
  /\ (choose_language lower element_list language fallback attribute = KeyError
      <-> first_lacking lower element_list attribute (lower (strip language))).
Proof.
  unfold choose_language. split; split.
  - intros H.
    destruct (first_with lower element_list attribute (lower (strip language)))
      as [it| |] eqn:E; try discriminate.
    split; now apply first_with_none.
  - intros [Hl Hf]. apply first_with_none in Hl, Hf. now rewrite Hl.
  - intros H.
    destruct (first_with lower element_list attribute (lower (strip language)))
      as [it| |] eqn:E; try discriminate.
    + exfalso. apply first_with_none in E. apply first_with_error in H.
      exact (lacking_not_differs H E).
    + now apply first_with_error.
  - intros H. apply first_with_error in H. now rewrite H.
Qed.

(** ** Reading the configuration *)

Lemma split_on_pieces sep s :
  Forall (fun p => contains sep p = false /\ forall c, In c p -> In c s)
         (split_on sep s).
Proof.
  induction s as [|c s IH]; cbn [split_on].
  - constructor; [|constructor]. split; [reflexivity | now intros c []].
  - destruct (N.eqb c sep) eqn:E.
    + constructor.
      * split; [reflexivity | now intros x []].
      * eapply Forall_impl; [|exact IH]. intros p [Hp Hin].
        split; [assumption|]. intros x Hx. right. now apply Hin.
    + destruct (split_on sep s) as [|p ps].
      * constructor; [|constructor]. split.
        -- unfold contains. cbn [existsb]. now rewrite N.eqb_sym, E.
        -- intros x [<- | []]. now left.
      * inversion IH as [|? ? [Hp Hin] Hps]; subst. constructor.
        -- split.
           ++ unfold contains in *. cbn [existsb]. now rewrite N.eqb_sym, E, Hp.
           ++ intros x [<- | Hx]; [now left | right; now apply Hin].
        -- eapply Forall_impl; [|exact Hps]. intros q [Hq Hin'].
           split; [assumption|]. intros x Hx. right. now apply Hin'.
Qed.

Lemma without_spaces v c :
  In c (replace [SPACE] [] None v) -> c <> SPACE.
Proof.
  rewrite replace_char. intros H. apply in_flat_map in H.
  destruct H as (x & _ & Hx). destruct (N.eqb x SPACE) eqn:E; [destruct Hx|].
  destruct Hx as [<- | []]. now apply N.eqb_neq.
Qed.

Lemma not_in_contains c s : ~ In c s -> contains c s = false.
Proof.
  intros H. unfold contains. destruct (existsb (N.eqb c) s) eqn:E; [|reflexivity].
  exfalso. apply H. apply existsb_exists in E. destruct E as (x & Hx & Ex).
  apply N.eqb_eq in Ex. now subst.
Qed.

(** X20 ([on_setup_env]): the call raises the [RuntimeError] exactly when
    the option [translations] is missing.  Otherwise the language of the
    content is among the languages of the translations, there is at least
    one language, and every language read from the option has neither a
    space nor a comma: a language with one of them can only be the language
    of the content, which is taken as it is written. *)
Theorem on_setup_env_languages (cfg : config) :
  match on_setup_env cfg with
  | inr message =>
      getitem cfg (py "translations") = None
      /\ message = missing_translations
  | inl st =>
      getitem cfg (py "translations") <> None
      /\ content_language st = config_get cfg (py "content") (py "en")
      /\ In (content_language st) (translations_languages st)
      /\ Forall (fun l => l = content_language st
                          \/ (contains SPACE l = false
                              /\ contains 44%N l = false))
                (translations_languages st)
  end.
Proof.
  unfold on_setup_env.
  destruct (getitem cfg (py "translations")) as [v|] eqn:Ev;
    [|split; reflexivity].
  cbn [content_language translations_languages].
  set (content := config_get cfg (py "content") (py "en")).
  set (langs := split_on 44%N (replace [SPACE] [] None v)).
  assert (Hl : Forall (fun l => l = content
                          \/ (contains SPACE l = false
                              /\ contains 44%N l = false)) langs).
  { eapply Forall_impl; [|apply split_on_pieces]. intros p [Hp Hin]. right.
    split; [|assumption]. apply not_in_contains. intros H.
    apply Hin in H. now apply without_spaces in H. }
  split; [discriminate|]. split; [reflexivity|].
  destruct (existsb (str_eqb content) langs) eqn:E.
  - split; [now apply existsb_str_in | assumption].
  - split; [apply in_or_app; right; now left|].
    apply Forall_app. split; [assumption|]. constructor; [now left | constructor].
Qed.

(** ** Recording the texts of a section *)

Lemma with_source_again source paths :
  with_source source (Some (with_source source paths)) = with_source source paths.
Proof.
  destruct paths as [paths|]; cbn [with_source].
  - destruct (existsb (str_eqb source) paths) eqn:E.
    + now rewrite E.
    + rewrite existsb_app, E. cbn [existsb]. now rewrite str_eqb_refl.
  - cbn [existsb]. now rewrite str_eqb_refl.
Qed.

Lemma add_all_sources_of source texts : forall tr text,
  sources_of text
    (fold_left (fun tr t => Translations.add t source tr) texts tr)
  = if existsb (str_eqb text) texts
    then Some (with_source source (sources_of text tr))
    else sources_of text tr.
Proof.
  induction texts as [|t texts IH]; intros tr text; [reflexivity|].
  cbn [fold_left existsb]. rewrite IH.
  rewrite (add_sources_of_eq tr t source text).
  destruct (str_eqb text t) eqn:Et.
  - apply str_eqb_eq in Et. subst t. cbn [orb].
    destruct (existsb (str_eqb text) texts); [|reflexivity].
    now rewrite with_source_again.
  - reflexivity.
Qed.

Lemma lstrip_by_keep q s :
  (forall c t, s = c :: t -> q c = false) -> lstrip_by q s = s.
Proof.
  destruct s as [|c t]; [reflexivity|]. intros H. simpl.
  now rewrite (H c t eq_refl).
Qed.

Lemma strip_by_weaker (p q : char -> bool) s :
  (forall c, q c = true -> p c = true) ->
  strip_by q (strip_by p s) = strip_by p s.
Proof.
  intros Hq.
  assert (Hn : forall c, p c = false -> q c = false).
  { intros c Hc. destruct (q c) eqn:E; [|reflexivity].
    apply Hq in E. congruence. }
  unfold strip_by at 1. unfold rstrip_by.
  rewrite (@lstrip_by_keep q (strip_by p s)).
  - rewrite lstrip_by_keep; [apply rev_involutive|].
    intros c t E. apply Hn.
    apply (f_equal (@rev char)) in E. rewrite rev_involutive in E.
    simpl in E. exact (@strip_by_last _ _ _ _ E).
  - intros c t E. apply Hn. exact (@strip_by_head _ _ _ _ E).
Qed.

Lemma strip_line_ends s : strip_chars [CR; NL] (strip s) = strip s.
Proof.
  apply strip_by_weaker. intros c H. cbn [existsb] in H.
  rewrite orb_false_r in H. apply orb_true_iff in H.
  destruct H as [H | H]; apply N.eqb_eq in H; subst c; reflexivity.
Qed.

Lemma fold_left_mapped (A B C : Type) (f : A -> C -> A) (g : B -> C) l :
  forall a, fold_left (fun a x => f a (g x)) l a = fold_left f (map g l) a.
Proof. induction l as [|x l IH]; intros a; [reflexivity | apply IH]. Qed.

(** X21 (the texts of a section in the dictionary): after the texts of a
    section were recorded, each of them has the source of the section among
    its sources, once, after the sources it had; the sources of every other
    text are as before.  A text that comes twice in the section gets the
    source once. *)
Theorem add_section_sources (trans_parwise_mode : bool)
    (section : list str) (source : str) (tr : Translations.t) (text : str) :
  sources_of text (add_section trans_parwise_mode section source tr)
  = if existsb (str_eqb text) (section_texts trans_parwise_mode section)
    then Some (with_source source (sources_of text tr))
    else sources_of text tr.
Proof.
  unfold add_section, section_texts.
  rewrite (fold_left_mapped
             (fun tr t => Translations.add t source tr)
             (strip_chars [CR; NL])).
  apply add_all_sources_of.
Qed.

(** X22 (which texts are recorded): line by line, the texts recorded are
    the lines of the section with the white space at both ends removed,
    those that are then empty left out; so no empty text is recorded.
    Paragraph by paragraph, at least one text is recorded whatever the
    section holds, and for an empty section it is the empty text. *)
Theorem section_texts_recorded (section : list str) (source : str)
    (tr : Translations.t) :
  (forall text, In text (section_texts false section)
                <-> text <> [] /\ exists line, In line section /\ text = strip line)
  /\ section_texts true section <> []
  /\ add_section true [] source tr = Translations.add [] source tr.
Proof.
  split; [|split].
  - intros text. unfold section_texts, section_chunks. rewrite map_map.
    rewrite in_map_iff. split.
    + intros (line & <- & H). apply filter_In in H. destruct H as [Hin Hne].
      rewrite strip_line_ends. split.
      * intros E. now rewrite E in Hne.
      * now exists line.
    + intros (Hne & line & Hin & ->). exists line.
      split; [apply strip_line_ends|]. apply filter_In. split; [assumption|].
      now destruct (strip line).
  - unfold section_texts, section_chunks. intros E.
    apply map_eq_nil in E. revert E. apply split_paragraphs_nonempty.
  - reflexivity.
Qed.

(** ** Writing a translated document *)

Lemma write_chunks_known gettext mode chunks : forall f,
  Forall known_kind chunks ->
  write_chunks gettext mode f chunks
  = {| file := f ++ concat (map (chunk_output gettext mode) chunks);
       raised := None |}.
Proof.
  induction chunks as [|[k c] chunks IH]; intros f Hk.
  - simpl. now rewrite app_nil_r.
  - inversion Hk as [|? ? Hk1 Hk2]; subst.
    cbn [write_chunks map concat]. rewrite app_assoc.
    unfold known_kind in Hk1. cbn [fst] in Hk1. destruct Hk1 as [-> | ->].
    + rewrite str_eqb_refl.
      rewrite (IH _ Hk2). unfold chunk_output at 2. cbn [fst snd].
      now rewrite str_eqb_refl.
    + replace (str_eqb translatable raw) with false by reflexivity.
      rewrite str_eqb_refl. rewrite (IH _ Hk2).
      unfold chunk_output at 2. cbn [fst snd].
      replace (str_eqb translatable raw) with false by reflexivity.
      reflexivity.
Qed.

(** X23 ([translate_contents] on the chunks of the parser): whatever the
    lines of the document, the mode and the translator, the loop never
    raises the error of an unknown chunk, and the file written is the
    chunks of the parser in their order, a raw chunk as it is and a
    translatable chunk as the mode translates it. *)
Theorem translate_document_written (gettext : str -> str)
    (trans_parwise_mode : bool) (lines : list str) :
  raised (translate_document gettext trans_parwise_mode lines) = None
  /\ file (translate_document gettext trans_parwise_mode lines)
     = concat (map (chunk_output gettext trans_parwise_mode)
                   (parse_source_structure lines)).
Proof.
  unfold translate_document.
  rewrite (write_chunks_known gettext trans_parwise_mode [] (parse_known lines)).
  now split.
Qed.
